(** * CustodyChain: the chaincode of [smartcontract.go], verified

    The contract keeps custody records ("assets") in the world state of a
    Hyperledger Fabric ledger, one JSON document per key.  This file embeds
    the contract in Rocq and proves what its operations do.

    - [utf8], [utf16], [json]: the parts of Go's standard library that
      [json.Marshal] and [json.Unmarshal] run through for a struct of four
      strings, byte by byte (Go 1.22 and later, which write the short
      escapes of backspace and form feed).
    - [shim]: the ledger behind [ctx.GetStub()], a finite map with the four
      calls the contract makes, any of which may fail.
    - [chaincode]: the functions of [smartcontract.go], one for one.

    A Go [string] is a Rocq [string], a Go [[]byte] a [list byte]; a Go
    function with results [(A, error)] that takes the transaction context is
    a function from the ledger to a result and the ledger after it. *)

From Stdlib Require Import NArith ZArith Lia List Strings.String Strings.Ascii Strings.Byte.
From stdpp Require Import gmap strings list sorting.
Import ListNotations.

#[local] Open Scope N_scope.

(** * Go's [unicode/utf8], as far as [encoding/json] uses it.

    A Go [string] and a Go [[]byte] are both sequences of bytes; a rune is a
    code point, kept here as an [N] (none of the runes below is negative). *)
Module utf8.

Definition RuneError : N := 0xFFFD.
Definition RuneSelf : N := 0x80.
Definition MaxRune : N := 0x10FFFF.
Definition UTFMax : nat := 4.

Definition surrogateMin : N := 0xD800.
Definition surrogateMax : N := 0xDFFF.

Definition tx : N := 0x80.
Definition t2 : N := 0xC0.
Definition t3 : N := 0xE0.
Definition t4 : N := 0xF0.

Definition maskx : N := 0x3F.
Definition mask2 : N := 0x1F.
Definition mask3 : N := 0x0F.
Definition mask4 : N := 0x07.

Definition rune1Max : N := N.shiftl 1 7 - 1.
Definition rune2Max : N := N.shiftl 1 11 - 1.
Definition rune3Max : N := N.shiftl 1 16 - 1.

Definition locb : N := 0x80.
Definition hicb : N := 0xBF.

(** Entries of the [first] table: the low three bits are the length of the
    sequence, the high four bits index [acceptRanges]. *)
Definition xx : N := 0xF1.
Definition as_ : N := 0xF0.
Definition s1 : N := 0x02.
Definition s2 : N := 0x13.
Definition s3 : N := 0x03.
Definition s4 : N := 0x23.
Definition s5 : N := 0x34.
Definition s6 : N := 0x04.
Definition s7 : N := 0x44.

(** The conversion [byte(x)] of an integer: the low eight bits. *)
Definition u8 (n : N) : byte :=
  match Byte.of_N (n mod 256) with
  | Some b => b
  | None => x00
  end.

(** [first[b]]: the 256-entry table, written by its ranges. *)
Definition first (b : byte) : N :=
  let c := Byte.to_N b in
  if c <? 0x80 then as_
  else if c <? 0xC2 then xx
  else if c <? 0xE0 then s1
  else if c =? 0xE0 then s2
  else if c <? 0xED then s3
  else if c =? 0xED then s4
  else if c <? 0xF0 then s3
  else if c =? 0xF0 then s5
  else if c <? 0xF4 then s6
  else if c =? 0xF4 then s7
  else xx.

Definition acceptRanges (i : N) : N * N :=
  match i with
  | 0 => (locb, hicb)
  | 1 => (0xA0, hicb)
  | 2 => (locb, 0x9F)
  | 3 => (0x90, hicb)
  | 4 => (locb, 0x8F)
  | _ => (0, 0)
  end.

(** [p[i]], read only below [len(p)]. *)
Definition at_ (p : list byte) (i : nat) : N := Byte.to_N (nth i p x00).

Definition DecodeRune (p : list byte) : N * nat :=
  match p with
  | [] => (RuneError, 0%nat)
  | p0 :: _ =>
    let x := first p0 in
    if as_ <=? x then
      (if N.odd x then RuneError else Byte.to_N p0, 1%nat)
    else
      let sz := N.to_nat (N.land x 7) in
      let accept := acceptRanges (N.shiftr x 4) in
      if (length p <? sz)%nat then (RuneError, 1%nat)
      else
        let b1 := at_ p 1 in
        if (b1 <? fst accept) || (snd accept <? b1) then (RuneError, 1%nat)
        else if (sz <=? 2)%nat then
          (N.lor (N.shiftl (N.land (Byte.to_N p0) mask2) 6) (N.land b1 maskx), 2%nat)
        else
          let b2 := at_ p 2 in
          if (b2 <? locb) || (hicb <? b2) then (RuneError, 1%nat)
          else if (sz <=? 3)%nat then
            (N.lor (N.lor (N.shiftl (N.land (Byte.to_N p0) mask3) 12)
                          (N.shiftl (N.land b1 maskx) 6))
                   (N.land b2 maskx), 3%nat)
          else
            let b3 := at_ p 3 in
            if (b3 <? locb) || (hicb <? b3) then (RuneError, 1%nat)
            else
              (N.lor (N.lor (N.lor (N.shiftl (N.land (Byte.to_N p0) mask4) 18)
                                   (N.shiftl (N.land b1 maskx) 12))
                            (N.shiftl (N.land b2 maskx) 6))
                     (N.land b3 maskx), 4%nat)
  end.

Definition encode3 (r : N) : list byte :=
  [u8 (N.lor t3 (N.shiftr r 12));
   u8 (N.lor tx (N.land (N.shiftr r 6) maskx));
   u8 (N.lor tx (N.land r maskx))].

Definition EncodeRune (r : N) : list byte :=
  if r <=? rune1Max then [u8 r]
  else if r <=? rune2Max then
    [u8 (N.lor t2 (N.shiftr r 6)); u8 (N.lor tx (N.land r maskx))]
  else if (MaxRune <? r) || ((surrogateMin <=? r) && (r <=? surrogateMax)) then
    encode3 RuneError
  else if r <=? rune3Max then encode3 r
  else
    [u8 (N.lor t4 (N.shiftr r 18));
     u8 (N.lor tx (N.land (N.shiftr r 12) maskx));
     u8 (N.lor tx (N.land (N.shiftr r 6) maskx));
     u8 (N.lor tx (N.land r maskx))].

(** [DecodeRune] reports an ill-formed sequence as [(RuneError, 1)]. *)
Definition ill_formed (d : N * nat) : bool :=
  (fst d =? RuneError) && (snd d =? 1)%nat.

(** [utf8.Valid]: the bytes are a sequence of well-formed encodings.  The
    loop advances by at least one byte, so [length p] iterations are enough. *)
Fixpoint valid_from (fuel : nat) (p : list byte) : bool :=
  match p, fuel with
  | [], _ => true
  | _ :: _, O => false
  | _ :: _, S fuel' =>
    let d := DecodeRune p in
    if ill_formed d then false else valid_from fuel' (skipn (snd d) p)
  end.

Definition Valid (p : list byte) : bool := valid_from (length p) p.

Definition ValidString (s : string) : bool := Valid (list_byte_of_string s).

End utf8.

(** The bytes of a Go string constant. *)
Abbreviation bytes := list_byte_of_string.

#[global] Instance byte_eq_dec : EqDecision byte := Byte.byte_eq_dec.

(** * Go's [unicode/utf16], the two functions [encoding/json] calls. *)
Module utf16.

Definition surr1 : N := 0xd800.
Definition surr2 : N := 0xdc00.
Definition surr3 : N := 0xe000.
Definition surrSelf : N := 0x10000.

Definition IsSurrogate (r : N) : bool := (surr1 <=? r) && (r <? surr3).

(** [r2] is [None] where the Go caller passes a negative rune. *)
Definition DecodeRune (r1 : N) (r2 : option N) : N :=
  match r2 with
  | Some r2 =>
    if (surr1 <=? r1) && (r1 <? surr2) && (surr2 <=? r2) && (r2 <? surr3)
    then N.lor (N.shiftl (r1 - surr1) 10) (r2 - surr2) + surrSelf
    else utf8.RuneError
  | None => utf8.RuneError
  end.

End utf16.

(** * Go's [encoding/json], for a struct whose fields are all strings.

    [json.Marshal] and [json.Unmarshal] work by reflection on the struct type.
    Here a struct value is given by its fields in declaration order, each with
    the name of its [json] tag and its value. *)
Module json.

Definition fields := list (string * string).

Inductive error :=
| SyntaxError
| UnmarshalTypeError.

(** ** encode.go *)

Definition hex (n : N) : byte :=
  nth (N.to_nat n) (bytes "0123456789abcdef") x00.

(** [htmlSafeSet[b]], for [b < utf8.RuneSelf]: every byte from space on,
    but the double quote, the ampersand, the angle brackets and the backslash. *)
Definition htmlSafeSet (b : byte) : bool :=
  let c := Byte.to_N b in
  (0x20 <=? c) && (c <? 0x80) &&
  negb ((c =? 0x22) || (c =? 0x26) || (c =? 0x3C) || (c =? 0x3E) || (c =? 0x5C)).

(** The escape of a byte below [utf8.RuneSelf] that is not in [htmlSafeSet]. *)
Definition escapeByte (b : byte) : list byte :=
  match b with
  | x5c | x22 => [x5c; b]
  | x08 => [x5c; "b"%byte]
  | x0c => [x5c; "f"%byte]
  | x0a => [x5c; "n"%byte]
  | x0d => [x5c; "r"%byte]
  | x09 => [x5c; "t"%byte]
  | _ => (x5c :: bytes "u00") ++ [hex (N.shiftr (Byte.to_N b) 4); hex (N.land (Byte.to_N b) 0xF)]
  end.

(** The loop of [appendString] (with [escapeHTML] set, as [Marshal] sets it)
    over the bytes of [src] from the current index on.  Every iteration
    advances, so [length src] iterations are enough. *)
Fixpoint appendString_from (fuel : nat) (src : list byte) : list byte :=
  match src, fuel with
  | [], _ => []
  | _ :: _, O => []
  | b :: rest, S fuel' =>
    if Byte.to_N b <? utf8.RuneSelf then
      (if htmlSafeSet b then [b] else escapeByte b) ++ appendString_from fuel' rest
    else
      let d := utf8.DecodeRune (firstn utf8.UTFMax src) in
      if utf8.ill_formed d then
        (x5c :: bytes "ufffd") ++ appendString_from fuel' (skipn (snd d) src)
      else if (fst d =? 0x2028) || (fst d =? 0x2029) then
        (x5c :: bytes "u202") ++ [hex (N.land (fst d) 0xF)]
          ++ appendString_from fuel' (skipn (snd d) src)
      else
        firstn (snd d) src ++ appendString_from fuel' (skipn (snd d) src)
  end.

(** What [appendString] makes of a string, read back: the string "coerced
    to valid UTF-8, replacing invalid bytes with the Unicode replacement
    rune" (the documentation of [Marshal]). *)
Fixpoint coerce_from (fuel : nat) (src : list byte) : list byte :=
  match src, fuel with
  | [], _ => []
  | _ :: _, O => []
  | _ :: _, S fuel' =>
    let d := utf8.DecodeRune src in
    (if utf8.ill_formed d then utf8.EncodeRune utf8.RuneError else firstn (snd d) src)
      ++ coerce_from fuel' (skipn (snd d) src)
  end.

Definition toValidUTF8 (s : string) : string :=
  string_of_list_byte (coerce_from (length (bytes s)) (bytes s)).

Definition appendString (dst : list byte) (src : string) : list byte :=
  dst ++ [x22] ++ appendString_from (length (bytes src)) (bytes src) ++ [x22].

(** [nameEscHTML] of a field: the quoted name and the colon.  The names of
    this program's tags are plain letters, which need no escape. *)
Definition nameEscHTML (name : string) : list byte :=
  [x22] ++ bytes name ++ [x22; ":"%byte].

(** [structEncoder.encode]: the fields in declaration order, ["{"] before
    the first and [","] before each other one. *)
Fixpoint encodeFields (next : byte) (fs : fields) (e : list byte) : list byte :=
  match fs with
  | [] => e
  | (name, v) :: fs' =>
    encodeFields ","%byte fs' (appendString (e ++ [next] ++ nameEscHTML name) v)
  end.

Definition encodeStruct (fs : fields) : list byte :=
  match fs with
  | [] => bytes "{}"
  | _ => encodeFields "{"%byte fs [] ++ bytes "}"
  end.

(** [Marshal] of a struct of strings has no failing case. *)
Definition Marshal (fs : fields) : error + list byte := inr (encodeStruct fs).

(** ** scanner.go *)

Inductive opcode :=
| scanContinue | scanBeginLiteral | scanBeginObject | scanObjectKey
| scanObjectValue | scanEndObject | scanBeginArray | scanArrayValue
| scanEndArray | scanSkipSpace | scanEnd | scanError.

Inductive parse := parseObjectKey | parseObjectValue | parseArrayValue.

Inductive state :=
| stateBeginValueOrEmpty | stateBeginValue | stateBeginStringOrEmpty
| stateBeginString | stateEndValue | stateEndTop
| stateInString | stateInStringEsc | stateInStringEscU | stateInStringEscU1
| stateInStringEscU12 | stateInStringEscU123
| stateNeg | state1 | state0 | stateDot | stateDot0 | stateE | stateESign | stateE0
| stateT | stateTr | stateTru | stateF | stateFa | stateFal | stateFals
| stateN | stateNu | stateNul
| stateError.

(** The scanner: [parseState] is the stack of what is being parsed, the
    innermost first (Go appends at the end of a slice). *)
Record scanner := Scanner {
  step : state;
  parseState : list parse;
  endTop : bool;
  err : bool
}.

Definition maxNestingDepth : N := 10000.

Definition reset : scanner :=
  {| step := stateBeginValue; parseState := []; endTop := false; err := false |}.

Definition goto (s : scanner) (st : state) : scanner :=
  {| step := st; parseState := parseState s; endTop := endTop s; err := err s |}.

Definition error_ (s : scanner) : scanner * opcode :=
  ({| step := stateError; parseState := parseState s; endTop := endTop s; err := true |},
   scanError).

Definition pushParseState (s : scanner) (st : state) (newParseState : parse)
    (successState : opcode) : scanner * opcode :=
  let s' := {| step := st; parseState := newParseState :: parseState s;
               endTop := endTop s; err := err s |} in
  if N.of_nat (length (parseState s')) <=? maxNestingDepth then (s', successState)
  else error_ s'.

Definition popParseState (s : scanner) : scanner :=
  match tail (parseState s) with
  | [] => {| step := stateEndTop; parseState := []; endTop := true; err := err s |}
  | ps => {| step := stateEndValue; parseState := ps; endTop := endTop s; err := err s |}
  end.

Definition setTop (s : scanner) (p : parse) (st : state) : scanner :=
  {| step := st; parseState := p :: tail (parseState s); endTop := endTop s; err := err s |}.

Definition isSpace (c : byte) : bool :=
  match c with
  | " "%byte | x09 | x0d | x0a => true
  | _ => false
  end.

Definition isDigit (c : byte) : bool :=
  (Byte.to_N "0"%byte <=? Byte.to_N c) && (Byte.to_N c <=? Byte.to_N "9"%byte).

Definition isDigit19 (c : byte) : bool :=
  (Byte.to_N "1"%byte <=? Byte.to_N c) && (Byte.to_N c <=? Byte.to_N "9"%byte).

Definition isHex (c : byte) : bool :=
  isDigit c
  || ((Byte.to_N "a"%byte <=? Byte.to_N c) && (Byte.to_N c <=? Byte.to_N "f"%byte))
  || ((Byte.to_N "A"%byte <=? Byte.to_N c) && (Byte.to_N c <=? Byte.to_N "F"%byte)).

Definition stateEndTop_ (s : scanner) (c : byte) : scanner * opcode :=
  if isSpace c then (s, scanEnd) else (fst (error_ s), scanEnd).

Definition stateEndValue_ (s : scanner) (c : byte) : scanner * opcode :=
  match parseState s with
  | [] =>
    stateEndTop_ {| step := stateEndTop; parseState := []; endTop := true; err := err s |} c
  | ps :: _ =>
    if isSpace c then (goto s stateEndValue, scanSkipSpace)
    else
      match ps with
      | parseObjectKey =>
        if Byte.eqb c ":" then (setTop s parseObjectValue stateBeginValue, scanObjectKey)
        else error_ s
      | parseObjectValue =>
        if Byte.eqb c "," then (setTop s parseObjectKey stateBeginString, scanObjectValue)
        else if Byte.eqb c "}" then (popParseState s, scanEndObject)
        else error_ s
      | parseArrayValue =>
        if Byte.eqb c "," then (goto s stateBeginValue, scanArrayValue)
        else if Byte.eqb c "]" then (popParseState s, scanEndArray)
        else error_ s
      end
  end.

Definition stateBeginValue_ (s : scanner) (c : byte) : scanner * opcode :=
  if isSpace c then (s, scanSkipSpace)
  else
    match c with
    | "{"%byte => pushParseState s stateBeginStringOrEmpty parseObjectKey scanBeginObject
    | "["%byte => pushParseState s stateBeginValueOrEmpty parseArrayValue scanBeginArray
    | x22 => (goto s stateInString, scanBeginLiteral)
    | "-"%byte => (goto s stateNeg, scanBeginLiteral)
    | "0"%byte => (goto s state0, scanBeginLiteral)
    | "t"%byte => (goto s stateT, scanBeginLiteral)
    | "f"%byte => (goto s stateF, scanBeginLiteral)
    | "n"%byte => (goto s stateN, scanBeginLiteral)
    | _ => if isDigit19 c then (goto s state1, scanBeginLiteral) else error_ s
    end.

Definition stateBeginString_ (s : scanner) (c : byte) : scanner * opcode :=
  if isSpace c then (s, scanSkipSpace)
  else if Byte.eqb c x22 then (goto s stateInString, scanBeginLiteral)
  else error_ s.

(** A literal character: go to [st] on [c = want], fail otherwise. *)
Definition expect (s : scanner) (c want : byte) (st : state) : scanner * opcode :=
  if Byte.eqb c want then (goto s st, scanContinue) else error_ s.

Definition state0_ (s : scanner) (c : byte) : scanner * opcode :=
  if Byte.eqb c "." then (goto s stateDot, scanContinue)
  else if Byte.eqb c "e" || Byte.eqb c "E" then (goto s stateE, scanContinue)
  else stateEndValue_ s c.

Definition stateESign_ (s : scanner) (c : byte) : scanner * opcode :=
  if isDigit c then (goto s stateE0, scanContinue) else error_ s.

(** [s.step(s, c)]: one byte through the state function the scanner is in. *)
Definition scan_step (s : scanner) (c : byte) : scanner * opcode :=
  match step s with
  | stateBeginValueOrEmpty =>
    if isSpace c then (s, scanSkipSpace)
    else if Byte.eqb c "]" then stateEndValue_ s c
    else stateBeginValue_ s c
  | stateBeginValue => stateBeginValue_ s c
  | stateBeginStringOrEmpty =>
    if isSpace c then (s, scanSkipSpace)
    else if Byte.eqb c "}" then
      stateEndValue_ (setTop s parseObjectValue (step s)) c
    else stateBeginString_ s c
  | stateBeginString => stateBeginString_ s c
  | stateEndValue => stateEndValue_ s c
  | stateEndTop => stateEndTop_ s c
  | stateInString =>
    if Byte.eqb c x22 then (goto s stateEndValue, scanContinue)
    else if Byte.eqb c x5c then (goto s stateInStringEsc, scanContinue)
    else if Byte.to_N c <? 0x20 then error_ s
    else (s, scanContinue)
  | stateInStringEsc =>
    match c with
    | "b"%byte | "f"%byte | "n"%byte | "r"%byte | "t"%byte | x5c | "/"%byte | x22 =>
      (goto s stateInString, scanContinue)
    | "u"%byte => (goto s stateInStringEscU, scanContinue)
    | _ => error_ s
    end
  | stateInStringEscU =>
    if isHex c then (goto s stateInStringEscU1, scanContinue) else error_ s
  | stateInStringEscU1 =>
    if isHex c then (goto s stateInStringEscU12, scanContinue) else error_ s
  | stateInStringEscU12 =>
    if isHex c then (goto s stateInStringEscU123, scanContinue) else error_ s
  | stateInStringEscU123 =>
    if isHex c then (goto s stateInString, scanContinue) else error_ s
  | stateNeg =>
    if Byte.eqb c "0" then (goto s state0, scanContinue)
    else if isDigit19 c then (goto s state1, scanContinue)
    else error_ s
  | state1 =>
    if isDigit c then (goto s state1, scanContinue) else state0_ s c
  | state0 => state0_ s c
  | stateDot =>
    if isDigit c then (goto s stateDot0, scanContinue) else error_ s
  | stateDot0 =>
    if isDigit c then (s, scanContinue)
    else if Byte.eqb c "e" || Byte.eqb c "E" then (goto s stateE, scanContinue)
    else stateEndValue_ s c
  | stateE =>
    if Byte.eqb c "+" || Byte.eqb c "-" then (goto s stateESign, scanContinue)
    else stateESign_ s c
  | stateESign => stateESign_ s c
  | stateE0 =>
    if isDigit c then (s, scanContinue) else stateEndValue_ s c
  | stateT => expect s c "r" stateTr
  | stateTr => expect s c "u" stateTru
  | stateTru => expect s c "e" stateEndValue
  | stateF => expect s c "a" stateFa
  | stateFa => expect s c "l" stateFal
  | stateFal => expect s c "s" stateFals
  | stateFals => expect s c "e" stateEndValue
  | stateN => expect s c "u" stateNu
  | stateNu => expect s c "l" stateNul
  | stateNul => expect s c "l" stateEndValue
  | stateError => (s, scanError)
  end.

(** [s.eof()]. *)
Definition eof (s : scanner) : opcode :=
  if err s then scanError
  else if endTop s then scanEnd
  else if endTop (fst (scan_step s " "%byte)) then scanEnd
  else scanError.

(** [checkValid(data, scan) == nil].  The Go loop returns at the first
    [scanError]; the scanner stays in [stateError] from there on, so the
    error is still there after the last byte. *)
Definition checkValid (data : list byte) : bool :=
  let s := fold_left (fun s c => fst (scan_step s c)) data reset in
  match eof s with
  | scanError => false
  | _ => negb (err s)
  end.

(** ** decode.go *)

Definition hexval (c : byte) : option N :=
  let n := Byte.to_N c in
  if isDigit c then Some (n - Byte.to_N "0"%byte)
  else if (Byte.to_N "a"%byte <=? n) && (n <=? Byte.to_N "f"%byte)
    then Some (n - Byte.to_N "a"%byte + 10)
  else if (Byte.to_N "A"%byte <=? n) && (n <=? Byte.to_N "F"%byte)
    then Some (n - Byte.to_N "A"%byte + 10)
  else None.

(** [getu4]: the code unit of a [\uXXXX] at the start of [s]; [None] for
    Go's [-1]. *)
Definition getu4 (s : list byte) : option N :=
  match s with
  | x5c :: "u"%byte :: h1 :: h2 :: h3 :: h4 :: _ =>
    match hexval h1, hexval h2, hexval h3, hexval h4 with
    | Some a, Some b, Some c, Some d => Some (((a * 16 + b) * 16 + c) * 16 + d)
    | _, _, _, _ => None
    end
  | _ => None
  end.

(** The body of the loop of [unquoteBytes], at the bytes [s] that are left
    between the quotes; [continue] is the rest of the loop and [None] is
    [ok = false]. *)
Definition unquote_body (continue : list byte -> option (list byte)) (s : list byte)
    : option (list byte) :=
  match s with
  | [] => Some []
  | c :: rest =>
    if Byte.eqb c x5c then
      match rest with
      | [] => None
      | e :: rest' =>
        match e with
        | x22 | x5c | "/"%byte | "'"%byte => cons e <$> continue rest'
        | "b"%byte => cons x08 <$> continue rest'
        | "f"%byte => cons x0c <$> continue rest'
        | "n"%byte => cons x0a <$> continue rest'
        | "r"%byte => cons x0d <$> continue rest'
        | "t"%byte => cons x09 <$> continue rest'
        | "u"%byte =>
          match getu4 s with
          | None => None
          | Some rr =>
            let s' := skipn 6 s in
            if utf16.IsSurrogate rr then
              let dec := utf16.DecodeRune rr (getu4 s') in
              if negb (dec =? utf8.RuneError) then
                app (utf8.EncodeRune dec) <$> continue (skipn 6 s')
              else
                app (utf8.EncodeRune utf8.RuneError) <$> continue s'
            else app (utf8.EncodeRune rr) <$> continue s'
          end
        | _ => None
        end
      end
    else if Byte.eqb c x22 || (Byte.to_N c <? 0x20) then None
    else if Byte.to_N c <? utf8.RuneSelf then cons c <$> continue rest
    else
      let d := utf8.DecodeRune s in
      app (utf8.EncodeRune (fst d)) <$> continue (skipn (snd d) s)
  end.

(** The loop: every iteration advances, so [length s] iterations are enough. *)
Fixpoint unquote_from (fuel : nat) (s : list byte) : option (list byte) :=
  match fuel with
  | O => match s with [] => Some [] | _ :: _ => None end
  | S fuel' => unquote_body (unquote_from fuel') s
  end.

(** [unquoteBytes]: [s] is a literal with its quotes. *)
Definition unquoteBytes (s : list byte) : option (list byte) :=
  match s with
  | x22 :: s' =>
    match last s' with
    | Some x22 => let body := removelast s' in unquote_from (length body) body
    | _ => None
    end
  | _ => None
  end.

(** [foldRune] on a rune outside ASCII: the least rune of its orbit under
    [unicode.SimpleFold].  Two orbits reach into ASCII, that of U+017F (with
    S and s) and that of U+212A (with K and k); every other rune stands here
    for the least of its orbit, which is outside ASCII too. *)
Definition foldRune (r : N) : N :=
  if r =? 0x17F then Byte.to_N "S"%byte
  else if r =? 0x212A then Byte.to_N "K"%byte
  else r.

(** [foldName]: equal results mean equal under simple case folding. *)
Fixpoint foldName_from (fuel : nat) (s : list byte) : list byte :=
  match s, fuel with
  | [], _ => []
  | _ :: _, O => []
  | c :: rest, S fuel' =>
    if Byte.to_N c <? utf8.RuneSelf then
      (if (Byte.to_N "a"%byte <=? Byte.to_N c) && (Byte.to_N c <=? Byte.to_N "z"%byte)
       then utf8.u8 (Byte.to_N c - (Byte.to_N "a"%byte - Byte.to_N "A"%byte))
       else c) :: foldName_from fuel' rest
    else
      let d := utf8.DecodeRune s in
      utf8.EncodeRune (foldRune (fst d)) ++ foldName_from fuel' (skipn (snd d) s)
  end.

Definition foldName (s : list byte) : list byte := foldName_from (length s) s.

(** The index of the first field for which [p] holds. *)
Fixpoint find_field (p : string -> bool) (fs : fields) : option nat :=
  match fs with
  | [] => None
  | (name, _) :: fs' => if p name then Some 0%nat else S <$> find_field p fs'
  end.

(** The field a key names: the one of that very name ([byExactName]), else
    the first one of that name up to case ([byFoldedName]). *)
Definition fieldOf (fs : fields) (key : list byte) : option nat :=
  match find_field (fun name => bool_decide (bytes name = key)) fs with
  | Some i => Some i
  | None => find_field (fun name => bool_decide (foldName (bytes name) = foldName key)) fs
  end.

Definition setField (fs : fields) (i : nat) (v : string) : fields :=
  match fs !! i with
  | Some (name, _) => <[i := (name, v)]> fs
  | None => fs
  end.

(** The decoder reads a checked input with the scanner and acts on what it
    meets.  [lit] is the literal being read, [field] the field the last key
    of the outermost object named, [target] the struct being filled and
    [savedError] whether an [UnmarshalTypeError] was saved. *)
Record decodeState := DecodeState {
  scan : scanner;
  lit : list byte;
  field : option nat;
  target : fields;
  savedError : bool
}.

Definition inString (st : state) : bool :=
  match st with
  | stateInString | stateInStringEsc | stateInStringEscU | stateInStringEscU1
  | stateInStringEscU12 | stateInStringEscU123 => true
  | _ => false
  end.

(** A string literal has ended: as a key of the outermost object it selects
    a field, as a value there it is stored in the selected field
    ([literalStore]); deeper literals belong to skipped values. *)
Definition endLiteral (d : decodeState) (item : list byte) : decodeState :=
  match parseState (scan d) with
  | [parseObjectKey] =>
    match unquoteBytes item with
    | Some key =>
      {| scan := scan d; lit := []; field := fieldOf (target d) key;
         target := target d; savedError := savedError d |}
    | None => d
    end
  | [parseObjectValue] =>
    match field d, unquoteBytes item with
    | Some i, Some s =>
      {| scan := scan d; lit := []; field := field d;
         target := setField (target d) i (string_of_list_byte s);
         savedError := savedError d |}
    | _, _ => d
    end
  | _ => d
  end.

(** A value begins with the byte [c].  The outermost value must be an object
    or [null]; a value of the outermost object must be a string or [null]
    when its key names a field.  Anything else saves an
    [UnmarshalTypeError], and the value is skipped. *)
Definition beginValue (d : decodeState) (c : byte) : decodeState :=
  match parseState (scan d) with
  | [] =>
    match c with
    | "{"%byte | "n"%byte => d
    | _ => {| scan := scan d; lit := lit d; field := field d; target := target d;
              savedError := true |}
    end
  | [parseObjectValue] =>
    match c, field d with
    | x22, _ | "n"%byte, _ | _, None => d
    | _, Some _ => {| scan := scan d; lit := lit d; field := field d; target := target d;
                      savedError := true |}
    end
  | _ => d
  end.

Definition withScan (d : decodeState) (s : scanner) (l : list byte) : decodeState :=
  {| scan := s; lit := l; field := field d; target := target d;
     savedError := savedError d |}.

Definition decode_step (d : decodeState) (c : byte) : decodeState :=
  let s := scan d in
  let s' := fst (scan_step s c) in
  if inString (step s) then
    if inString (step s') then withScan d s' (lit d ++ [c])
    else withScan (endLiteral d (lit d ++ [c])) s' []
  else
    match step s with
    | stateBeginValue | stateBeginValueOrEmpty =>
      if isSpace c then withScan d s' []
      else withScan (beginValue d c) s' [c]
    | _ => withScan d s' [c]
    end.

Definition decodeInit (v : fields) : decodeState :=
  {| scan := reset; lit := []; field := None; target := v; savedError := false |}.

(** [Unmarshal(data, &v)]: the new value of [v], or the error. *)
Definition Unmarshal (data : list byte) (v : fields) : error + fields :=
  if checkValid data then
    let d := fold_left decode_step data (decodeInit v) in
    if savedError d then inl UnmarshalTypeError else inr (target d)
  else inl SyntaxError.

End json.

(** * The ledger behind [ctx.GetStub()]

    The world state is a finite map from keys to values.  Every call of the
    stub can fail for a reason of the ledger's own; [faults] lists, call by
    call, whether the next calls do ([true]: the call fails and changes
    nothing), and a ledger with no entry left does not fail. *)
Module shim.

Inductive error :=
| StubError
| JsonError (e : json.error)
| Errorf_s (format : string) (arg : string)
| Errorf_v (format : string) (arg : error).

Record ChaincodeStub := Stub {
  state : gmap string (list byte);
  faults : list bool
}.

(** A Go function that takes [ctx] and returns [(A, error)]. *)
Definition M (A : Type) : Type := ChaincodeStub -> (error + A) * ChaincodeStub.

Definition ret {A} (a : A) : M A := fun ctx => (inr a, ctx).

Definition fail {A} (err : error) : M A := fun ctx => (inl err, ctx).

(** [x, err := m; if err != nil { return err }; k x] *)
Definition bind {A B} (m : M A) (k : A -> M B) : M B := fun ctx =>
  match m ctx with
  | (inl err, ctx') => (inl err, ctx')
  | (inr a, ctx') => k a ctx'
  end.

(** [x, err := m; if err != nil { return fmt.Errorf(format, err) }; k x] *)
Definition bind_wrap {A B} (format : string) (m : M A) (k : A -> M B) : M B := fun ctx =>
  match m ctx with
  | (inl err, ctx') => (inl (Errorf_v format err), ctx')
  | (inr a, ctx') => k a ctx'
  end.

(** A result of [encoding/json] as a result of the contract. *)
Definition lift {A} (r : json.error + A) : M A :=
  match r with
  | inl err => fail (JsonError err)
  | inr a => ret a
  end.

(** The ledger after one more call, with the world state [m]. *)
Definition answered (ctx : ChaincodeStub) (m : gmap string (list byte)) : ChaincodeStub :=
  {| state := m; faults := tail (faults ctx) |}.

(** A call of the ledger: it fails and leaves the world state as it is, or
    it returns [a] and leaves the world state [m], for [(a, m)] what [f]
    gives on the world state. *)
Definition call {A} (f : gmap string (list byte) -> A * gmap string (list byte)) : M A :=
  fun ctx =>
    match faults ctx with
    | true :: _ => (inl StubError, answered ctx (state ctx))
    | _ => (inr (f (state ctx)).1, answered ctx (f (state ctx)).2)
    end.

(** [GetState]: [None] is Go's [nil], the answer for a key with no value. *)
Definition GetState (key : string) : M (option (list byte)) :=
  call (fun m => (m !! key, m)).

Definition PutState (key : string) (value : list byte) : M unit :=
  call (fun m => (tt, <[key := value]> m)).

Definition DelState (key : string) : M unit :=
  call (fun m => (tt, delete key m)).

Record KV := { Key : string; Value : list byte }.

Definition in_range (startKey endKey key : string) : bool :=
  (bool_decide (startKey = "") || String.leb startKey key)
  && (bool_decide (endKey = "") || String.ltb key endKey).

(** The entries a range query iterates over: those from [startKey] up to
    [endKey] (an empty bound is no bound), in the order of their keys. *)
Definition entries (startKey endKey : string) (m : gmap string (list byte)) : list KV :=
  (fun kv => {| Key := kv.1; Value := kv.2 |}) <$>
    merge_sort (fun x y => String.le x.1 y.1)
      (filter (fun kv => in_range startKey endKey kv.1 = true) (map_to_list m)).

(** [GetStateByRange]: the iterator, as the entries it has left. *)
Definition GetStateByRange (startKey endKey : string) : M (list KV) :=
  call (fun m => (entries startKey endKey m, m)).

(** [resultsIterator.Next()], when [HasNext()]: the ledger may fail to
    deliver the entry. *)
Definition Next (queryResponse : KV) : M KV :=
  call (fun m => (queryResponse, m)).

End shim.

Declare Scope go_scope.
Delimit Scope go_scope with go.
Notation "'let!' x ':=' m 'in' k" := (shim.bind m (fun x => k))
  (at level 10, x name, m at level 100, k at level 200) : go_scope.
Notation "'let!' x ':=' m 'or' msg 'in' k" := (shim.bind_wrap msg m (fun x => k))
  (at level 10, x name, m at level 100, msg at level 0, k at level 200) : go_scope.

(** * smartcontract.go *)
Module chaincode.
Import shim.
#[local] Open Scope go_scope.

(** [type Asset struct], the fields in the order of the declaration. *)
Record Asset := {
  CustodianName : string;
  CustodianAgency : string;
  CaseNumber : string;
  EvidenceInfo : string
}.

(** What reflection gives [encoding/json] for an [Asset]: each field with
    the name of its [json] tag, in the order of the declaration. *)
Definition structFields (a : Asset) : json.fields :=
  [("custodianName", CustodianName a);
   ("custodianAgency", CustodianAgency a);
   ("caseNumber", CaseNumber a);
   ("evidenceInfo", EvidenceInfo a)].

Definition ofFields (fs : json.fields) : Asset :=
  {| CustodianName := default "" (snd <$> fs !! 0%nat);
     CustodianAgency := default "" (snd <$> fs !! 1%nat);
     CaseNumber := default "" (snd <$> fs !! 2%nat);
     EvidenceInfo := default "" (snd <$> fs !! 3%nat) |}.

(** [var asset Asset] *)
Definition zero : Asset :=
  {| CustodianName := ""; CustodianAgency := ""; CaseNumber := ""; EvidenceInfo := "" |}.

(** [json.Marshal(asset)] *)
Definition Marshal (asset : Asset) : M (list byte) :=
  lift (json.Marshal (structFields asset)).

(** [var asset Asset; err = json.Unmarshal(data, &asset)]: the asset that
    [data] is read as, or the error. *)
Definition decode (data : list byte) : json.error + Asset :=
  match json.Unmarshal data (structFields zero) with
  | inl err => inl err
  | inr fs => inr (ofFields fs)
  end.

Definition Unmarshal (data : list byte) : M Asset := lift (decode data).

(** What [json.Marshal(asset)] returns when it returns no error. *)
Definition encode (asset : Asset) : list byte := json.encodeStruct (structFields asset).

Definition assets : list Asset :=
  [ {| CustodianName := "Zaki"; CustodianAgency := "RCED"; CaseNumber := "1";
       EvidenceInfo := "HP01/HP02" |};
    {| CustodianName := "Aya"; CustodianAgency := "RBPF"; CaseNumber := "2";
       EvidenceInfo := "HP01/HP02/HP03" |};
    {| CustodianName := "Adi"; CustodianAgency := "KDN"; CaseNumber := "3";
       EvidenceInfo := "HP01/HP02/SIM01/SIM02" |};
    {| CustodianName := "Dan"; CustodianAgency := "CSB"; CaseNumber := "4";
       EvidenceInfo := "HP01/HP02/SIM01/" |};
    {| CustodianName := "Azmi"; CustodianAgency := "RCED"; CaseNumber := "5";
       EvidenceInfo := "HP01/HP02/HP03/SIM01/SIM02" |};
    {| CustodianName := "Mirul"; CustodianAgency := "CSB"; CaseNumber := "6";
       EvidenceInfo := "HP01/HP02/HP03/SIM01/SIM02/SIM03" |} ].

(** The loop of [InitLedger] over the assets that are left. *)
Fixpoint InitLedger_from (assets : list Asset) : M unit :=
  match assets with
  | [] => ret tt
  | asset :: assets' =>
    let! assetJSON := Marshal asset in
    let! _ := PutState (CustodianName asset) assetJSON
              or "failed to put to world state. %v" in
    InitLedger_from assets'
  end.

Definition InitLedger : M unit := InitLedger_from assets.

Definition AssetExists (custodianName : string) : M bool :=
  let! assetJSON := GetState custodianName
                    or "failed to read from world state: %v" in
  ret (bool_decide (assetJSON <> None)).

Definition CreateAsset (custodianName custodianAgency caseNumber evidenceInfo : string)
    : M unit :=
  let! exists_ := AssetExists custodianName in
  if exists_ then fail (Errorf_s "the asset %s already exists" custodianName)
  else
    let asset := {| CustodianName := custodianName; CustodianAgency := custodianAgency;
                    CaseNumber := caseNumber; EvidenceInfo := evidenceInfo |} in
    let! assetJSON := Marshal asset in
    PutState custodianName assetJSON.

Definition ReadAsset (custodianName : string) : M Asset :=
  let! assetJSON := GetState custodianName
                    or "failed to read from world state: %v" in
  match assetJSON with
  | None => fail (Errorf_s "the asset %s does not exist" custodianName)
  | Some assetJSON => Unmarshal assetJSON
  end.

Definition UpdateAsset (custodianName custodianAgency caseNumber evidenceInfo : string)
    : M unit :=
  let! exists_ := AssetExists custodianName in
  if negb exists_ then fail (Errorf_s "the asset %s does not exist" custodianName)
  else
    let asset := {| CustodianName := custodianName; CustodianAgency := custodianAgency;
                    CaseNumber := caseNumber; EvidenceInfo := evidenceInfo |} in
    let! assetJSON := Marshal asset in
    PutState custodianName assetJSON.

Definition DeleteAsset (custodianName : string) : M unit :=
  let! exists_ := AssetExists custodianName in
  if negb exists_ then fail (Errorf_s "the asset %s does not exist" custodianName)
  else DelState custodianName.

Definition TransferAsset (caseNumber newcustodianName newcustodianAgency : string)
    : M string :=
  let! asset := ReadAsset caseNumber in
  let oldcustodianName := CustodianName asset in
  let asset := {| CustodianName := newcustodianName;
                  CustodianAgency := newcustodianAgency;
                  CaseNumber := CaseNumber asset;
                  EvidenceInfo := EvidenceInfo asset |} in
  let! assetJSON := Marshal asset in
  let! _ := PutState caseNumber assetJSON in
  ret oldcustodianName.

(** The loop of [GetAllAssets] over the entries the iterator has left. *)
Fixpoint GetAllAssets_from (resultsIterator : list KV) (assets : list Asset)
    : M (list Asset) :=
  match resultsIterator with
  | [] => ret assets
  | kv :: resultsIterator' =>
    let! queryResponse := Next kv in
    let! asset := Unmarshal (Value queryResponse) in
    GetAllAssets_from resultsIterator' (assets ++ [asset])
  end.

(** The deferred [resultsIterator.Close()] returns a value that is dropped
    and touches neither the world state nor the result; it has no
    counterpart here. *)
Definition GetAllAssets : M (list Asset) :=
  let! resultsIterator := GetStateByRange "" "" in
  GetAllAssets_from resultsIterator [].

End chaincode.

(** * Vocabulary of the proofs *)

Inductive first_spec (c : N) : N -> Prop :=
| first_as : c < 0x80 -> first_spec c utf8.as_
| first_xx : 0x80 <= c < 0xC2 \/ 0xF5 <= c -> first_spec c utf8.xx
| first_s1 : 0xC2 <= c < 0xE0 -> first_spec c utf8.s1
| first_s2 : c = 0xE0 -> first_spec c utf8.s2
| first_s3 : 0xE1 <= c < 0xED \/ 0xEE <= c < 0xF0 -> first_spec c utf8.s3
| first_s4 : c = 0xED -> first_spec c utf8.s4
| first_s5 : c = 0xF0 -> first_spec c utf8.s5
| first_s6 : 0xF1 <= c < 0xF4 -> first_spec c utf8.s6
| first_s7 : c = 0xF4 -> first_spec c utf8.s7.

Notation "'#' b" := (Byte.to_N b) (at level 9, b at level 9, format "'#' b").

(** What [DecodeRune] returns, by the shape of its input. *)
Inductive decoded : list byte -> N -> nat -> Prop :=
| dec_empty : decoded [] utf8.RuneError 0
| dec_1 p0 rest : #p0 < 0x80 -> decoded (p0 :: rest) (#p0) 1
| dec_bad p0 rest : 0x80 <= #p0 -> decoded (p0 :: rest) utf8.RuneError 1
| dec_2 p0 b1 rest r :
    0xC2 <= #p0 < 0xE0 -> 0x80 <= #b1 < 0xC0 ->
    r = (#p0 - 0xC0) * 64 + (#b1 - 0x80) ->
    decoded (p0 :: b1 :: rest) r 2
| dec_3 p0 b1 b2 rest r :
    0xE0 <= #p0 < 0xF0 -> 0x80 <= #b1 < 0xC0 ->
    (#p0 = 0xE0 -> 0xA0 <= #b1) -> (#p0 = 0xED -> #b1 < 0xA0) ->
    0x80 <= #b2 < 0xC0 ->
    r = (#p0 - 0xE0) * 4096 + (#b1 - 0x80) * 64 + (#b2 - 0x80) ->
    decoded (p0 :: b1 :: b2 :: rest) r 3
| dec_4 p0 b1 b2 b3 rest r :
    0xF0 <= #p0 < 0xF5 -> 0x80 <= #b1 < 0xC0 ->
    (#p0 = 0xF0 -> 0x90 <= #b1) -> (#p0 = 0xF4 -> #b1 < 0x90) ->
    0x80 <= #b2 < 0xC0 -> 0x80 <= #b3 < 0xC0 ->
    r = (#p0 - 0xF0) * 262144 + (#b1 - 0x80) * 4096 + (#b2 - 0x80) * 64 + (#b3 - 0x80) ->
    decoded (p0 :: b1 :: b2 :: b3 :: rest) r 4.

(** The decoder after the bytes [bs]. *)
Definition run (d : json.decodeState) (bs : list byte) : json.decodeState :=
  fold_left json.decode_step bs d.

(** The scanner after the bytes [bs]. *)
Definition scan_run (s : json.scanner) (bs : list byte) : json.scanner :=
  fold_left (fun s c => fst (json.scan_step s c)) bs s.

(** A byte that continues a string literal as it is. *)
Definition plain (c : byte) : bool :=
  negb (Byte.eqb c x22) && negb (Byte.eqb c x5c) && (0x20 <=? #c).

(** The scanner stays inside a string literal over all of [bs]. *)
Fixpoint stays (s : json.scanner) (bs : list byte) : bool :=
  match bs with
  | [] => true
  | c :: bs' =>
    let s' := fst (json.scan_step s c) in
    json.inString (json.step s') && stays s' bs'
  end.

(** Inside a string literal: the literal grows, nothing else changes. *)
Definition grows (d : json.decodeState) (bs : list byte) : Prop :=
  run d bs = json.withScan d (json.scan d) (json.lit d ++ bs).

(** What [appendString] writes between the quotes. *)
Definition quoted (v : string) : list byte :=
  json.appendString_from (length (bytes v)) (bytes v).

(** What precedes the value of a field: the separator, the quoted name, the
    colon and the quote that opens the value. *)
Definition opening (sep : byte) (name : string) : list byte :=
  sep :: json.nameEscHTML name ++ [x22].

(** The fields of an [Asset] with the values [v0] to [v3]. *)
Definition record (v0 v1 v2 v3 : string) : json.fields :=
  chaincode.structFields
    {| chaincode.CustodianName := v0; chaincode.CustodianAgency := v1;
       chaincode.CaseNumber := v2; chaincode.EvidenceInfo := v3 |}.

(** The decoder inside the value of field [i]. *)
Definition inValue (i : nat) (t : json.fields) (l : list byte) : json.decodeState :=
  {| json.scan := {| json.step := json.stateInString;
                     json.parseState := [json.parseObjectValue];
                     json.endTop := false; json.err := false |};
     json.lit := l; json.field := Some i; json.target := t; json.savedError := false |}.

(** Every value of the fields is valid UTF-8. *)
Definition valid_fields (fs : json.fields) : Prop :=
  Forall (fun nv => utf8.ValidString nv.2 = true) fs.

Import shim chaincode.
#[local] Open Scope go_scope.

(** The next [n] calls of the ledger succeed. *)
Definition answers (n : nat) (ctx : ChaincodeStub) : Prop :=
  Forall (fun b => b = false) (take n (faults ctx)).

(** The next call of the ledger fails. *)
Definition fails (ctx : ChaincodeStub) : Prop := head (faults ctx) = Some true.

(** An asset whose four strings are valid UTF-8. *)
Definition ValidAsset (a : Asset) : Prop :=
  utf8.ValidString (CustodianName a) = true /\
  utf8.ValidString (CustodianAgency a) = true /\
  utf8.ValidString (CaseNumber a) = true /\
  utf8.ValidString (EvidenceInfo a) = true.

(** The asset with every string coerced to valid UTF-8. *)
Definition coerced (a : Asset) : Asset :=
  {| CustodianName := json.toValidUTF8 (CustodianName a);
     CustodianAgency := json.toValidUTF8 (CustodianAgency a);
     CaseNumber := json.toValidUTF8 (CaseNumber a);
     EvidenceInfo := json.toValidUTF8 (EvidenceInfo a) |}.

(** No call of the ledger fails. *)
Definition quiet (ctx : ChaincodeStub) : Prop :=
  Forall (fun b => b = false) (faults ctx).

Definition Zaki : Asset :=
  {| CustodianName := "Zaki"; CustodianAgency := "RCED"; CaseNumber := "1";
     EvidenceInfo := "HP01/HP02" |}.

(** The entries read as assets, one after the other, up to the first that
    is not one. *)
Fixpoint decode_all (es : list KV) : json.error + list Asset :=
  match es with
  | [] => inr []
  | kv :: es' =>
    match decode (Value kv) with
    | inl err => inl err
    | inr a =>
      match decode_all es' with
      | inl err => inl err
      | inr l => inr (a :: l)
      end
    end
  end.

(** The world state after the [assets] are put in turn, each under its
    custodian name. *)
Definition puts (assets : list Asset) (m : gmap string (list byte)) : gmap string (list byte) :=
  foldl (fun m a => <[CustodianName a := encode a]> m) m assets.

(** Every key holds the encoding of an asset of that custodian name. *)
Definition keyed (m : gmap string (list byte)) : Prop :=
  forall key value, m !! key = Some value ->
    exists asset, value = encode asset /\ CustodianName asset = key.

(** From [m] to [m'], a key keeps what it had or gets the encoding of an
    asset of that custodian name. *)
Definition writes_own_keys (m m' : gmap string (list byte)) : Prop :=
  forall key, m' !! key = m !! key \/
    exists asset, m' !! key = Some (encode asset) /\ CustodianName asset = key.

(** The ledger after [InitLedger] on an empty world state, with no failure
    to come. *)
Definition seeded : ChaincodeStub :=
  {| state := puts assets ∅; faults := [] |}.

(** What an operation has done to the world state: nothing when it returned
    an error, and [m'] when it returned none. *)
Definition all_or_nothing {A} (r : (error + A) * ChaincodeStub)
    (m m' : gmap string (list byte)) : Prop :=
  match r.1 with
  | inl _ => state r.2 = m
  | inr _ => state r.2 = m'
  end.

(** The ledger with the world state of [ctx] and no failure to come. *)
Definition settled (ctx : ChaincodeStub) : ChaincodeStub :=
  {| state := state ctx; faults := [] |}.

(** A ledger that holds, under the name of Nur, a value that is JSON and
    not an asset. *)
Definition spoiled : ChaincodeStub :=
  {| state := <["Nur"%string := bytes "[]"]> (state seeded); faults := [] |}.

(** A byte from the space on that is none of [<], [>] and [&]. *)
Definition textual (c : byte) : bool :=
  (0x20 <=? #c) && negb ((#c =? 0x26) || (#c =? 0x3C) || (#c =? 0x3E)).

(** Such a byte below [utf8.RuneSelf]. *)
Definition textual_ascii (c : byte) : bool := textual c && (#c <? 0x80).

(** The name and the value of the field of index [i], in the order of the
    declaration. *)
Definition fieldName (i : nat) : string := default "" (fst <$> structFields zero !! i).

Definition fieldValue (asset : Asset) (i : nat) : string :=
  default "" (snd <$> structFields asset !! i).

(** A JSON object that has the fields [order] of [asset], in that order,
    each written as [json.Marshal] writes it. *)
Definition document (asset : Asset) (order : list nat) : list byte :=
  match order with
  | [] => bytes "{}"
  | i :: order' =>
    opening "{" (fieldName i) ++ quoted (fieldValue asset i) ++
    flat_map (fun j => x22 :: opening "," (fieldName j) ++ quoted (fieldValue asset j)) order'
    ++ [x22; "}"%byte]
  end.

(** What is read of the string [v] of field [i] from a document of the
    fields [order]. *)
Definition readOf (order : list nat) (i : nat) (v : string) : string :=
  if bool_decide (i ∈ order) then json.toValidUTF8 v else "".

(** The scanner after the brace that closes the outermost object. *)
Definition closed : json.scanner :=
  {| json.step := json.stateEndTop; json.parseState := [];
     json.endTop := true; json.err := false |}.

(** * UTF-8: decoding and encoding are inverse *)

Ltac nlia := zify; Z.to_euclidean_division_equations; lia.

Section Bits.

Lemma lor_shiftl_add (a k x : N) :
  x < 2 ^ k -> N.lor (N.shiftl a k) x = a * 2 ^ k + x.
Proof.
  intros Hx.
  set (z := N.lor (N.shiftl a k) x).
  assert (Hhi : N.shiftr z k = a).
  { unfold z. rewrite N.shiftr_lor, N.shiftr_shiftl_l by reflexivity.
    rewrite N.sub_diag, N.shiftl_0_r, N.shiftr_div_pow2, N.div_small by assumption.
    apply N.lor_0_r. }
  assert (Hlo : N.land z (N.ones k) = x).
  { unfold z. rewrite N.land_lor_distr_l, !N.land_ones, N.shiftl_mul_pow2.
    rewrite N.Div0.mod_mul, N.mod_small by assumption. reflexivity. }
  rewrite N.shiftr_div_pow2 in Hhi. rewrite N.land_ones in Hlo.
  rewrite (N.div_mod' z (2 ^ k)), Hhi, Hlo. lia.
Qed.

Lemma lor_add (y x k : N) :
  x < 2 ^ k -> y mod 2 ^ k = 0 -> N.lor y x = y + x.
Proof.
  intros Hx Hy.
  assert (y = N.shiftl (y / 2 ^ k) k) as ->.
  { rewrite N.shiftl_mul_pow2. rewrite (N.div_mod' y (2 ^ k)) at 1. lia. }
  rewrite lor_shiftl_add by assumption.
  now rewrite N.shiftl_mul_pow2.
Qed.

Lemma lor_add4 y x : x < 16 -> y mod 16 = 0 -> N.lor y x = y + x.
Proof. apply (lor_add y x 4). Qed.
Lemma lor_add6 y x : x < 64 -> y mod 64 = 0 -> N.lor y x = y + x.
Proof. apply (lor_add y x 6). Qed.
Lemma lor_add12 y x : x < 4096 -> y mod 4096 = 0 -> N.lor y x = y + x.
Proof. apply (lor_add y x 12). Qed.

Lemma land_maskx x : N.land x utf8.maskx = x mod 64.
Proof. exact (N.land_ones x 6). Qed.
Lemma land_mask2 x : N.land x utf8.mask2 = x mod 32.
Proof. exact (N.land_ones x 5). Qed.
Lemma land_mask3 x : N.land x utf8.mask3 = x mod 16.
Proof. exact (N.land_ones x 4). Qed.
Lemma land_mask4 x : N.land x utf8.mask4 = x mod 8.
Proof. exact (N.land_ones x 3). Qed.
Lemma shiftl_6 x : N.shiftl x 6 = x * 64.
Proof. exact (N.shiftl_mul_pow2 x 6). Qed.
Lemma shiftl_12 x : N.shiftl x 12 = x * 4096.
Proof. exact (N.shiftl_mul_pow2 x 12). Qed.
Lemma shiftl_18 x : N.shiftl x 18 = x * 262144.
Proof. exact (N.shiftl_mul_pow2 x 18). Qed.
Lemma shiftr_6 x : N.shiftr x 6 = x / 64.
Proof. exact (N.shiftr_div_pow2 x 6). Qed.
Lemma shiftr_12 x : N.shiftr x 12 = x / 4096.
Proof. exact (N.shiftr_div_pow2 x 12). Qed.
Lemma shiftr_18 x : N.shiftr x 18 = x / 262144.
Proof. exact (N.shiftr_div_pow2 x 18). Qed.

Lemma u8_to_N b : utf8.u8 (Byte.to_N b) = b.
Proof.
  unfold utf8.u8. pose proof (Byte.to_N_bounded b).
  rewrite N.mod_small by lia. now rewrite Byte.of_to_N.
Qed.

Lemma to_N_u8 n : Byte.to_N (utf8.u8 n) = n mod 256.
Proof.
  unfold utf8.u8. destruct (Byte.of_N (n mod 256)) eqn:E.
  - now apply Byte.to_of_N.
  - apply Byte.of_N_None_iff in E. nlia.
Qed.

End Bits.

Ltac bits2arith :=
  rewrite ?land_maskx, ?land_mask2, ?land_mask3, ?land_mask4,
          ?shiftl_6, ?shiftl_12, ?shiftl_18, ?shiftr_6, ?shiftr_12, ?shiftr_18;
  repeat match goal with
  | |- context [N.lor ?y ?x] =>
    first [ rewrite (lor_add y x 4) by nlia
          | rewrite (lor_add y x 6) by nlia
          | rewrite (lor_add y x 12) by nlia
          | rewrite (lor_add y x 18) by nlia ]
  end.

Lemma first_specP b : first_spec (Byte.to_N b) (utf8.first b).
Proof.
  unfold utf8.first. set (c := Byte.to_N b).
  repeat match goal with
  | |- context [?x <? ?y] => destruct (N.ltb_spec x y)
  | |- context [?x =? ?y] => destruct (N.eqb_spec x y)
  end; constructor; lia.
Qed.

Ltac split_tests :=
  repeat match goal with
  | |- context [(?x <? ?y)%N] => destruct (N.ltb_spec x y)
  | |- context [(?x <=? ?y)%N] => destruct (N.leb_spec x y)
  | |- context [(?x =? ?y)%N] => destruct (N.eqb_spec x y)
  end.

Ltac eval_closed t :=
  let v := eval vm_compute in t in progress change t with v.

Ltac decode_lead p0 :=
  unfold utf8.DecodeRune;
  destruct (first_specP p0); try lia;
  repeat match goal with
  | |- context [(utf8.as_ <=? ?x)%N] => eval_closed (utf8.as_ <=? x)%N
  | |- context [N.odd ?x] => eval_closed (N.odd x)
  | |- context [N.to_nat (N.land ?x 7)] => eval_closed (N.to_nat (N.land x 7))
  | |- context [utf8.acceptRanges ?i] => eval_closed (utf8.acceptRanges i)
  end;
  unfold utf8.at_, utf8.locb, utf8.hicb;
  cbn [nth length Nat.ltb Nat.leb fst snd].

Lemma DecodeRune_1 p0 rest :
  #p0 < 0x80 -> utf8.DecodeRune (p0 :: rest) = (#p0, 1%nat).
Proof. intros. decode_lead p0. reflexivity. Qed.

Lemma DecodeRune_2 p0 b1 rest :
  0xC2 <= #p0 < 0xE0 -> 0x80 <= #b1 < 0xC0 ->
  utf8.DecodeRune (p0 :: b1 :: rest) = ((#p0 - 0xC0) * 64 + (#b1 - 0x80), 2%nat).
Proof.
  intros. decode_lead p0.
  split_tests; try lia; cbn [orb]. f_equal. bits2arith. nlia.
Qed.

Lemma DecodeRune_3 p0 b1 b2 rest :
  0xE0 <= #p0 < 0xF0 -> 0x80 <= #b1 < 0xC0 ->
  (#p0 = 0xE0 -> 0xA0 <= #b1) -> (#p0 = 0xED -> #b1 < 0xA0) ->
  0x80 <= #b2 < 0xC0 ->
  utf8.DecodeRune (p0 :: b1 :: b2 :: rest) =
    ((#p0 - 0xE0) * 4096 + (#b1 - 0x80) * 64 + (#b2 - 0x80), 3%nat).
Proof.
  intros. decode_lead p0;
  split_tests; try lia; cbn [orb]; f_equal; bits2arith; nlia.
Qed.

Lemma DecodeRune_4 p0 b1 b2 b3 rest :
  0xF0 <= #p0 < 0xF5 -> 0x80 <= #b1 < 0xC0 ->
  (#p0 = 0xF0 -> 0x90 <= #b1) -> (#p0 = 0xF4 -> #b1 < 0x90) ->
  0x80 <= #b2 < 0xC0 -> 0x80 <= #b3 < 0xC0 ->
  utf8.DecodeRune (p0 :: b1 :: b2 :: b3 :: rest) =
    ((#p0 - 0xF0) * 262144 + (#b1 - 0x80) * 4096 + (#b2 - 0x80) * 64 + (#b3 - 0x80), 4%nat).
Proof.
  intros. decode_lead p0;
  split_tests; try lia; cbn [orb]; f_equal; bits2arith; nlia.
Qed.

Lemma DecodeRuneP p : decoded p (utf8.DecodeRune p).1 (utf8.DecodeRune p).2.
Proof.
  destruct p as [|p0 rest]; [constructor|].
  destruct rest as [|b1 [|b2 [|b3 rest]]].
  all: decode_lead p0; split_tests; cbn [orb fst snd]; try lia.
  all: first [ apply dec_1; lia | apply dec_bad; lia
             | eapply dec_2; [lia | lia | bits2arith; nlia]
             | eapply dec_3; [lia | lia | lia | lia | lia | bits2arith; nlia]
             | eapply dec_4; [lia | lia | lia | lia | lia | lia | bits2arith; nlia] ].
Qed.

Lemma decoded_inv p r n : utf8.DecodeRune p = (r, n) -> decoded p r n.
Proof. intros E. pose proof (DecodeRuneP p) as H. now rewrite E in H. Qed.

Ltac decide_tests :=
  repeat (match goal with
  | |- context [(?x <=? ?y)%N] =>
    first [ rewrite (proj2 (N.leb_le x y)) by lia | rewrite (proj2 (N.leb_gt x y)) by lia ]
  | |- context [(?x <? ?y)%N] =>
    first [ rewrite (proj2 (N.ltb_lt x y)) by lia | rewrite (proj2 (N.ltb_ge x y)) by lia ]
  end; cbn [orb andb]; cbv iota).

Ltac encode_lead :=
  unfold utf8.EncodeRune; change utf8.rune1Max with 127;
  change utf8.rune2Max with 2047; change utf8.rune3Max with 65535;
  unfold utf8.MaxRune, utf8.surrogateMin, utf8.surrogateMax, utf8.encode3,
    utf8.t2, utf8.t3, utf8.t4, utf8.tx;
  decide_tests.

Lemma EncodeRune_1 r : r < 0x80 -> utf8.EncodeRune r = [utf8.u8 r].
Proof. intros. now encode_lead. Qed.

Lemma EncodeRune_2 r : 0x80 <= r < 0x800 ->
  utf8.EncodeRune r = [utf8.u8 (0xC0 + r / 64); utf8.u8 (0x80 + r mod 64)].
Proof. intros. encode_lead. bits2arith. reflexivity. Qed.

Lemma EncodeRune_3 r : 0x800 <= r < 0x10000 -> ~ (0xD800 <= r < 0xE000) ->
  utf8.EncodeRune r =
    [utf8.u8 (0xE0 + r / 4096); utf8.u8 (0x80 + (r / 64) mod 64); utf8.u8 (0x80 + r mod 64)].
Proof.
  intros. assert (r < 0xD800 \/ 0xE000 <= r) as [|] by lia;
  encode_lead; bits2arith; reflexivity.
Qed.

Lemma EncodeRune_bad r : 0xD800 <= r < 0xE000 \/ 0x10FFFF < r ->
  utf8.EncodeRune r = [xef; xbf; xbd].
Proof. intros [|]; encode_lead; reflexivity. Qed.

Lemma EncodeRune_4 r : 0x10000 <= r <= 0x10FFFF ->
  utf8.EncodeRune r =
    [utf8.u8 (0xF0 + r / 262144); utf8.u8 (0x80 + (r / 4096) mod 64);
     utf8.u8 (0x80 + (r / 64) mod 64); utf8.u8 (0x80 + r mod 64)].
Proof. intros. encode_lead. bits2arith. reflexivity. Qed.

Lemma u8_eq n b : n = #b -> utf8.u8 n = b.
Proof. intros ->. apply u8_to_N. Qed.

(** Encoding what was decoded from a well-formed sequence gives the sequence back. *)
Lemma EncodeRune_decoded p r n :
  decoded p r n -> utf8.ill_formed (r, n) = false -> n <> 0%nat ->
  utf8.EncodeRune r = firstn n p.
Proof.
  intros H Hw Hn. destruct H; cbn [firstn].
  - congruence.
  - rewrite EncodeRune_1 by lia. now rewrite u8_to_N.
  - discriminate.
  - rewrite EncodeRune_2 by lia. repeat f_equal; apply u8_eq; nlia.
  - rewrite EncodeRune_3 by lia. repeat f_equal; apply u8_eq; nlia.
  - rewrite EncodeRune_4 by lia. repeat f_equal; apply u8_eq; nlia.
Qed.

Lemma to_N_u8_small n : n < 256 -> #(utf8.u8 n) = n.
Proof. intros. rewrite to_N_u8. now apply N.mod_small. Qed.

Lemma ill_formed_size r n : n <> 1%nat -> utf8.ill_formed (r, n) = false.
Proof.
  intros. unfold utf8.ill_formed. cbn [snd].
  destruct (Nat.eqb_spec n 1); [congruence|apply andb_false_r].
Qed.

(** [EncodeRune] writes a well-formed sequence: decoding it reads all of it. *)
Lemma DecodeRune_EncodeRune r rest :
  exists r', utf8.DecodeRune (utf8.EncodeRune r ++ rest) = (r', length (utf8.EncodeRune r))
             /\ utf8.ill_formed (r', length (utf8.EncodeRune r)) = false.
Proof.
  assert (r < 0x80 \/ 0x80 <= r < 0x800 \/
          (0x800 <= r < 0x10000 /\ ~ (0xD800 <= r < 0xE000)) \/
          (0xD800 <= r < 0xE000 \/ 0x10FFFF < r) \/ 0x10000 <= r <= 0x10FFFF)
    as [H|[H|[[H H']|[H|H]]]] by lia.
  - rewrite EncodeRune_1 by lia. cbn [app length].
    rewrite DecodeRune_1 by (rewrite to_N_u8_small; lia).
    eexists; split; [reflexivity|]. unfold utf8.ill_formed. cbn [fst snd].
    rewrite to_N_u8_small by lia. unfold utf8.RuneError.
    destruct (N.eqb_spec r 65533); [lia|reflexivity].
  - rewrite EncodeRune_2 by lia. cbn [app length].
    rewrite DecodeRune_2 by (rewrite ?to_N_u8_small; nlia).
    eexists; split; [reflexivity|]. now apply ill_formed_size.
  - rewrite EncodeRune_3 by lia. cbn [app length].
    rewrite DecodeRune_3 by (rewrite ?to_N_u8_small; nlia).
    eexists; split; [reflexivity|]. now apply ill_formed_size.
  - rewrite EncodeRune_bad by lia. eexists; split; reflexivity.
  - rewrite EncodeRune_4 by lia. cbn [app length].
    rewrite DecodeRune_4 by (rewrite ?to_N_u8_small; nlia).
    eexists; split; [reflexivity|]. now apply ill_formed_size.
Qed.

(** A well-formed sequence is decoded from its own bytes alone. *)
Lemma DecodeRune_prefix p r n rest :
  utf8.DecodeRune p = (r, n) -> utf8.ill_formed (r, n) = false -> p <> [] ->
  utf8.DecodeRune (firstn n p ++ rest) = (r, n).
Proof.
  intros E Hw Hp. apply decoded_inv in E. destruct E; cbn [firstn app]; subst.
  - congruence.
  - now apply DecodeRune_1.
  - discriminate.
  - now apply DecodeRune_2.
  - now apply DecodeRune_3.
  - now apply DecodeRune_4.
Qed.

Lemma DecodeRune_firstn p : utf8.DecodeRune (firstn utf8.UTFMax p) = utf8.DecodeRune p.
Proof.
  destruct p as [|p0 [|b1 [|b2 [|b3 rest]]]]; try reflexivity.
  unfold utf8.UTFMax. cbn [firstn].
  decode_lead p0; reflexivity.
Qed.

Lemma decoded_size p r n : decoded p r n -> p <> [] -> (1 <= n <= length p)%nat.
Proof. intros H Hp. destruct H; cbn [length]; try lia. congruence. Qed.

Lemma DecodeRune_size p : p <> [] ->
  (1 <= (utf8.DecodeRune p).2 <= length p)%nat.
Proof. intros. eapply decoded_size; [apply DecodeRuneP|assumption]. Qed.

(** The bytes of a well-formed sequence of more than one byte are not ASCII. *)
Lemma decoded_high p r n :
  decoded p r n -> utf8.ill_formed (r, n) = false -> p <> [] -> 0x80 <= utf8.at_ p 0 ->
  Forall (fun b => 0x80 <= #b) (firstn n p).
Proof.
  intros H Hw Hp H0. destruct H; cbn [firstn]; unfold utf8.at_ in H0; cbn [nth] in H0;
    try congruence; try discriminate; repeat constructor; lia.
Qed.


(** * Valid strings and the coercion *)

Section Valid.

Lemma valid_from_fuel n p : (length p <= n)%nat -> utf8.valid_from n p = utf8.Valid p.
Proof.
  unfold utf8.Valid. revert p. induction n as [n IH] using lt_wf_ind. intros p Hn.
  destruct p as [|b p']; [now destruct n|].
  destruct n as [|n]; [cbn in Hn; lia|].
  cbn [utf8.valid_from length].
  destruct (utf8.ill_formed _); [reflexivity|].
  pose proof (DecodeRune_size (b :: p') ltac:(discriminate)) as Hs.
  set (k := (utf8.DecodeRune (b :: p')).2) in *.
  assert (length (skipn k (b :: p')) <= length p')%nat.
  { rewrite length_skipn. cbn [length] in *. lia. }
  cbn [length] in Hn.
  rewrite (IH n (Nat.lt_succ_diag_r n) (drop k (b :: p'))) by lia.
  rewrite (IH (length p') ltac:(lia) (drop k (b :: p'))) by lia. reflexivity.
Qed.

Lemma Valid_step p : p <> [] ->
  utf8.Valid p =
    if utf8.ill_formed (utf8.DecodeRune p) then false
    else utf8.Valid (skipn (utf8.DecodeRune p).2 p).
Proof.
  intros Hp. destruct p as [|b p']; [congruence|].
  unfold utf8.Valid at 1. cbn [length utf8.valid_from].
  destruct (utf8.ill_formed _); [reflexivity|].
  apply valid_from_fuel.
  pose proof (DecodeRune_size (b :: p') Hp). rewrite length_skipn. cbn [length] in *. lia.
Qed.

Lemma Valid_nil : utf8.Valid [] = true.
Proof. reflexivity. Qed.

Lemma Valid_ascii b t : #b < 0x80 -> utf8.Valid (b :: t) = utf8.Valid t.
Proof.
  intros. rewrite Valid_step by discriminate. rewrite DecodeRune_1 by assumption.
  unfold utf8.ill_formed, utf8.RuneError. cbn [fst snd skipn].
  destruct (N.eqb_spec #b 65533); [lia|reflexivity].
Qed.

Lemma EncodeRune_nonempty r : utf8.EncodeRune r <> [].
Proof.
  unfold utf8.EncodeRune, utf8.encode3.
  repeat match goal with |- context [if ?c then _ else _] => destruct c end; discriminate.
Qed.

Lemma Valid_EncodeRune r t : utf8.Valid (utf8.EncodeRune r ++ t) = utf8.Valid t.
Proof.
  destruct (DecodeRune_EncodeRune r t) as (r' & E & Hw).
  rewrite Valid_step.
  - rewrite E, Hw. cbn [snd]. now rewrite drop_app_length.
  - pose proof (EncodeRune_nonempty r). destruct (utf8.EncodeRune r); [congruence|discriminate].
Qed.

Lemma coerce_from_fuel n p :
  (length p <= n)%nat -> json.coerce_from n p = json.coerce_from (length p) p.
Proof.
  revert p. induction n as [n IH] using lt_wf_ind. intros p Hn.
  destruct p as [|b p']; [now destruct n|].
  destruct n as [|n]; [cbn in Hn; lia|].
  cbn [json.coerce_from length].
  pose proof (DecodeRune_size (b :: p') ltac:(discriminate)) as Hs.
  set (k := (utf8.DecodeRune (b :: p')).2) in *.
  assert (length (skipn k (b :: p')) <= length p')%nat.
  { rewrite length_skipn. cbn [length] in *. lia. }
  cbn [length] in Hn.
  rewrite (IH n (Nat.lt_succ_diag_r n) (drop k (b :: p'))) by lia.
  rewrite (IH (length p') ltac:(lia) (drop k (b :: p'))) by lia. reflexivity.
Qed.

(** A valid string is read back as it is. *)
Lemma coerce_from_Valid n p :
  (length p <= n)%nat -> utf8.Valid p = true -> json.coerce_from n p = p.
Proof.
  revert p. induction n as [n IH] using lt_wf_ind. intros p Hn Hv.
  destruct p as [|b p']; [now destruct n|].
  destruct n as [|n]; [cbn in Hn; lia|].
  rewrite Valid_step in Hv by discriminate.
  cbn [json.coerce_from].
  pose proof (DecodeRune_size (b :: p') ltac:(discriminate)) as Hs.
  destruct (utf8.ill_formed _); [discriminate|].
  set (k := (utf8.DecodeRune (b :: p')).2) in *.
  rewrite IH; [apply take_drop|lia| |assumption].
  rewrite length_skipn. cbn [length] in *. lia.
Qed.

(** What is read back is valid. *)
Lemma Valid_coerce_from n p : (length p <= n)%nat -> utf8.Valid (json.coerce_from n p) = true.
Proof.
  revert p. induction n as [n IH] using lt_wf_ind. intros p Hn.
  destruct p as [|b p']; [now destruct n|].
  destruct n as [|n]; [cbn in Hn; lia|].
  cbn [json.coerce_from].
  pose proof (DecodeRune_size (b :: p') ltac:(discriminate)) as Hs.
  destruct (utf8.DecodeRune (b :: p')) as [r k] eqn:E. cbn [snd] in *.
  assert (Hrec : utf8.Valid (json.coerce_from n (skipn k (b :: p'))) = true).
  { apply IH; [lia|]. rewrite length_skipn. cbn [length] in *. lia. }
  destruct (utf8.ill_formed (r, k)) eqn:Hw.
  - now rewrite Valid_EncodeRune.
  - rewrite <- (EncodeRune_decoded _ _ _ (decoded_inv _ _ _ E) Hw) by lia.
    now rewrite Valid_EncodeRune.
Qed.

End Valid.


(** * Unquoting what was quoted *)

Section Unquote.

Lemma unquote_safe b m X :
  #b < 0x80 -> json.htmlSafeSet b = true ->
  json.unquote_from (S m) (b :: X) = cons b <$> json.unquote_from m X.
Proof. intros _ H. destruct b; try discriminate H; reflexivity. Qed.

Lemma unquote_escapeByte b m X :
  #b < 0x80 -> json.htmlSafeSet b = false ->
  json.unquote_from (S m) (json.escapeByte b ++ X) = cons b <$> json.unquote_from m X.
Proof.
  intros Hb H. cbn [json.unquote_from]. generalize (json.unquote_from m). intros rec.
  destruct b; try discriminate H; try (exfalso; vm_compute in Hb; discriminate Hb).
  all: vm_compute; reflexivity.
Qed.

Lemma unquote_fffd m X :
  json.unquote_from (S m) ((x5c :: bytes "ufffd") ++ X) =
    app (utf8.EncodeRune utf8.RuneError) <$> json.unquote_from m X.
Proof.
  cbn [json.unquote_from]. generalize (json.unquote_from m). intros rec.
  vm_compute; reflexivity.
Qed.

Lemma unquote_202x r m X :
  r = 0x2028 \/ r = 0x2029 ->
  json.unquote_from (S m) ((x5c :: bytes "u202") ++ [json.hex (N.land r 0xF)] ++ X) =
    app (utf8.EncodeRune r) <$> json.unquote_from m X.
Proof.
  cbn [json.unquote_from]. generalize (json.unquote_from m). intros rec.
  intros [-> | ->]; vm_compute; reflexivity.
Qed.

Lemma unquote_high b rest m X r k :
  0x80 <= #b -> utf8.DecodeRune (b :: rest) = (r, k) ->
  utf8.ill_formed (r, k) = false ->
  json.unquote_from (S m) (firstn k (b :: rest) ++ X) =
    app (firstn k (b :: rest)) <$> json.unquote_from m X.
Proof.
  intros Hb E Hw.
  pose proof (DecodeRune_size (b :: rest) ltac:(discriminate)) as Hk. rewrite E in Hk.
  cbn [snd] in Hk.
  pose proof (DecodeRune_prefix _ _ _ X E Hw ltac:(discriminate)) as E'.
  pose proof (EncodeRune_decoded _ _ _ (decoded_inv _ _ _ E) Hw ltac:(lia)) as Henc.
  destruct k as [|k]; [lia|]. cbn [firstn app] in *.
  cbn [json.unquote_from json.unquote_body].
  assert (Byte.eqb b x5c = false) as -> by (destruct b; try reflexivity; vm_compute in Hb; contradiction).
  assert (Byte.eqb b x22 = false) as -> by (destruct b; try reflexivity; vm_compute in Hb; contradiction).
  assert ((#b <? 32) = false) as -> by (apply N.ltb_ge; lia).
  assert ((#b <? utf8.RuneSelf) = false) as -> by (apply N.ltb_ge; unfold utf8.RuneSelf; lia).
  cbn [orb]. rewrite E'. cbn [fst snd]. rewrite Henc.
  change (drop (S k) (b :: take k rest ++ X)) with (drop k (take k rest ++ X)).
  rewrite drop_app_length'; [reflexivity|].
  rewrite length_take. cbn [length] in Hk. lia.
Qed.

Lemma appendString_from_nil n : json.appendString_from n [] = [].
Proof. now destruct n. Qed.

Lemma unquote_from_nil m : json.unquote_from m [] = Some [].
Proof. now destruct m. Qed.

(** Unquoting what [appendString] wrote gives the string, coerced. *)
Lemma unquote_appendString n : forall src m,
  (length src <= n)%nat -> (length (json.appendString_from n src) <= m)%nat ->
  json.unquote_from m (json.appendString_from n src) = Some (json.coerce_from n src).
Proof.
  induction n as [|n IH]; intros src m Hn Hm.
  { destruct src; [|cbn in Hn; lia]. now rewrite unquote_from_nil. }
  destruct src as [|b rest].
  { now rewrite unquote_from_nil. }
  cbn [json.appendString_from json.coerce_from] in *.
  rewrite DecodeRune_firstn in *.
  pose proof (DecodeRune_size (b :: rest) ltac:(discriminate)) as Hk.
  destruct (N.ltb_spec #b utf8.RuneSelf) as [Hb|Hb]; unfold utf8.RuneSelf in Hb.
  - (* a byte below RuneSelf *)
    rewrite DecodeRune_1 in * by assumption. cbn [fst snd firstn skipn app] in *.
    assert (utf8.ill_formed (#b, 1%nat) = false) as ->.
    { unfold utf8.ill_formed, utf8.RuneError. cbn [fst].
      destruct (N.eqb_spec #b 65533); [lia|reflexivity]. }
    destruct (json.htmlSafeSet b) eqn:Hs.
    + cbn [app length] in *. destruct m as [|m]; [lia|].
      rewrite unquote_safe by assumption.
      rewrite IH by (cbn [length] in Hn; lia). reflexivity.
    + assert (1 <= length (json.escapeByte b))%nat.
      { destruct b; cbn; lia. }
      rewrite length_app in Hm. destruct m as [|m]; [lia|].
      rewrite unquote_escapeByte by assumption.
      rewrite IH by (cbn [length] in Hn; lia). reflexivity.
  - destruct (utf8.DecodeRune (b :: rest)) as [r k] eqn:E. cbn [fst snd] in *.
    assert (Hlen : (length (skipn k (b :: rest)) <= n)%nat).
    { rewrite length_skipn. cbn [length] in *. lia. }
    destruct (utf8.ill_formed (r, k)) eqn:Hw.
    + rewrite length_app in Hm. cbn [length list_byte_of_string] in Hm.
      destruct m as [|m]; [cbn in Hm; lia|].
      rewrite unquote_fffd. rewrite IH; [reflexivity|assumption|cbn in Hm; lia].
    + destruct ((r =? 8232) || (r =? 8233)) eqn:Hr.
      * rewrite !length_app in Hm.
        destruct m as [|m]; [cbn in Hm; lia|].
        rewrite unquote_202x by (apply orb_true_iff in Hr; destruct Hr as [Hr|Hr];
                                 apply N.eqb_eq in Hr; auto).
        rewrite IH; [|assumption|cbn in Hm; lia].
        rewrite (EncodeRune_decoded _ _ _ (decoded_inv _ _ _ E) Hw) by lia. reflexivity.
      * rewrite length_app, length_take in Hm. destruct m as [|m]; [cbn [length] in *; lia|].
        rewrite (unquote_high b rest m _ r k) by assumption.
        rewrite IH; [reflexivity|assumption|cbn [length] in *; lia].
Qed.

End Unquote.


(** * The decoder inside a string literal *)

Section Decoder.

Lemma run_app d bs1 bs2 : run d (bs1 ++ bs2) = run (run d bs1) bs2.
Proof. apply fold_left_app. Qed.

Lemma run_cons d c bs : run d (c :: bs) = run (json.decode_step d c) bs.
Proof. reflexivity. Qed.

Lemma scan_decode_step d c :
  json.scan (json.decode_step d c) = fst (json.scan_step (json.scan d) c).
Proof.
  unfold json.decode_step.
  destruct (json.inString (json.step (json.scan d))).
  - now destruct (json.inString _).
  - destruct (json.step (json.scan d)); try reflexivity; now destruct (json.isSpace c).
Qed.

Lemma scan_of_run d bs : json.scan (run d bs) = scan_run (json.scan d) bs.
Proof.
  revert d. induction bs as [|c bs IH]; intros d; [reflexivity|].
  cbn [run scan_run fold_left] in *. unfold run, scan_run in IH.
  now rewrite IH, scan_decode_step.
Qed.

Lemma grows_app d bs1 bs2 :
  grows d bs1 -> grows (json.withScan d (json.scan d) (json.lit d ++ bs1)) bs2 ->
  grows d (bs1 ++ bs2).
Proof.
  unfold grows. intros H1 H2. rewrite run_app, H1, H2.
  unfold json.withScan. cbn. now rewrite app_assoc.
Qed.

Lemma grows_plain d c :
  json.step (json.scan d) = json.stateInString -> plain c = true -> grows d [c].
Proof.
  intros Hs Hc. unfold grows, run. cbn [fold_left]. unfold json.decode_step, json.scan_step.
  rewrite Hs. unfold plain in Hc.
  destruct (Byte.eqb c x22); [discriminate|]. destruct (Byte.eqb c x5c); [discriminate|].
  cbn [negb andb] in Hc. apply N.leb_le in Hc.
  destruct (N.ltb_spec #c 32); [lia|]. cbn. now rewrite Hs.
Qed.

Lemma run_stays bs : forall d,
  json.inString (json.step (json.scan d)) = true -> stays (json.scan d) bs = true ->
  run d bs = json.withScan d (scan_run (json.scan d) bs) (json.lit d ++ bs).
Proof.
  induction bs as [|c bs IH]; intros d Hin Hst.
  - cbn. rewrite app_nil_r. now destruct d.
  - cbn [stays] in Hst. apply andb_true_iff in Hst as [H1 H2].
    rewrite run_cons. cbn [scan_run fold_left]. fold (scan_run (json.scan_step (json.scan d) c).1 bs).
    assert (E : json.decode_step d c =
                json.withScan d (json.scan_step (json.scan d) c).1 (json.lit d ++ [c])).
    { unfold json.decode_step. now rewrite Hin, H1. }
    rewrite E, IH by (cbn; assumption).
    unfold json.withScan. cbn. now rewrite <- app_assoc.
Qed.

Lemma grows_stays d bs :
  json.step (json.scan d) = json.stateInString ->
  stays (json.scan d) bs = true -> scan_run (json.scan d) bs = json.scan d ->
  grows d bs.
Proof.
  intros Hs H1 H2. unfold grows. rewrite run_stays, H2; [reflexivity| |assumption].
  now rewrite Hs.
Qed.

Lemma grows_escapeByte d b :
  json.step (json.scan d) = json.stateInString ->
  #b < 0x80 -> json.htmlSafeSet b = false -> grows d (json.escapeByte b).
Proof.
  intros Hs Hb H. apply grows_stays; [assumption| |];
  destruct (json.scan d) as [st ps et er]; cbn in Hs; subst st;
  destruct b; try discriminate H; try (exfalso; vm_compute in Hb; discriminate Hb);
  vm_compute; reflexivity.
Qed.

Lemma grows_fffd d :
  json.step (json.scan d) = json.stateInString -> grows d (x5c :: bytes "ufffd").
Proof.
  intros Hs. apply grows_stays; [assumption| |];
  destruct (json.scan d) as [st ps et er]; cbn in Hs; subst st; vm_compute; reflexivity.
Qed.

Lemma grows_202x d r :
  json.step (json.scan d) = json.stateInString -> r = 0x2028 \/ r = 0x2029 ->
  grows d ((x5c :: bytes "u202") ++ [json.hex (N.land r 0xF)]).
Proof.
  intros Hs Hr. apply grows_stays; [assumption| |];
  destruct (json.scan d) as [st ps et er]; cbn in Hs; subst st;
  destruct Hr as [-> | ->]; vm_compute; reflexivity.
Qed.

Lemma grows_all_plain bs : forall d,
  json.step (json.scan d) = json.stateInString -> Forall (fun c => plain c = true) bs ->
  grows d bs.
Proof.
  induction bs as [|c bs IH]; intros d Hs Hp.
  - unfold grows. cbn. rewrite app_nil_r. now destruct d.
  - inversion Hp; subst. apply (grows_app d [c] bs).
    + now apply grows_plain.
    + apply IH; [assumption|assumption].
Qed.

Lemma plain_high c : 0x80 <= #c -> plain c = true.
Proof. intros H. destruct c; try reflexivity; vm_compute in H; contradiction. Qed.

Lemma plain_safe c : json.htmlSafeSet c = true -> plain c = true.
Proof. intros H. destruct c; try reflexivity; discriminate H. Qed.

(** The decoder reads what [appendString] wrote between the quotes as one
    literal. *)
Lemma grows_appendString n : forall src d,
  (length src <= n)%nat -> json.step (json.scan d) = json.stateInString ->
  grows d (json.appendString_from n src).
Proof.
  induction n as [|n IH]; intros src d Hn Hs.
  { destruct src; [|cbn in Hn; lia]. apply grows_all_plain; [assumption|constructor]. }
  destruct src as [|b rest].
  { apply grows_all_plain; [assumption|constructor]. }
  cbn [json.appendString_from]. rewrite DecodeRune_firstn.
  pose proof (DecodeRune_size (b :: rest) ltac:(discriminate)) as Hk.
  destruct (N.ltb_spec #b utf8.RuneSelf) as [Hb|Hb]; unfold utf8.RuneSelf in Hb.
  - apply grows_app.
    + destruct (json.htmlSafeSet b) eqn:E.
      * apply grows_plain; [assumption|now apply plain_safe].
      * now apply grows_escapeByte.
    + apply IH; [cbn [length] in Hn; lia|assumption].
  - destruct (utf8.DecodeRune (b :: rest)) as [r k] eqn:E. cbn [fst snd] in *.
    assert (Hlen : (length (skipn k (b :: rest)) <= n)%nat).
    { rewrite length_skipn. cbn [length] in *. lia. }
    destruct (utf8.ill_formed (r, k)) eqn:Hw; [|destruct ((r =? 8232) || (r =? 8233)) eqn:Hr].
    + apply grows_app; [now apply grows_fffd|now apply IH].
    + rewrite app_assoc. apply grows_app; [|now apply IH].
      apply grows_202x; [assumption|].
      apply orb_true_iff in Hr. destruct Hr as [Hr|Hr]; apply N.eqb_eq in Hr; auto.
    + apply grows_app; [|now apply IH].
      apply grows_all_plain; [assumption|].
      eapply Forall_impl; [|intros c; apply plain_high].
      eapply decoded_high; [apply decoded_inv; eassumption|assumption|discriminate|].
      unfold utf8.at_. cbn [nth]. assumption.
Qed.

End Decoder.


(** * The decoder over an encoded asset *)

Section Document.

Lemma encodeStruct_record v0 v1 v2 v3 :
  json.encodeStruct (record v0 v1 v2 v3) =
    opening "{" "custodianName" ++ quoted v0 ++
    x22 :: opening "," "custodianAgency" ++ quoted v1 ++
    x22 :: opening "," "caseNumber" ++ quoted v2 ++
    x22 :: opening "," "evidenceInfo" ++ quoted v3 ++ [x22; "}"%byte].
Proof.
  unfold json.encodeStruct, record, chaincode.structFields. cbn [json.encodeFields chaincode.CustodianName chaincode.CustodianAgency chaincode.CaseNumber chaincode.EvidenceInfo].
  unfold json.appendString, opening. fold (quoted v0) (quoted v1) (quoted v2) (quoted v3).
  generalize (quoted v0) (quoted v1) (quoted v2) (quoted v3). intros q0 q1 q2 q3.
  cbn [app list_byte_of_string map String.list_ascii_of_string].
  repeat (rewrite <- ?app_assoc; cbn [app]). reflexivity.
Qed.

Lemma unquoteBytes_quoted B :
  json.unquoteBytes (x22 :: B ++ [x22]) = json.unquote_from (length B) B.
Proof.
  unfold json.unquoteBytes. rewrite last_snoc. now rewrite removelast_last.
Qed.

(** The quote that closes the value of field [i] stores the value. *)
Lemma decode_step_close i t B s :
  json.unquote_from (length B) B = Some s ->
  json.decode_step (inValue i t (x22 :: B)) x22 =
    {| json.scan := {| json.step := json.stateEndValue;
                       json.parseState := [json.parseObjectValue];
                       json.endTop := false; json.err := false |};
       json.lit := []; json.field := Some i;
       json.target := json.setField t i (string_of_list_byte s);
       json.savedError := false |}.
Proof.
  intros E. unfold json.decode_step, inValue.
  cbn [json.scan json.step json.inString json.lit].
  change (json.scan_step _ x22) with
    ({| json.step := json.stateEndValue; json.parseState := [json.parseObjectValue];
        json.endTop := false; json.err := false |}, json.scanContinue).
  cbn [fst json.step json.inString]. unfold json.endLiteral.
  cbn [json.scan json.parseState json.field json.target json.savedError].
  change ((x22 :: B) ++ [x22]) with (x22 :: B ++ [x22]).
  rewrite unquoteBytes_quoted, E. reflexivity.
Qed.

Lemma run_opening0 t :
  run (json.decodeInit (record (t 0%nat) (t 1%nat) (t 2%nat) (t 3%nat)))
      (opening "{" "custodianName") =
    inValue 0 (record (t 0%nat) (t 1%nat) (t 2%nat) (t 3%nat)) [x22].
Proof. vm_compute. reflexivity. Qed.

Lemma run_closing0 v0 v1 v2 v3 B s :
  json.unquote_from (length B) B = Some s ->
  run (inValue 0 (record v0 v1 v2 v3) (x22 :: B)) (x22 :: opening "," "custodianAgency") =
    inValue 1 (record (string_of_list_byte s) v1 v2 v3) [x22].
Proof.
  intros E. rewrite run_cons, (decode_step_close _ _ _ _ E).
  generalize (string_of_list_byte s). intros s'. vm_compute. reflexivity.
Qed.

Lemma run_closing1 v0 v1 v2 v3 B s :
  json.unquote_from (length B) B = Some s ->
  run (inValue 1 (record v0 v1 v2 v3) (x22 :: B)) (x22 :: opening "," "caseNumber") =
    inValue 2 (record v0 (string_of_list_byte s) v2 v3) [x22].
Proof.
  intros E. rewrite run_cons, (decode_step_close _ _ _ _ E).
  generalize (string_of_list_byte s). intros s'. vm_compute. reflexivity.
Qed.

Lemma run_closing2 v0 v1 v2 v3 B s :
  json.unquote_from (length B) B = Some s ->
  run (inValue 2 (record v0 v1 v2 v3) (x22 :: B)) (x22 :: opening "," "evidenceInfo") =
    inValue 3 (record v0 v1 (string_of_list_byte s) v3) [x22].
Proof.
  intros E. rewrite run_cons, (decode_step_close _ _ _ _ E).
  generalize (string_of_list_byte s). intros s'. vm_compute. reflexivity.
Qed.

Lemma run_closing3 v0 v1 v2 v3 B s :
  json.unquote_from (length B) B = Some s ->
  run (inValue 3 (record v0 v1 v2 v3) (x22 :: B)) [x22; "}"%byte] =
    {| json.scan := {| json.step := json.stateEndTop; json.parseState := [];
                       json.endTop := true; json.err := false |};
       json.lit := ["}"%byte]; json.field := Some 3%nat;
       json.target := record v0 v1 v2 (string_of_list_byte s);
       json.savedError := false |}.
Proof.
  intros E. rewrite run_cons, (decode_step_close _ _ _ _ E).
  generalize (string_of_list_byte s). intros s'. vm_compute. reflexivity.
Qed.

Lemma run_quoted i t v :
  run (inValue i t [x22]) (quoted v) = inValue i t (x22 :: quoted v).
Proof.
  pose proof (grows_appendString (length (bytes v)) (bytes v) (inValue i t [x22])
                ltac:(lia) eq_refl) as H.
  exact H.
Qed.

Lemma unquote_quoted v :
  json.unquote_from (length (quoted v)) (quoted v) =
    Some (json.coerce_from (length (bytes v)) (bytes v)).
Proof. unfold quoted. apply unquote_appendString; reflexivity. Qed.

Lemma toValidUTF8_eq v :
  string_of_list_byte (json.coerce_from (length (bytes v)) (bytes v)) = json.toValidUTF8 v.
Proof. reflexivity. Qed.

(** The decoder after all of an encoded [Asset]. *)
Lemma run_encodeStruct v0 v1 v2 v3 :
  run (json.decodeInit (record "" "" "" "")) (json.encodeStruct (record v0 v1 v2 v3)) =
    {| json.scan := {| json.step := json.stateEndTop; json.parseState := [];
                       json.endTop := true; json.err := false |};
       json.lit := ["}"%byte]; json.field := Some 3%nat;
       json.target := record (json.toValidUTF8 v0) (json.toValidUTF8 v1)
                             (json.toValidUTF8 v2) (json.toValidUTF8 v3);
       json.savedError := false |}.
Proof.
  rewrite encodeStruct_record.
  rewrite run_app, (run_opening0 (fun _ => ""%string)), run_app, run_quoted.
  change (x22 :: opening "," "custodianAgency" ++ ?k)
    with ((x22 :: opening "," "custodianAgency") ++ k).
  rewrite run_app, (run_closing0 _ _ _ _ _ _ (unquote_quoted v0)), run_app, run_quoted.
  change (x22 :: opening "," "caseNumber" ++ ?k)
    with ((x22 :: opening "," "caseNumber") ++ k).
  rewrite run_app, (run_closing1 _ _ _ _ _ _ (unquote_quoted v1)), run_app, run_quoted.
  change (x22 :: opening "," "evidenceInfo" ++ ?k)
    with ((x22 :: opening "," "evidenceInfo") ++ k).
  rewrite run_app, (run_closing2 _ _ _ _ _ _ (unquote_quoted v2)), run_app, run_quoted.
  rewrite (run_closing3 _ _ _ _ _ _ (unquote_quoted v3)).
  now rewrite !toValidUTF8_eq.
Qed.

Lemma checkValid_run data v :
  json.checkValid data =
    match json.eof (json.scan (run (json.decodeInit v) data)) with
    | json.scanError => false
    | _ => negb (json.err (json.scan (run (json.decodeInit v) data)))
    end.
Proof. unfold json.checkValid. now rewrite scan_of_run. Qed.

(** [Unmarshal] of what [Marshal] wrote: every field, coerced to valid UTF-8. *)
Lemma Unmarshal_encodeStruct v0 v1 v2 v3 :
  json.Unmarshal (json.encodeStruct (record v0 v1 v2 v3)) (record "" "" "" "") =
    inr (record (json.toValidUTF8 v0) (json.toValidUTF8 v1)
                (json.toValidUTF8 v2) (json.toValidUTF8 v3)).
Proof.
  unfold json.Unmarshal. rewrite (checkValid_run _ (record "" "" "" "")).
  fold (run (json.decodeInit (record "" "" "" "")) (json.encodeStruct (record v0 v1 v2 v3))).
  rewrite run_encodeStruct. reflexivity.
Qed.

End Document.


(** * What the decoder stores is valid UTF-8 *)

Section Decoded.

Lemma fmap_cons_valid (o : option (list byte)) c t :
  #c < 0x80 -> (forall t', o = Some t' -> utf8.Valid t' = true) ->
  cons c <$> o = Some t -> utf8.Valid t = true.
Proof.
  intros Hc H E. destruct o as [t'|]; [|discriminate]. injection E as <-.
  rewrite Valid_ascii by assumption. now apply H.
Qed.

Lemma fmap_app_valid (o : option (list byte)) r t :
  (forall t', o = Some t' -> utf8.Valid t' = true) ->
  app (utf8.EncodeRune r) <$> o = Some t -> utf8.Valid t = true.
Proof.
  intros H E. destruct o as [t'|]; [|discriminate]. injection E as <-.
  rewrite Valid_EncodeRune. now apply H.
Qed.

Lemma unquote_body_valid continue s t :
  (forall s' t', continue s' = Some t' -> utf8.Valid t' = true) ->
  json.unquote_body continue s = Some t -> utf8.Valid t = true.
Proof.
  intros Hrec E. unfold json.unquote_body in E.
  destruct s as [|c rest]; [now injection E as <-|].
  destruct (Byte.eqb c x5c).
  - destruct rest as [|e rest']; [discriminate|].
    destruct e; try discriminate E;
      try (eapply fmap_cons_valid; [|intros t'; apply Hrec|exact E]; vm_compute; reflexivity).
    destruct (json.getu4 _) as [rr|]; [|discriminate].
    destruct (utf16.IsSurrogate rr); [destruct (negb _)|];
      (eapply fmap_app_valid; [intros t'; apply Hrec|exact E]).
  - destruct (_ || _); [discriminate|].
    destruct (N.ltb_spec #c utf8.RuneSelf) as [Hc|Hc].
    + eapply fmap_cons_valid; [exact Hc|intros t'; apply Hrec|exact E].
    + eapply fmap_app_valid; [intros t'; apply Hrec|exact E].
Qed.

Lemma unquote_from_valid m : forall s t,
  json.unquote_from m s = Some t -> utf8.Valid t = true.
Proof.
  induction m as [|m IH]; intros s t E.
  - destruct s; [now injection E as <-|discriminate].
  - cbn [json.unquote_from] in E. eapply unquote_body_valid; [|exact E]. exact IH.
Qed.

Lemma unquoteBytes_valid item t :
  json.unquoteBytes item = Some t -> utf8.Valid t = true.
Proof.
  unfold json.unquoteBytes. intros E.
  destruct item as [|c s]; [discriminate|].
  destruct c; try discriminate E.
  destruct (last s) as [c|]; [|discriminate].
  destruct c; try discriminate E.
  eapply unquote_from_valid, E.
Qed.

Lemma ValidString_of_bytes t :
  utf8.ValidString (string_of_list_byte t) = utf8.Valid t.
Proof. unfold utf8.ValidString. now rewrite list_byte_of_string_of_list_byte. Qed.

Lemma setField_valid fs i v :
  valid_fields fs -> utf8.ValidString v = true -> valid_fields (json.setField fs i v).
Proof.
  intros H Hv. unfold json.setField. destruct (fs !! i) as [[name w]|]; [|assumption].
  apply Forall_insert; assumption.
Qed.

Lemma endLiteral_valid d item :
  valid_fields (json.target d) -> valid_fields (json.target (json.endLiteral d item)).
Proof.
  intros H. unfold json.endLiteral.
  destruct (json.parseState (json.scan d)) as [|[] [|? ?]]; try assumption.
  - destruct (json.unquoteBytes item); assumption.
  - destruct (json.field d); [|assumption].
    destruct (json.unquoteBytes item) eqn:E; [|assumption]. cbn.
    apply setField_valid; [assumption|].
    rewrite ValidString_of_bytes. eapply unquoteBytes_valid, E.
Qed.

Lemma beginValue_target d c : json.target (json.beginValue d c) = json.target d.
Proof.
  unfold json.beginValue.
  destruct (json.parseState (json.scan d)) as [|[] [|? ?]]; try reflexivity.
  - destruct c; reflexivity.
  - destruct c; try reflexivity; destruct (json.field d); reflexivity.
Qed.

Lemma decode_step_valid d c :
  valid_fields (json.target d) -> valid_fields (json.target (json.decode_step d c)).
Proof.
  intros H. unfold json.decode_step.
  destruct (json.inString (json.step (json.scan d))).
  - destruct (json.inString _); cbn; [assumption|now apply endLiteral_valid].
  - destruct (json.step (json.scan d)); try assumption;
      destruct (json.isSpace c); cbn; try assumption; now rewrite beginValue_target.
Qed.

Lemma run_valid bs : forall d,
  valid_fields (json.target d) -> valid_fields (json.target (run d bs)).
Proof.
  induction bs as [|c bs IH]; intros d H; [assumption|].
  rewrite run_cons. apply IH. now apply decode_step_valid.
Qed.

(** Whatever [Unmarshal] reads into valid fields leaves them valid. *)
Lemma Unmarshal_valid data v fs :
  valid_fields v -> json.Unmarshal data v = inr fs -> valid_fields fs.
Proof.
  unfold json.Unmarshal. intros Hv E.
  destruct (json.checkValid data); [|discriminate].
  destruct (json.savedError _); [discriminate|]. injection E as <-.
  now apply (run_valid data (json.decodeInit v)).
Qed.

Lemma toValidUTF8_valid v : utf8.ValidString v = true -> json.toValidUTF8 v = v.
Proof.
  intros H. unfold json.toValidUTF8. rewrite coerce_from_Valid by (trivial; lia).
  apply string_of_list_byte_of_string.
Qed.

Lemma ValidString_toValidUTF8 v : utf8.ValidString (json.toValidUTF8 v) = true.
Proof.
  unfold json.toValidUTF8. rewrite ValidString_of_bytes. now apply Valid_coerce_from.
Qed.

End Decoded.


(** * The calls of the ledger and the operations of the contract *)

Section Ledger.

Lemma call_ok {A} (f : gmap string (list byte) -> A * gmap string (list byte)) ctx :
  answers 1 ctx -> call f ctx = (inr (f (state ctx)).1, answered ctx (f (state ctx)).2).
Proof.
  unfold answers, call. destruct (faults ctx) as [|[] fs]; cbn; intros H;
    [reflexivity| |reflexivity]. inversion H; discriminate.
Qed.

Lemma call_fails {A} (f : gmap string (list byte) -> A * gmap string (list byte)) ctx :
  fails ctx -> call f ctx = (inl StubError, answered ctx (state ctx)).
Proof.
  unfold fails, call. destruct (faults ctx) as [|[] fs]; cbn; intros H; congruence.
Qed.

Lemma answers_or_fails ctx : answers 1 ctx \/ fails ctx.
Proof.
  unfold answers, fails. destruct (faults ctx) as [|[] fs]; cbn; auto.
Qed.

Lemma answers_S n ctx m : answers (S n) ctx -> answers 1 ctx /\ answers n (answered ctx m).
Proof.
  unfold answers, answered. cbn. destruct (faults ctx) as [|b fs]; cbn.
  - rewrite take_nil. auto.
  - rewrite take_0. intros H. inversion H; subst. auto.
Qed.

Lemma answers_le n k ctx : (k <= n)%nat -> answers n ctx -> answers k ctx.
Proof.
  unfold answers. intros Hk H. replace k with (k `min` n)%nat by lia.
  rewrite <- take_take. now apply Forall_take.
Qed.

Lemma state_answered ctx m : state (answered ctx m) = m.
Proof. reflexivity. Qed.

Lemma Marshal_eq asset ctx : Marshal asset ctx = (inr (encode asset), ctx).
Proof. reflexivity. Qed.

Lemma Unmarshal_eq data ctx :
  Unmarshal data ctx =
    (match decode data with inl err => inl (JsonError err) | inr a => inr a end, ctx).
Proof. unfold Unmarshal, lift. now destruct (decode data). Qed.

(** [AssetExists], whatever the ledger does. *)
Lemma AssetExists_answers custodianName ctx :
  answers 1 ctx ->
  AssetExists custodianName ctx =
    (inr (bool_decide (state ctx !! custodianName <> None)), answered ctx (state ctx)).
Proof. intros H. unfold AssetExists, bind_wrap, GetState. now rewrite call_ok. Qed.

Lemma AssetExists_fails custodianName ctx :
  fails ctx ->
  AssetExists custodianName ctx =
    (inl (Errorf_v "failed to read from world state: %v" StubError),
     answered ctx (state ctx)).
Proof. intros H. unfold AssetExists, bind_wrap, GetState. now rewrite call_fails. Qed.

Lemma ReadAsset_answers custodianName ctx :
  answers 1 ctx ->
  ReadAsset custodianName ctx =
    (match state ctx !! custodianName with
     | None => inl (Errorf_s "the asset %s does not exist" custodianName)
     | Some data =>
       match decode data with inl err => inl (JsonError err) | inr a => inr a end
     end, answered ctx (state ctx)).
Proof.
  intros H. unfold ReadAsset, bind_wrap, GetState. rewrite call_ok by assumption. cbn.
  destruct (state ctx !! custodianName); [apply Unmarshal_eq|reflexivity].
Qed.

Lemma ReadAsset_fails custodianName ctx :
  fails ctx ->
  ReadAsset custodianName ctx =
    (inl (Errorf_v "failed to read from world state: %v" StubError),
     answered ctx (state ctx)).
Proof. intros H. unfold ReadAsset, bind_wrap, GetState. now rewrite call_fails. Qed.

Lemma CreateAsset_present custodianName custodianAgency caseNumber evidenceInfo ctx :
  answers 1 ctx -> state ctx !! custodianName <> None ->
  CreateAsset custodianName custodianAgency caseNumber evidenceInfo ctx =
    (inl (Errorf_s "the asset %s already exists" custodianName), answered ctx (state ctx)).
Proof.
  intros H Hk. unfold CreateAsset, bind. rewrite AssetExists_answers by assumption.
  now rewrite bool_decide_eq_true_2.
Qed.

Lemma CreateAsset_absent custodianName custodianAgency caseNumber evidenceInfo ctx :
  answers 1 ctx -> state ctx !! custodianName = None ->
  CreateAsset custodianName custodianAgency caseNumber evidenceInfo ctx =
    PutState custodianName
      (encode {| CustodianName := custodianName; CustodianAgency := custodianAgency;
                 CaseNumber := caseNumber; EvidenceInfo := evidenceInfo |})
      (answered ctx (state ctx)).
Proof.
  intros H Hk. unfold CreateAsset, bind. rewrite AssetExists_answers by assumption.
  rewrite bool_decide_eq_false_2 by (rewrite Hk; auto). reflexivity.
Qed.

Lemma CreateAsset_fails custodianName custodianAgency caseNumber evidenceInfo ctx :
  fails ctx ->
  CreateAsset custodianName custodianAgency caseNumber evidenceInfo ctx =
    (inl (Errorf_v "failed to read from world state: %v" StubError),
     answered ctx (state ctx)).
Proof. intros H. unfold CreateAsset, bind. now rewrite AssetExists_fails. Qed.

Lemma UpdateAsset_absent custodianName custodianAgency caseNumber evidenceInfo ctx :
  answers 1 ctx -> state ctx !! custodianName = None ->
  UpdateAsset custodianName custodianAgency caseNumber evidenceInfo ctx =
    (inl (Errorf_s "the asset %s does not exist" custodianName), answered ctx (state ctx)).
Proof.
  intros H Hk. unfold UpdateAsset, bind. rewrite AssetExists_answers by assumption.
  now rewrite bool_decide_eq_false_2 by (rewrite Hk; auto).
Qed.

Lemma UpdateAsset_present custodianName custodianAgency caseNumber evidenceInfo ctx :
  answers 1 ctx -> state ctx !! custodianName <> None ->
  UpdateAsset custodianName custodianAgency caseNumber evidenceInfo ctx =
    PutState custodianName
      (encode {| CustodianName := custodianName; CustodianAgency := custodianAgency;
                 CaseNumber := caseNumber; EvidenceInfo := evidenceInfo |})
      (answered ctx (state ctx)).
Proof.
  intros H Hk. unfold UpdateAsset, bind. rewrite AssetExists_answers by assumption.
  rewrite bool_decide_eq_true_2 by assumption. reflexivity.
Qed.

Lemma UpdateAsset_fails custodianName custodianAgency caseNumber evidenceInfo ctx :
  fails ctx ->
  UpdateAsset custodianName custodianAgency caseNumber evidenceInfo ctx =
    (inl (Errorf_v "failed to read from world state: %v" StubError),
     answered ctx (state ctx)).
Proof. intros H. unfold UpdateAsset, bind. now rewrite AssetExists_fails. Qed.

Lemma DeleteAsset_absent custodianName ctx :
  answers 1 ctx -> state ctx !! custodianName = None ->
  DeleteAsset custodianName ctx =
    (inl (Errorf_s "the asset %s does not exist" custodianName), answered ctx (state ctx)).
Proof.
  intros H Hk. unfold DeleteAsset, bind. rewrite AssetExists_answers by assumption.
  now rewrite bool_decide_eq_false_2 by (rewrite Hk; auto).
Qed.

Lemma DeleteAsset_present custodianName ctx :
  answers 1 ctx -> state ctx !! custodianName <> None ->
  DeleteAsset custodianName ctx = DelState custodianName (answered ctx (state ctx)).
Proof.
  intros H Hk. unfold DeleteAsset, bind. rewrite AssetExists_answers by assumption.
  now rewrite bool_decide_eq_true_2 by assumption.
Qed.

Lemma DeleteAsset_fails custodianName ctx :
  fails ctx ->
  DeleteAsset custodianName ctx =
    (inl (Errorf_v "failed to read from world state: %v" StubError),
     answered ctx (state ctx)).
Proof. intros H. unfold DeleteAsset, bind. now rewrite AssetExists_fails. Qed.

Lemma PutState_answers key value ctx :
  answers 1 ctx -> PutState key value ctx = (inr tt, answered ctx (<[key := value]> (state ctx))).
Proof. intros H. unfold PutState. now rewrite call_ok. Qed.

Lemma PutState_fails key value ctx :
  fails ctx -> PutState key value ctx = (inl StubError, answered ctx (state ctx)).
Proof. intros H. unfold PutState. now rewrite call_fails. Qed.

Lemma DelState_answers key ctx :
  answers 1 ctx -> DelState key ctx = (inr tt, answered ctx (delete key (state ctx))).
Proof. intros H. unfold DelState. now rewrite call_ok. Qed.

Lemma DelState_fails key ctx :
  fails ctx -> DelState key ctx = (inl StubError, answered ctx (state ctx)).
Proof. intros H. unfold DelState. now rewrite call_fails. Qed.

(** [TransferAsset] after a read that found [asset]. *)
Lemma TransferAsset_read caseNumber newcustodianName newcustodianAgency ctx data asset :
  answers 1 ctx -> state ctx !! caseNumber = Some data -> decode data = inr asset ->
  TransferAsset caseNumber newcustodianName newcustodianAgency ctx =
    match PutState caseNumber
            (encode {| CustodianName := newcustodianName;
                       CustodianAgency := newcustodianAgency;
                       CaseNumber := CaseNumber asset;
                       EvidenceInfo := EvidenceInfo asset |})
            (answered ctx (state ctx)) with
    | (inl err, ctx') => (inl err, ctx')
    | (inr _, ctx') => (inr (CustodianName asset), ctx')
    end.
Proof.
  intros H Hk Hd. unfold TransferAsset, bind. rewrite ReadAsset_answers by assumption.
  rewrite Hk, Hd. cbn. now destruct (PutState _ _ _) as [[?|[]] ?].
Qed.

(** [TransferAsset] after a read that found nothing, or nothing that is an
    asset. *)
Lemma TransferAsset_error caseNumber newcustodianName newcustodianAgency ctx err :
  (ReadAsset caseNumber ctx).1 = inl err ->
  TransferAsset caseNumber newcustodianName newcustodianAgency ctx =
    (inl err, (ReadAsset caseNumber ctx).2).
Proof.
  intros H. unfold TransferAsset, bind. destruct (ReadAsset caseNumber ctx) as [[e|a] ctx'].
  - cbn in H. injection H as ->. reflexivity.
  - discriminate.
Qed.

End Ledger.

(** ** The codec on an [Asset] *)

Section Codec.

(** Reading an encoded asset back gives the asset, every string coerced. *)
Lemma decode_encode a : decode (encode a) = inr (coerced a).
Proof.
  destruct a as [v0 v1 v2 v3]. unfold decode, encode.
  change (structFields zero) with (record "" "" "" "").
  change (structFields _) with (record v0 v1 v2 v3).
  now rewrite Unmarshal_encodeStruct.
Qed.

Lemma coerced_valid a : ValidAsset a -> coerced a = a.
Proof.
  destruct a as [v0 v1 v2 v3]. unfold ValidAsset, coerced.
  cbn [CustodianName CustodianAgency CaseNumber EvidenceInfo].
  intros (H0 & H1 & H2 & H3). now rewrite !toValidUTF8_valid by assumption.
Qed.

(** An encoded asset of valid strings is read back as it was. *)
Lemma decode_encode_valid a : ValidAsset a -> decode (encode a) = inr a.
Proof. intros H. now rewrite decode_encode, coerced_valid. Qed.

Lemma ValidString_empty : utf8.ValidString "" = true.
Proof. reflexivity. Qed.

Lemma valid_fields_lookup fs i :
  valid_fields fs -> utf8.ValidString (default ""%string (snd <$> fs !! i)) = true.
Proof.
  intros H. destruct (fs !! i) as [[n v]|] eqn:E; [|reflexivity].
  cbn. eapply (Forall_lookup_1 _ _ _ _ H E).
Qed.

(** Whatever is read as an asset has valid strings. *)
Lemma decode_valid data a : decode data = inr a -> ValidAsset a.
Proof.
  unfold decode. destruct (json.Unmarshal data (structFields zero)) as [|fs] eqn:E; [discriminate|].
  intros [= <-].
  assert (H : valid_fields fs).
  { eapply Unmarshal_valid; [|exact E]. repeat constructor. }
  repeat split; cbn; now apply valid_fields_lookup.
Qed.

End Codec.


(** * The claims *)

Lemma quiet_answers n ctx : quiet ctx -> answers n ctx.
Proof. apply Forall_take. Qed.

Lemma quiet_answered ctx m : quiet ctx -> quiet (answered ctx m).
Proof.
  unfold quiet, answered. cbn. destruct (faults ctx); [auto|]. intros H. now inversion H.
Qed.

(** C1: [json.Marshal] of an asset is a function of the asset alone, with
    no failing case, and it writes the four fields in the order of the
    struct declaration: custodianName, custodianAgency, caseNumber,
    evidenceInfo.  The comment above the declaration asks for the
    alphabetical order, which this is not: the first asset of [InitLedger]
    is encoded with custodianName first, and not as the alphabetical order
    would have it. *)
Theorem Marshal_declaration_order :
  (forall asset,
     Marshal asset = ret (encode asset)
     /\ encode asset =
          opening "{" "custodianName" ++ quoted (CustodianName asset) ++
          x22 :: opening "," "custodianAgency" ++ quoted (CustodianAgency asset) ++
          x22 :: opening "," "caseNumber" ++ quoted (CaseNumber asset) ++
          x22 :: opening "," "evidenceInfo" ++ quoted (EvidenceInfo asset) ++
          [x22; "}"%byte])
  /\ string_of_list_byte (encode Zaki) =
       String.concat (String "034"%char "")
         ["{"; "custodianName"; ":"; "Zaki"; ","; "custodianAgency"; ":"; "RCED"; ",";
          "caseNumber"; ":"; "1"; ","; "evidenceInfo"; ":"; "HP01/HP02"; "}"]%string
  /\ string_of_list_byte (encode Zaki) <>
       String.concat (String "034"%char "")
         ["{"; "caseNumber"; ":"; "1"; ","; "custodianAgency"; ":"; "RCED"; ",";
          "custodianName"; ":"; "Zaki"; ","; "evidenceInfo"; ":"; "HP01/HP02"; "}"]%string.
Proof.
  split; [|split; [vm_compute; reflexivity|vm_compute; discriminate]].
  intros [v0 v1 v2 v3]. split; [reflexivity|]. apply encodeStruct_record.
Qed.

(** C3: [CreateAsset] on a key that has a value fails with "the asset ...
    already exists" and writes nothing: the world state is the one before
    the call, and [ReadAsset] then returns what the value read as before. *)
Theorem CreateAsset_existing custodianName custodianAgency caseNumber evidenceInfo ctx data :
  state ctx !! custodianName = Some data ->
  answers 2 ctx ->
  exists ctx',
    CreateAsset custodianName custodianAgency caseNumber evidenceInfo ctx =
      (inl (Errorf_s "the asset %s already exists" custodianName), ctx')
    /\ state ctx' = state ctx
    /\ (ReadAsset custodianName ctx').1 = (ReadAsset custodianName ctx).1
    /\ (ReadAsset custodianName ctx').1 =
         match decode data with inl err => inl (JsonError err) | inr asset => inr asset end.
Proof.
  intros Hk H2. destruct (answers_S 1 ctx (state ctx) H2) as [H1 H1'].
  exists (answered ctx (state ctx)).
  rewrite CreateAsset_present by (assumption || congruence).
  rewrite !ReadAsset_answers by assumption. cbn [state answered fst]. rewrite Hk. auto.
Qed.

(** C4: on a key that has no value, [UpdateAsset], [DeleteAsset] and
    [TransferAsset] leave the world state as it is, and fail with "the asset
    ... does not exist" when the ledger answers the read. *)
Theorem absent_key_not_found custodianName ctx :
  state ctx !! custodianName = None ->
  (forall custodianAgency caseNumber evidenceInfo,
     state (UpdateAsset custodianName custodianAgency caseNumber evidenceInfo ctx).2 = state ctx
     /\ (answers 1 ctx ->
         (UpdateAsset custodianName custodianAgency caseNumber evidenceInfo ctx).1 =
           inl (Errorf_s "the asset %s does not exist" custodianName)))
  /\ (state (DeleteAsset custodianName ctx).2 = state ctx
      /\ (answers 1 ctx ->
          (DeleteAsset custodianName ctx).1 =
            inl (Errorf_s "the asset %s does not exist" custodianName)))
  /\ (forall newcustodianName newcustodianAgency,
        state (TransferAsset custodianName newcustodianName newcustodianAgency ctx).2 = state ctx
        /\ (answers 1 ctx ->
            (TransferAsset custodianName newcustodianName newcustodianAgency ctx).1 =
              inl (Errorf_s "the asset %s does not exist" custodianName))).
Proof.
  intros Hk. repeat split.
  - destruct (answers_or_fails ctx) as [H|H].
    + now rewrite UpdateAsset_absent.
    + now rewrite UpdateAsset_fails.
  - intros H. now rewrite UpdateAsset_absent.
  - destruct (answers_or_fails ctx) as [H|H].
    + now rewrite DeleteAsset_absent.
    + now rewrite DeleteAsset_fails.
  - intros H. now rewrite DeleteAsset_absent.
  - destruct (answers_or_fails ctx) as [H|H].
    + erewrite TransferAsset_error; rewrite ReadAsset_answers, ?Hk by assumption; reflexivity.
    + erewrite TransferAsset_error; rewrite ReadAsset_fails by assumption; reflexivity.
  - intros H. erewrite TransferAsset_error; rewrite ReadAsset_answers, ?Hk by assumption;
      reflexivity.
Qed.


(** C5: for an asset of valid UTF-8 strings whose name has no value yet,
    and a ledger that answers, [CreateAsset] succeeds and [ReadAsset] then
    returns that very asset. *)
Theorem CreateAsset_then_ReadAsset custodianName custodianAgency caseNumber evidenceInfo ctx :
  ValidAsset {| CustodianName := custodianName; CustodianAgency := custodianAgency;
                CaseNumber := caseNumber; EvidenceInfo := evidenceInfo |} ->
  state ctx !! custodianName = None ->
  answers 3 ctx ->
  exists ctx1 ctx2,
    CreateAsset custodianName custodianAgency caseNumber evidenceInfo ctx = (inr tt, ctx1)
    /\ ReadAsset custodianName ctx1 =
         (inr {| CustodianName := custodianName; CustodianAgency := custodianAgency;
                 CaseNumber := caseNumber; EvidenceInfo := evidenceInfo |}, ctx2).
Proof.
  intros Hv Hk H3.
  destruct (answers_S 2 ctx (state ctx) H3) as [H1 H2].
  set (ctx0 := answered ctx (state ctx)) in *.
  set (a := {| CustodianName := custodianName |}) in *.
  destruct (answers_S 1 ctx0 (<[custodianName := encode a]> (state ctx0)) H2) as [H1' H1''].
  do 2 eexists. rewrite CreateAsset_absent by assumption. fold a ctx0.
  rewrite PutState_answers by assumption. split; [reflexivity|].
  rewrite ReadAsset_answers by assumption. cbn [state answered].
  now rewrite lookup_insert_eq, decode_encode_valid.
Qed.


Section Scan.

Lemma decode_all_inl es e :
  decode_all es = inl e -> exists kv, kv ∈ es /\ decode (Value kv) = inl e.
Proof.
  induction es as [|kv es IH]; cbn; [discriminate|].
  destruct (decode (Value kv)) as [e'|a] eqn:E.
  - intros [= ->]. exists kv. split; [left|assumption].
  - destruct (decode_all es) as [e'|l]; [|discriminate].
    intros [= ->]. destruct (IH eq_refl) as (kv' & Hin & Hd). exists kv'. split; [now right|assumption].
Qed.

Lemma decode_all_inr es l :
  decode_all es = inr l -> Forall2 (fun kv a => decode (Value kv) = inr a) es l.
Proof.
  revert l. induction es as [|kv es IH]; cbn; intros l.
  - intros [= <-]. constructor.
  - destruct (decode (Value kv)) as [e'|a] eqn:E; [discriminate|].
    destruct (decode_all es) as [e'|l']; [discriminate|].
    intros [= <-]. constructor; [assumption|now apply IH].
Qed.

Lemma decode_all_total es :
  (forall kv, kv ∈ es -> exists a, decode (Value kv) = inr a) ->
  exists l, decode_all es = inr l.
Proof.
  induction es as [|kv es IH]; cbn; intros H; [eauto|].
  destruct (H kv ltac:(left)) as [a ->].
  destruct IH as [l ->]; [|eauto]. intros kv' Hin. apply H. now right.
Qed.

Lemma Next_answers kv ctx : answers 1 ctx -> Next kv ctx = (inr kv, answered ctx (state ctx)).
Proof. intros H. unfold Next. now rewrite call_ok. Qed.

Lemma Next_fails kv ctx : fails ctx -> Next kv ctx = (inl StubError, answered ctx (state ctx)).
Proof. intros H. unfold Next. now rewrite call_fails. Qed.

(** The loop of [GetAllAssets] on a ledger that answers. *)
Lemma GetAllAssets_from_quiet es : forall acc ctx,
  quiet ctx ->
  exists ctx',
    GetAllAssets_from es acc ctx =
      (match decode_all es with
       | inl err => inl (JsonError err)
       | inr l => inr (acc ++ l)
       end, ctx')
    /\ state ctx' = state ctx.
Proof.
  induction es as [|kv es IH]; intros acc ctx Hq.
  - exists ctx. cbn. now rewrite app_nil_r.
  - cbn [GetAllAssets_from decode_all]. unfold bind.
    rewrite Next_answers by now apply quiet_answers.
    rewrite Unmarshal_eq. destruct (decode (Value kv)) as [e|a].
    + eexists; split; reflexivity.
    + destruct (IH (acc ++ [a]) (answered ctx (state ctx))) as (ctx' & E & Hs);
        [now apply quiet_answered|].
      exists ctx'. rewrite E. split; [|assumption].
      destruct (decode_all es); [reflexivity|]. now rewrite <- app_assoc.
Qed.

(** The loop of [GetAllAssets] writes nothing, whatever the ledger does. *)
Lemma GetAllAssets_from_state es : forall acc ctx,
  state (GetAllAssets_from es acc ctx).2 = state ctx.
Proof.
  induction es as [|kv es IH]; intros acc ctx; [reflexivity|].
  cbn [GetAllAssets_from]. unfold bind.
  destruct (answers_or_fails ctx) as [H|H].
  - rewrite Next_answers by assumption. rewrite Unmarshal_eq.
    destruct (decode (Value kv)); [reflexivity|]. now rewrite IH.
  - now rewrite Next_fails.
Qed.

Lemma GetStateByRange_answers startKey endKey ctx :
  answers 1 ctx ->
  GetStateByRange startKey endKey ctx =
    (inr (entries startKey endKey (state ctx)), answered ctx (state ctx)).
Proof. intros H. unfold GetStateByRange. now rewrite call_ok. Qed.

Lemma GetStateByRange_fails startKey endKey ctx :
  fails ctx ->
  GetStateByRange startKey endKey ctx = (inl StubError, answered ctx (state ctx)).
Proof. intros H. unfold GetStateByRange. now rewrite call_fails. Qed.

Lemma GetAllAssets_state ctx : state (GetAllAssets ctx).2 = state ctx.
Proof.
  unfold GetAllAssets, bind. destruct (answers_or_fails ctx) as [H|H].
  - rewrite GetStateByRange_answers by assumption. now rewrite GetAllAssets_from_state.
  - now rewrite GetStateByRange_fails.
Qed.

#[local] Instance by_key_transitive :
  Transitive (fun x y : string * list byte => String.le x.1 y.1).
Proof. intros x y z. apply transitivity. Qed.

#[local] Instance by_key_total :
  Total (fun x y : string * list byte => String.le x.1 y.1).
Proof. intros x y. apply String.le_total. Qed.

Lemma filter_all {A} (P : A -> Prop) `{forall x, Decision (P x)} (l : list A) :
  (forall x, P x) -> filter P l = l.
Proof.
  intros HP. induction l as [|x l IH]; [reflexivity|].
  rewrite filter_cons_True by apply HP. now rewrite IH.
Qed.

(** An open-ended range query iterates over every entry of the world state,
    once, in the order of the keys. *)
Lemma entries_all m :
  StronglySorted (fun x y => String.le (Key x) (Key y)) (entries "" "" m)
  /\ entries "" "" m ≡ₚ (fun kv => {| Key := kv.1; Value := kv.2 |}) <$> map_to_list m.
Proof.
  unfold entries. split.
  - eapply StronglySorted_fmap; [|apply StronglySorted_merge_sort; apply _].
    intros x y H. exact H.
  - rewrite merge_sort_Permutation.
    rewrite filter_all; [reflexivity|]. intros x. reflexivity.
Qed.

Lemma entries_lookup m key value :
  {| Key := key; Value := value |} ∈ entries "" "" m <-> m !! key = Some value.
Proof.
  destruct (entries_all m) as [_ ->]. rewrite list_elem_of_fmap. split.
  - intros ([k v] & [= -> ->] & Hin). now apply elem_of_map_to_list in Hin.
  - intros H. exists (key, value). split; [reflexivity|]. now apply elem_of_map_to_list.
Qed.

End Scan.

(** C6: on a ledger that answers, [GetAllAssets] reads the entries of the
    world state in the order of their keys.  If one of them is not read as
    an asset, it returns the decoding error, with no asset at all; if all
    are, it returns what they are read as, in that order.  It writes
    nothing. *)
Theorem GetAllAssets_all_or_nothing ctx :
  quiet ctx ->
  let es := entries "" "" (state ctx) in
  (StronglySorted (fun x y => String.le (Key x) (Key y)) es
   /\ forall key value, {| Key := key; Value := value |} ∈ es <-> state ctx !! key = Some value)
  /\ ((exists kv err, kv ∈ es /\ decode (Value kv) = inl err) ->
      exists kv err ctx',
        kv ∈ es /\ decode (Value kv) = inl err
        /\ GetAllAssets ctx = (inl (JsonError err), ctx') /\ state ctx' = state ctx)
  /\ ((forall kv, kv ∈ es -> exists asset, decode (Value kv) = inr asset) ->
      exists found ctx',
        GetAllAssets ctx = (inr found, ctx')
        /\ Forall2 (fun kv asset => decode (Value kv) = inr asset) es found
        /\ state ctx' = state ctx).
Proof.
  intros Hq es.
  assert (Hrun : exists ctx',
             GetAllAssets ctx =
               (match decode_all es with
                | inl err => inl (JsonError err)
                | inr l => inr l
                end, ctx') /\ state ctx' = state ctx).
  { unfold GetAllAssets, bind. rewrite GetStateByRange_answers by now apply quiet_answers.
    destruct (GetAllAssets_from_quiet es [] (answered ctx (state ctx)))
      as (ctx' & E & Hs); [now apply quiet_answered|].
    exists ctx'. fold es. rewrite E. split; [|assumption]. now destruct (decode_all es). }
  destruct Hrun as (ctx' & E & Hs).
  split; [split; [apply entries_all|apply entries_lookup]|]. split.
  - intros (kv & err & Hin & Hd).
    destruct (decode_all es) as [e|l] eqn:Ed.
    + destruct (decode_all_inl _ _ Ed) as (kv' & Hin' & Hd'). exists kv', e, ctx'. auto.
    + apply decode_all_inr in Ed.
      apply list_elem_of_lookup in Hin as [i Hi].
      destruct (Forall2_lookup_l _ _ _ _ _ Ed Hi) as (a & _ & Ha). congruence.
  - intros Hall. destruct (decode_all_total es Hall) as [l El]. rewrite El in E.
    exists l, ctx'. split; [assumption|]. split; [now apply decode_all_inr|assumption].
Qed.

(** C10: on an empty world state, when the ledger answers the range query,
    [GetAllAssets] returns no error and no asset. *)
Theorem GetAllAssets_empty ctx :
  state ctx = ∅ -> answers 1 ctx ->
  GetAllAssets ctx = (inr [], answered ctx ∅).
Proof.
  intros Hs H. unfold GetAllAssets, bind. rewrite GetStateByRange_answers by assumption.
  rewrite Hs. reflexivity.
Qed.


Section Lifecycle.

Lemma CreateAsset_inr custodianName custodianAgency caseNumber evidenceInfo ctx ctx1 :
  quiet ctx ->
  CreateAsset custodianName custodianAgency caseNumber evidenceInfo ctx = (inr tt, ctx1) ->
  state ctx !! custodianName = None
  /\ quiet ctx1
  /\ state ctx1 =
       <[custodianName :=
           encode {| CustodianName := custodianName; CustodianAgency := custodianAgency;
                     CaseNumber := caseNumber; EvidenceInfo := evidenceInfo |}]> (state ctx).
Proof.
  intros Hq E. destruct (state ctx !! custodianName) as [data|] eqn:Hk.
  - rewrite CreateAsset_present in E by (try apply quiet_answers; congruence). discriminate.
  - rewrite CreateAsset_absent in E by (try apply quiet_answers; assumption).
    rewrite PutState_answers in E by (apply quiet_answers; now apply quiet_answered).
    injection E as <-. split; [reflexivity|]. split; [|reflexivity].
    now do 2 apply quiet_answered.
Qed.

Lemma DeleteAsset_inr custodianName ctx ctx2 :
  quiet ctx -> DeleteAsset custodianName ctx = (inr tt, ctx2) ->
  state ctx !! custodianName <> None
  /\ quiet ctx2 /\ state ctx2 = delete custodianName (state ctx).
Proof.
  intros Hq E. destruct (state ctx !! custodianName) as [data|] eqn:Hk.
  - rewrite DeleteAsset_present in E by (try apply quiet_answers; congruence).
    rewrite DelState_answers in E by (apply quiet_answers; now apply quiet_answered).
    injection E as <-. split; [discriminate|]. split; [|reflexivity].
    now do 2 apply quiet_answered.
  - rewrite DeleteAsset_absent in E by (try apply quiet_answers; assumption). discriminate.
Qed.

End Lifecycle.

(** C7: when the ledger answers the read, [AssetExists] returns whether the
    key has a value, and writes nothing; it returns an error only when the
    read fails, and then the error of the read.  So, on a ledger that
    answers, it returns false before a [CreateAsset] that succeeds and true
    after it, and false after a [DeleteAsset] that succeeds. *)
Theorem AssetExists_iff_present :
  (forall custodianName ctx, answers 1 ctx ->
     exists b, AssetExists custodianName ctx = (inr b, answered ctx (state ctx))
               /\ (b = true <-> is_Some (state ctx !! custodianName)))
  /\ (forall custodianName ctx err, (AssetExists custodianName ctx).1 = inl err ->
        fails ctx /\ err = Errorf_v "failed to read from world state: %v" StubError)
  /\ (forall custodianName custodianAgency caseNumber evidenceInfo ctx ctx1,
        quiet ctx ->
        CreateAsset custodianName custodianAgency caseNumber evidenceInfo ctx = (inr tt, ctx1) ->
        (AssetExists custodianName ctx).1 = inr false
        /\ (AssetExists custodianName ctx1).1 = inr true
        /\ exists ctx2, DeleteAsset custodianName ctx1 = (inr tt, ctx2))
  /\ (forall custodianName ctx ctx2,
        quiet ctx -> DeleteAsset custodianName ctx = (inr tt, ctx2) ->
        (AssetExists custodianName ctx).1 = inr true
        /\ (AssetExists custodianName ctx2).1 = inr false).
Proof.
  split; [|split; [|split]].
  - intros k ctx H. eexists. split; [now apply AssetExists_answers|].
    rewrite bool_decide_eq_true. now rewrite is_Some_alt; destruct (state ctx !! k).
  - intros k ctx err E. destruct (answers_or_fails ctx) as [H|H].
    + rewrite AssetExists_answers in E by assumption. discriminate.
    + rewrite AssetExists_fails in E by assumption. now injection E as <-.
  - intros k ag cn ev ctx ctx1 Hq E.
    destruct (CreateAsset_inr _ _ _ _ _ _ Hq E) as (Hk & Hq1 & Hs1).
    rewrite !AssetExists_answers by now apply quiet_answers. cbn [fst].
    rewrite Hk, Hs1, lookup_insert_eq.
    split; [now rewrite bool_decide_eq_false_2 by auto|].
    split; [now rewrite bool_decide_eq_true_2|].
    eexists. rewrite DeleteAsset_present
      by (try apply quiet_answers; try assumption; now rewrite Hs1, lookup_insert_eq).
    now rewrite DelState_answers by (apply quiet_answers; now apply quiet_answered).
  - intros k ctx ctx2 Hq E.
    destruct (DeleteAsset_inr _ _ _ Hq E) as (Hk & Hq2 & Hs2).
    rewrite !AssetExists_answers by now apply quiet_answers. cbn [fst].
    rewrite Hs2, lookup_delete_eq.
    split; [now rewrite bool_decide_eq_true_2|now rewrite bool_decide_eq_false_2 by auto].
Qed.

Section Seed.

Lemma puts_snoc l a m : puts (l ++ [a]) m = <[CustodianName a := encode a]> (puts l m).
Proof. unfold puts. now rewrite foldl_app. Qed.

Lemma puts_cons a l m : puts (a :: l) m = puts l (<[CustodianName a := encode a]> m).
Proof. reflexivity. Qed.

(** Keys that name none of the assets keep what they had. *)
Lemma puts_lookup_other l : forall m key,
  key ∉ CustodianName <$> l -> puts l m !! key = m !! key.
Proof.
  induction l as [|a l IH]; intros m key Hk; [reflexivity|].
  rewrite puts_cons, IH.
  - apply lookup_insert_ne. intros E. apply Hk. cbn. rewrite E. left.
  - intros Hin. apply Hk. cbn. now right.
Qed.

(** An asset that is put, and not put over later, is what its name holds. *)
Lemma puts_lookup l : forall m a,
  NoDup (CustodianName <$> l) -> a ∈ l -> puts l m !! CustodianName a = Some (encode a).
Proof.
  induction l as [|b l IH]; intros m a Hnd Hin; [inversion Hin|].
  cbn in Hnd. apply NoDup_cons in Hnd as [Hb Hnd]. rewrite puts_cons.
  apply elem_of_cons in Hin as [->|Hin].
  - rewrite puts_lookup_other by assumption. apply lookup_insert_eq.
  - now apply IH.
Qed.

(** The loop of [InitLedger] when the ledger answers every put. *)
Lemma InitLedger_from_answers l : forall ctx,
  answers (length l) ctx ->
  exists ctx', InitLedger_from l ctx = (inr tt, ctx') /\ state ctx' = puts l (state ctx).
Proof.
  induction l as [|a l IH]; intros ctx H.
  - exists ctx. split; reflexivity.
  - cbn [length] in H.
    destruct (answers_S _ ctx (<[CustodianName a := encode a]> (state ctx)) H) as [H1 Hl].
    cbn [InitLedger_from]. unfold bind, bind_wrap. rewrite Marshal_eq.
    rewrite PutState_answers by assumption.
    destruct (IH _ Hl) as (ctx' & E & Hs). exists ctx'. split; [assumption|].
    rewrite Hs. reflexivity.
Qed.

(** The loop of [InitLedger] when the put of index [i] is the first to fail. *)
Lemma InitLedger_from_fails l : forall i ctx,
  (i < length l)%nat -> answers i ctx -> faults ctx !! i = Some true ->
  exists ctx',
    InitLedger_from l ctx =
      (inl (Errorf_v "failed to put to world state. %v" StubError), ctx')
    /\ state ctx' = puts (take i l) (state ctx).
Proof.
  induction l as [|a l IH]; intros i ctx Hi Ha Hf; [cbn in Hi; lia|].
  cbn [InitLedger_from]. unfold bind, bind_wrap. rewrite Marshal_eq.
  destruct i as [|i].
  - rewrite PutState_fails.
    + eexists; split; reflexivity.
    + unfold fails. destruct (faults ctx); [discriminate|]. cbn in *. congruence.
  - destruct (answers_S _ ctx (<[CustodianName a := encode a]> (state ctx)) Ha) as [H1 Hl].
    rewrite PutState_answers by assumption.
    destruct (IH i (answered ctx (<[CustodianName a := encode a]> (state ctx))))
      as (ctx' & E & Hs).
    + cbn [length] in Hi. lia.
    + assumption.
    + unfold answered. cbn. destruct (faults ctx); [discriminate|exact Hf].
    + exists ctx'. split; [assumption|]. rewrite Hs. reflexivity.
Qed.

Lemma assets_NoDup : NoDup (CustodianName <$> assets).
Proof. apply (bool_decide_unpack _). vm_compute. exact I. Qed.

End Seed.

(** C8: [InitLedger] has six assets to put.  When the ledger answers the
    six puts, every one of them is put under its custodian name, whatever
    the key held, and no other key changes.  When the put of index [i] is the
    first to fail, [InitLedger] returns the error of that put, and the
    assets before it stay put.  ([json.Marshal] of an asset has no failing
    case.) *)
Theorem InitLedger_puts_six :
  length assets = 6%nat
  /\ (forall ctx, answers 6 ctx ->
        exists ctx',
          InitLedger ctx = (inr tt, ctx')
          /\ state ctx' = puts assets (state ctx)
          /\ (forall asset, asset ∈ assets ->
                state ctx' !! CustodianName asset = Some (encode asset))
          /\ (forall key, key ∉ CustodianName <$> assets ->
                state ctx' !! key = state ctx !! key))
  /\ (forall ctx i, (i < 6)%nat -> answers i ctx -> faults ctx !! i = Some true ->
        exists ctx',
          InitLedger ctx =
            (inl (Errorf_v "failed to put to world state. %v" StubError), ctx')
          /\ state ctx' = puts (take i assets) (state ctx)
          /\ (forall asset, asset ∈ take i assets ->
                state ctx' !! CustodianName asset = Some (encode asset))
          /\ (forall key, key ∉ CustodianName <$> take i assets ->
                state ctx' !! key = state ctx !! key)).
Proof.
  split; [reflexivity|]. split.
  - intros ctx H. destruct (InitLedger_from_answers assets ctx H) as (ctx' & E & Hs).
    exists ctx'. split; [assumption|]. split; [assumption|]. rewrite Hs. split.
    + intros a Ha. apply puts_lookup; [apply assets_NoDup|assumption].
    + intros key Hk. now apply puts_lookup_other.
  - intros ctx i Hi Ha Hf.
    destruct (InitLedger_from_fails assets i ctx Hi Ha Hf) as (ctx' & E & Hs).
    exists ctx'. split; [assumption|]. split; [assumption|]. rewrite Hs. split.
    + intros a Hin. apply puts_lookup; [|assumption].
      rewrite fmap_take.
      apply (sublist_NoDup _ (CustodianName <$> assets)); [apply assets_NoDup|apply sublist_take].
    + intros key Hk. now apply puts_lookup_other.
Qed.


Section Keys.

Lemma writes_own_keys_refl m : writes_own_keys m m.
Proof. intros key. now left. Qed.

Lemma writes_own_keys_insert m asset :
  writes_own_keys m (<[CustodianName asset := encode asset]> m).
Proof.
  intros key. destruct (decide (CustodianName asset = key)) as [<-|Hne].
  - right. exists asset. now rewrite lookup_insert_eq.
  - left. now apply lookup_insert_ne.
Qed.

Lemma writes_own_keys_trans m1 m2 m3 :
  writes_own_keys m1 m2 -> writes_own_keys m2 m3 -> writes_own_keys m1 m3.
Proof.
  intros H12 H23 key. destruct (H23 key) as [E|H]; [|now right].
  rewrite E. apply H12.
Qed.

Lemma writes_own_keys_keyed m m' : writes_own_keys m m' -> keyed m -> keyed m'.
Proof.
  intros Hw Hm key value Hk. destruct (Hw key) as [E|(asset & E & Hn)].
  - apply Hm. now rewrite <- E.
  - exists asset. split; [congruence|assumption].
Qed.

Lemma keyed_delete m key : keyed m -> keyed (delete key m).
Proof.
  intros Hm k v Hk. apply lookup_delete_Some in Hk as [_ Hk]. now apply Hm.
Qed.

Lemma PutState_own asset ctx :
  writes_own_keys (state ctx) (state (PutState (CustodianName asset) (encode asset) ctx).2).
Proof.
  destruct (answers_or_fails ctx) as [H|H].
  - rewrite PutState_answers by assumption. apply writes_own_keys_insert.
  - rewrite PutState_fails by assumption. apply writes_own_keys_refl.
Qed.

Lemma InitLedger_from_own l : forall ctx,
  writes_own_keys (state ctx) (state (InitLedger_from l ctx).2).
Proof.
  induction l as [|a l IH]; intros ctx; [apply writes_own_keys_refl|].
  cbn [InitLedger_from]. unfold bind, bind_wrap. rewrite Marshal_eq.
  pose proof (PutState_own a ctx) as Hp.
  destruct (PutState (CustodianName a) (encode a) ctx) as [[e|[]] ctx1]; [exact Hp|].
  eapply writes_own_keys_trans; [exact Hp|apply IH].
Qed.

Lemma CreateAsset_own custodianName custodianAgency caseNumber evidenceInfo ctx :
  writes_own_keys (state ctx)
    (state (CreateAsset custodianName custodianAgency caseNumber evidenceInfo ctx).2).
Proof.
  destruct (answers_or_fails ctx) as [H|H].
  - destruct (state ctx !! custodianName) eqn:Hk.
    + rewrite CreateAsset_present by congruence. apply writes_own_keys_refl.
    + rewrite CreateAsset_absent by assumption.
      exact (PutState_own {| CustodianName := custodianName;
                              CustodianAgency := custodianAgency;
                              CaseNumber := caseNumber;
                              EvidenceInfo := evidenceInfo |} (answered ctx (state ctx))).
  - rewrite CreateAsset_fails by assumption. apply writes_own_keys_refl.
Qed.

Lemma UpdateAsset_own custodianName custodianAgency caseNumber evidenceInfo ctx :
  writes_own_keys (state ctx)
    (state (UpdateAsset custodianName custodianAgency caseNumber evidenceInfo ctx).2).
Proof.
  destruct (answers_or_fails ctx) as [H|H].
  - destruct (state ctx !! custodianName) eqn:Hk.
    + rewrite UpdateAsset_present by congruence.
      exact (PutState_own {| CustodianName := custodianName;
                              CustodianAgency := custodianAgency;
                              CaseNumber := caseNumber;
                              EvidenceInfo := evidenceInfo |} (answered ctx (state ctx))).
    + rewrite UpdateAsset_absent by assumption. apply writes_own_keys_refl.
  - rewrite UpdateAsset_fails by assumption. apply writes_own_keys_refl.
Qed.

Lemma DeleteAsset_keyed custodianName ctx :
  keyed (state ctx) -> keyed (state (DeleteAsset custodianName ctx).2).
Proof.
  intros Hm. destruct (answers_or_fails ctx) as [H|H].
  - destruct (state ctx !! custodianName) eqn:Hk.
    + rewrite DeleteAsset_present by congruence.
      destruct (answers_or_fails (answered ctx (state ctx))) as [H'|H'].
      * rewrite DelState_answers by assumption. now apply keyed_delete.
      * now rewrite DelState_fails by assumption.
    + now rewrite DeleteAsset_absent by assumption.
  - now rewrite DeleteAsset_fails by assumption.
Qed.

Lemma ReadAsset_state custodianName ctx : state (ReadAsset custodianName ctx).2 = state ctx.
Proof.
  destruct (answers_or_fails ctx) as [H|H].
  - now rewrite ReadAsset_answers.
  - now rewrite ReadAsset_fails.
Qed.

Lemma AssetExists_state custodianName ctx : state (AssetExists custodianName ctx).2 = state ctx.
Proof.
  destruct (answers_or_fails ctx) as [H|H].
  - now rewrite AssetExists_answers.
  - now rewrite AssetExists_fails.
Qed.

(** Two assets of one encoding have the same strings, up to the coercion. *)
Lemma encode_inj a b : encode a = encode b -> coerced a = coerced b.
Proof.
  intros E. assert (H : decode (encode a) = decode (encode b)) by now rewrite E.
  rewrite !decode_encode in H. congruence.
Qed.

Lemma keyed_singleton asset : keyed {[CustodianName asset := encode asset]}.
Proof.
  intros key value Hk. apply lookup_singleton_Some in Hk as [<- <-]. now exists asset.
Qed.

End Keys.

(** C9: [InitLedger], [CreateAsset] and [UpdateAsset] write a key only with
    the encoding of an asset whose custodian name is that key, whatever the
    ledger does, so a world state in which every key holds an asset of that
    name stays one.  [DeleteAsset] keeps it one, and [ReadAsset],
    [AssetExists] and [GetAllAssets] write nothing.  [TransferAsset] does
    not keep it: it puts an asset of the new name under the old key. *)
Theorem only_TransferAsset_breaks_keyed :
  (forall ctx,
     writes_own_keys (state ctx) (state (InitLedger ctx).2)
     /\ (keyed (state ctx) -> keyed (state (InitLedger ctx).2)))
  /\ (forall custodianName custodianAgency caseNumber evidenceInfo ctx,
        let ctx' := (CreateAsset custodianName custodianAgency caseNumber evidenceInfo ctx).2 in
        writes_own_keys (state ctx) (state ctx')
        /\ (keyed (state ctx) -> keyed (state ctx')))
  /\ (forall custodianName custodianAgency caseNumber evidenceInfo ctx,
        let ctx' := (UpdateAsset custodianName custodianAgency caseNumber evidenceInfo ctx).2 in
        writes_own_keys (state ctx) (state ctx')
        /\ (keyed (state ctx) -> keyed (state ctx')))
  /\ (forall custodianName ctx,
        (keyed (state ctx) -> keyed (state (DeleteAsset custodianName ctx).2))
        /\ state (ReadAsset custodianName ctx).2 = state ctx
        /\ state (AssetExists custodianName ctx).2 = state ctx
        /\ state (GetAllAssets ctx).2 = state ctx)
  /\ (exists caseNumber newcustodianName newcustodianAgency ctx,
        let ctx' := (TransferAsset caseNumber newcustodianName newcustodianAgency ctx).2 in
        keyed (state ctx)
        /\ ~ keyed (state ctx')
        /\ ~ writes_own_keys (state ctx) (state ctx')).
Proof.
  split; [|split; [|split; [|split]]].
  - intros ctx. split; [apply InitLedger_from_own|].
    apply writes_own_keys_keyed, InitLedger_from_own.
  - intros n ag cn ev ctx ctx'. split; [apply CreateAsset_own|].
    apply writes_own_keys_keyed, CreateAsset_own.
  - intros n ag cn ev ctx ctx'. split; [apply UpdateAsset_own|].
    apply writes_own_keys_keyed, UpdateAsset_own.
  - intros n ctx. split; [apply DeleteAsset_keyed|].
    split; [apply ReadAsset_state|]. split; [apply AssetExists_state|apply GetAllAssets_state].
  - exists "Zaki"%string, "Bob"%string, "RBPF"%string,
      {| state := {["Zaki"%string := encode Zaki]}; faults := [] |}.
    intros ctx'.
    assert (Hs : state ctx' !! "Zaki"%string =
                 Some (encode {| CustodianName := "Bob"; CustodianAgency := "RBPF";
                                 CaseNumber := "1"; EvidenceInfo := "HP01/HP02" |})).
    { vm_compute. reflexivity. }
    assert (Hno : forall asset,
              state ctx' !! "Zaki"%string = Some (encode asset) ->
              CustodianName asset <> "Zaki"%string).
    { intros asset E Hn. rewrite Hs in E. apply (inj Some), encode_inj in E.
      apply (f_equal CustodianName) in E. cbn in E. rewrite Hn in E.
      vm_compute in E. discriminate. }
    split; [apply (keyed_singleton Zaki)|]. split.
    + intros Hk. destruct (Hk _ _ Hs) as (asset & E & Hn).
      apply (Hno asset); [|assumption]. now rewrite Hs, E.
    + intros Hw. destruct (Hw "Zaki"%string) as [E|(asset & E & Hn)].
      * rewrite Hs in E. cbn [state] in E. rewrite lookup_singleton_eq in E.
        apply (inj Some), encode_inj in E. vm_compute in E. discriminate.
      * now apply (Hno asset).
Qed.


(** * The theorems at work on a seeded ledger *)


Lemma CreateAsset_existing_seeded :
  exists ctx',
    CreateAsset "Zaki" "RBPF" "7" "HP09" seeded =
      (inl (Errorf_s "the asset %s already exists" "Zaki"), ctx')
    /\ state ctx' = state seeded
    /\ (ReadAsset "Zaki" ctx').1 = (ReadAsset "Zaki" seeded).1
    /\ (ReadAsset "Zaki" ctx').1 =
         match decode (encode Zaki) with
         | inl err => inl (JsonError err)
         | inr asset => inr asset
         end.
Proof.
  apply (CreateAsset_existing "Zaki" "RBPF" "7" "HP09" seeded (encode Zaki)).
  - vm_compute. reflexivity.
  - vm_compute. constructor.
Defined.

Lemma absent_key_not_found_seeded :
  (forall custodianAgency caseNumber evidenceInfo,
     state (UpdateAsset "Nur" custodianAgency caseNumber evidenceInfo seeded).2 = state seeded
     /\ (answers 1 seeded ->
         (UpdateAsset "Nur" custodianAgency caseNumber evidenceInfo seeded).1 =
           inl (Errorf_s "the asset %s does not exist" "Nur")))
  /\ (state (DeleteAsset "Nur" seeded).2 = state seeded
      /\ (answers 1 seeded ->
          (DeleteAsset "Nur" seeded).1 = inl (Errorf_s "the asset %s does not exist" "Nur")))
  /\ (forall newcustodianName newcustodianAgency,
        state (TransferAsset "Nur" newcustodianName newcustodianAgency seeded).2 = state seeded
        /\ (answers 1 seeded ->
            (TransferAsset "Nur" newcustodianName newcustodianAgency seeded).1 =
              inl (Errorf_s "the asset %s does not exist" "Nur"))).
Proof.
  apply (absent_key_not_found "Nur" seeded). vm_compute. reflexivity.
Defined.

Lemma CreateAsset_then_ReadAsset_seeded :
  exists ctx1 ctx2,
    CreateAsset "Nur" "RBPF" "7" "HP09/SIM04" seeded = (inr tt, ctx1)
    /\ ReadAsset "Nur" ctx1 =
         (inr {| CustodianName := "Nur"; CustodianAgency := "RBPF"; CaseNumber := "7";
                 EvidenceInfo := "HP09/SIM04" |}, ctx2).
Proof.
  apply (CreateAsset_then_ReadAsset "Nur" "RBPF" "7" "HP09/SIM04" seeded).
  - repeat split; vm_compute; reflexivity.
  - vm_compute. reflexivity.
  - vm_compute. constructor.
Defined.

Lemma GetAllAssets_all_or_nothing_seeded :
  let es := entries "" "" (state seeded) in
  (StronglySorted (fun x y => String.le (Key x) (Key y)) es
   /\ forall key value,
        {| Key := key; Value := value |} ∈ es <-> state seeded !! key = Some value)
  /\ ((exists kv err, kv ∈ es /\ decode (Value kv) = inl err) ->
      exists kv err ctx',
        kv ∈ es /\ decode (Value kv) = inl err
        /\ GetAllAssets seeded = (inl (JsonError err), ctx') /\ state ctx' = state seeded)
  /\ ((forall kv, kv ∈ es -> exists asset, decode (Value kv) = inr asset) ->
      exists found ctx',
        GetAllAssets seeded = (inr found, ctx')
        /\ Forall2 (fun kv asset => decode (Value kv) = inr asset) es found
        /\ state ctx' = state seeded).
Proof.
  apply (GetAllAssets_all_or_nothing seeded). vm_compute. constructor.
Defined.

Lemma GetAllAssets_empty_fresh :
  GetAllAssets {| state := ∅; faults := [] |} =
    (inr [], answered {| state := ∅; faults := [] |} ∅).
Proof.
  apply (GetAllAssets_empty {| state := ∅; faults := [] |}).
  - reflexivity.
  - vm_compute. constructor.
Defined.

(** The scan of the seeded ledger: the six assets, in the order of their
    names. *)
Example GetAllAssets_seeded :
  (GetAllAssets seeded).1 =
    inr ((fun i => nth i assets zero) <$> [2; 1; 4; 3; 5; 0]%nat).
Proof. vm_compute. reflexivity. Qed.

(** A value that is not an asset among the entries: the scan returns the
    error and no asset. *)
Example GetAllAssets_broken :
  (GetAllAssets {| state := <["Nur"%string := bytes "[]"]> (state seeded); faults := [] |}).1 =
    inl (JsonError json.UnmarshalTypeError).
Proof. vm_compute. reflexivity. Qed.

(** The scenario of the specification: seed, then Zaki exists and is read,
    is deleted, and exists no more. *)
Example scenario_Zaki :
  let ctx0 := {| state := ∅; faults := [] |} in
  let ctx1 := (InitLedger ctx0).2 in
  let ctx2 := (DeleteAsset "Zaki" ctx1).2 in
  (AssetExists "Zaki" ctx1).1 = inr true
  /\ (ReadAsset "Zaki" ctx1).1 = inr Zaki
  /\ (DeleteAsset "Zaki" ctx1).1 = inr tt
  /\ (AssetExists "Zaki" ctx2).1 = inr false
  /\ (ReadAsset "Zaki" ctx2).1 = inl (Errorf_s "the asset %s does not exist" "Zaki").
Proof. vm_compute. repeat split; reflexivity. Qed.

(** A name that is not valid UTF-8 is not read back as it was written: the
    byte 0xFF comes back as U+FFFD. *)
Example toValidUTF8_xff :
  list_byte_of_string (json.toValidUTF8 (string_of_list_byte [xff])) = [xef; xbf; xbd].
Proof. vm_compute. reflexivity. Qed.

(** X12: what [ReadAsset] returns after [TransferAsset], on a ledger that
    answers: the asset that was put, its new name and agency coerced to
    valid UTF-8, its case number and evidence as they were read. *)
Lemma TransferAsset_then_ReadAsset caseNumber newcustodianName newcustodianAgency ctx data asset :
  state ctx !! caseNumber = Some data ->
  decode data = inr asset ->
  answers 3 ctx ->
  exists ctx' ctx'',
    TransferAsset caseNumber newcustodianName newcustodianAgency ctx =
      (inr (CustodianName asset), ctx')
    /\ ReadAsset caseNumber ctx' =
         (inr {| CustodianName := json.toValidUTF8 newcustodianName;
                 CustodianAgency := json.toValidUTF8 newcustodianAgency;
                 CaseNumber := CaseNumber asset;
                 EvidenceInfo := EvidenceInfo asset |}, ctx'').
Proof.
  intros Hk Hd H3.
  destruct (answers_S 2 ctx (state ctx) H3) as [H1 H2].
  set (a' := {| CustodianName := newcustodianName; CustodianAgency := newcustodianAgency;
                CaseNumber := CaseNumber asset; EvidenceInfo := EvidenceInfo asset |}).
  destruct (answers_S 1 (answered ctx (state ctx))
              (<[caseNumber := encode a']> (state ctx)) H2) as [H1' H1''].
  do 2 eexists. rewrite (TransferAsset_read _ _ _ _ _ _ H1 Hk Hd).
  rewrite PutState_answers by assumption. split; [reflexivity|].
  rewrite ReadAsset_answers by assumption. cbn [state answered].
  rewrite lookup_insert_eq. fold a'. rewrite decode_encode. unfold coerced, a'.
  cbn [CustodianName CustodianAgency CaseNumber EvidenceInfo].
  destruct (decode_valid _ _ Hd) as (_ & _ & Hc & He).
  now rewrite (toValidUTF8_valid _ Hc), (toValidUTF8_valid _ He).
Qed.


(** * Further properties of the operations *)

Section Outcomes.

Lemma quiet_settled ctx : quiet (settled ctx).
Proof. constructor. Qed.

Lemma answers_nil n m : answers n {| state := m; faults := [] |}.
Proof. unfold answers. cbn. rewrite take_nil. constructor. Qed.

(** A put writes its key or, failing, nothing. *)
Lemma PutState_cases key value ctx :
  PutState key value ctx = (inr tt, answered ctx (<[key := value]> (state ctx)))
  \/ PutState key value ctx = (inl StubError, answered ctx (state ctx)).
Proof.
  destruct (answers_or_fails ctx) as [H|H].
  - left. now apply PutState_answers.
  - right. now apply PutState_fails.
Qed.

Lemma DelState_cases key ctx :
  DelState key ctx = (inr tt, answered ctx (delete key (state ctx)))
  \/ DelState key ctx = (inl StubError, answered ctx (state ctx)).
Proof.
  destruct (answers_or_fails ctx) as [H|H].
  - left. now apply DelState_answers.
  - right. now apply DelState_fails.
Qed.

(** The four ways [CreateAsset] can go. *)
Lemma CreateAsset_cases custodianName custodianAgency caseNumber evidenceInfo ctx :
  let r := CreateAsset custodianName custodianAgency caseNumber evidenceInfo ctx in
  (r.1 = inl (Errorf_v "failed to read from world state: %v" StubError)
   /\ state r.2 = state ctx)
  \/ (r.1 = inl (Errorf_s "the asset %s already exists" custodianName)
      /\ state r.2 = state ctx /\ is_Some (state ctx !! custodianName))
  \/ (r.1 = inl StubError /\ state r.2 = state ctx /\ state ctx !! custodianName = None)
  \/ (r.1 = inr tt /\ state ctx !! custodianName = None
      /\ state r.2 =
           <[custodianName :=
               encode {| CustodianName := custodianName; CustodianAgency := custodianAgency;
                         CaseNumber := caseNumber; EvidenceInfo := evidenceInfo |}]>
             (state ctx)).
Proof.
  intros r. subst r. destruct (answers_or_fails ctx) as [H|H].
  - destruct (state ctx !! custodianName) as [data|] eqn:Hk.
    + right; left. rewrite CreateAsset_present by congruence. eauto.
    + rewrite CreateAsset_absent by assumption.
      destruct (PutState_cases custodianName
                  (encode {| CustodianName := custodianName;
                             CustodianAgency := custodianAgency;
                             CaseNumber := caseNumber; EvidenceInfo := evidenceInfo |})
                  (answered ctx (state ctx))) as [-> | ->].
      * do 3 right. auto.
      * do 2 right; left. auto.
  - left. rewrite CreateAsset_fails by assumption. auto.
Qed.

(** The four ways [UpdateAsset] can go. *)
Lemma UpdateAsset_cases custodianName custodianAgency caseNumber evidenceInfo ctx :
  let r := UpdateAsset custodianName custodianAgency caseNumber evidenceInfo ctx in
  (r.1 = inl (Errorf_v "failed to read from world state: %v" StubError)
   /\ state r.2 = state ctx)
  \/ (r.1 = inl (Errorf_s "the asset %s does not exist" custodianName)
      /\ state r.2 = state ctx /\ state ctx !! custodianName = None)
  \/ (r.1 = inl StubError /\ state r.2 = state ctx /\ is_Some (state ctx !! custodianName))
  \/ (r.1 = inr tt /\ is_Some (state ctx !! custodianName)
      /\ state r.2 =
           <[custodianName :=
               encode {| CustodianName := custodianName; CustodianAgency := custodianAgency;
                         CaseNumber := caseNumber; EvidenceInfo := evidenceInfo |}]>
             (state ctx)).
Proof.
  intros r. subst r. destruct (answers_or_fails ctx) as [H|H].
  - destruct (state ctx !! custodianName) as [data|] eqn:Hk.
    + rewrite UpdateAsset_present by congruence.
      destruct (PutState_cases custodianName
                  (encode {| CustodianName := custodianName;
                             CustodianAgency := custodianAgency;
                             CaseNumber := caseNumber; EvidenceInfo := evidenceInfo |})
                  (answered ctx (state ctx))) as [-> | ->].
      * do 3 right. eauto.
      * do 2 right; left. eauto.
    + right; left. rewrite UpdateAsset_absent by assumption. auto.
  - left. rewrite UpdateAsset_fails by assumption. auto.
Qed.

(** The four ways [DeleteAsset] can go. *)
Lemma DeleteAsset_cases custodianName ctx :
  let r := DeleteAsset custodianName ctx in
  (r.1 = inl (Errorf_v "failed to read from world state: %v" StubError)
   /\ state r.2 = state ctx)
  \/ (r.1 = inl (Errorf_s "the asset %s does not exist" custodianName)
      /\ state r.2 = state ctx /\ state ctx !! custodianName = None)
  \/ (r.1 = inl StubError /\ state r.2 = state ctx /\ is_Some (state ctx !! custodianName))
  \/ (r.1 = inr tt /\ is_Some (state ctx !! custodianName)
      /\ state r.2 = delete custodianName (state ctx)).
Proof.
  intros r. subst r. destruct (answers_or_fails ctx) as [H|H].
  - destruct (state ctx !! custodianName) as [data|] eqn:Hk.
    + rewrite DeleteAsset_present by congruence.
      destruct (DelState_cases custodianName (answered ctx (state ctx))) as [-> | ->].
      * do 3 right. eauto.
      * do 2 right; left. eauto.
    + right; left. rewrite DeleteAsset_absent by assumption. auto.
  - left. rewrite DeleteAsset_fails by assumption. auto.
Qed.

(** The ways [TransferAsset] can go: the read fails, or the put does, or
    neither. *)
Lemma TransferAsset_cases caseNumber newcustodianName newcustodianAgency ctx :
  let r := TransferAsset caseNumber newcustodianName newcustodianAgency ctx in
  (exists err, r.1 = inl err /\ (ReadAsset caseNumber ctx).1 = inl err
               /\ state r.2 = state ctx)
  \/ (exists data asset,
        state ctx !! caseNumber = Some data /\ decode data = inr asset
        /\ ((r.1 = inl StubError /\ state r.2 = state ctx)
            \/ (r.1 = inr (CustodianName asset)
                /\ state r.2 =
                     <[caseNumber :=
                         encode {| CustodianName := newcustodianName;
                                   CustodianAgency := newcustodianAgency;
                                   CaseNumber := CaseNumber asset;
                                   EvidenceInfo := EvidenceInfo asset |}]> (state ctx)))).
Proof.
  intros r. subst r. destruct (answers_or_fails ctx) as [H|H].
  - destruct (state ctx !! caseNumber) as [data|] eqn:Hk.
    + destruct (decode data) as [e|asset] eqn:Hd.
      * left. exists (JsonError e).
        erewrite TransferAsset_error; rewrite ReadAsset_answers, Hk, Hd by assumption; auto.
      * right. exists data, asset. split; [reflexivity|]. split; [assumption|].
        rewrite (TransferAsset_read _ _ _ _ _ _ H Hk Hd).
        destruct (PutState_cases caseNumber
                    (encode {| CustodianName := newcustodianName;
                               CustodianAgency := newcustodianAgency;
                               CaseNumber := CaseNumber asset;
                               EvidenceInfo := EvidenceInfo asset |})
                    (answered ctx (state ctx))) as [-> | ->]; auto.
    + left. eexists.
      erewrite TransferAsset_error; rewrite ReadAsset_answers, Hk by assumption; auto.
  - left. eexists.
    erewrite TransferAsset_error; rewrite ReadAsset_fails by assumption; auto.
Qed.

End Outcomes.

(** X1: [UpdateAsset] on a key that has a value, whatever the value, puts
    the encoding of the new asset in its place, and [ReadAsset] then returns
    the new asset, each string coerced to valid UTF-8: the asset itself when
    its strings are valid UTF-8.  Nothing of the old value is left. *)
Theorem UpdateAsset_then_ReadAsset custodianName custodianAgency caseNumber evidenceInfo ctx :
  let asset := {| CustodianName := custodianName; CustodianAgency := custodianAgency;
                  CaseNumber := caseNumber; EvidenceInfo := evidenceInfo |} in
  is_Some (state ctx !! custodianName) ->
  answers 3 ctx ->
  exists ctx1 ctx2,
    UpdateAsset custodianName custodianAgency caseNumber evidenceInfo ctx = (inr tt, ctx1)
    /\ state ctx1 = <[custodianName := encode asset]> (state ctx)
    /\ ReadAsset custodianName ctx1 = (inr (coerced asset), ctx2)
    /\ (ValidAsset asset -> coerced asset = asset).
Proof.
  intros asset Hk H3.
  destruct (answers_S 2 ctx (state ctx) H3) as [H1 H2].
  set (ctx0 := answered ctx (state ctx)) in *.
  destruct (answers_S 1 ctx0 (<[custodianName := encode asset]> (state ctx0)) H2) as [H1' H1''].
  do 2 eexists. rewrite UpdateAsset_present by (try assumption; now apply is_Some_alt in Hk; destruct (state ctx !! custodianName)).
  fold asset ctx0. rewrite PutState_answers by assumption.
  split; [reflexivity|]. split; [reflexivity|].
  rewrite ReadAsset_answers by assumption. cbn [state answered].
  rewrite lookup_insert_eq, decode_encode. split; [reflexivity|apply coerced_valid].
Qed.

(** X2: [DeleteAsset] on a key that has a value removes the key and no
    other, and [ReadAsset] then fails with "the asset ... does not exist". *)
Theorem DeleteAsset_then_ReadAsset custodianName ctx :
  is_Some (state ctx !! custodianName) ->
  answers 3 ctx ->
  exists ctx1 ctx2,
    DeleteAsset custodianName ctx = (inr tt, ctx1)
    /\ state ctx1 = delete custodianName (state ctx)
    /\ (forall key, key <> custodianName -> state ctx1 !! key = state ctx !! key)
    /\ ReadAsset custodianName ctx1 =
         (inl (Errorf_s "the asset %s does not exist" custodianName), ctx2).
Proof.
  intros Hk H3.
  destruct (answers_S 2 ctx (state ctx) H3) as [H1 H2].
  set (ctx0 := answered ctx (state ctx)) in *.
  destruct (answers_S 1 ctx0 (delete custodianName (state ctx0)) H2) as [H1' H1''].
  do 2 eexists.
  rewrite DeleteAsset_present
    by (try assumption; now apply is_Some_alt in Hk; destruct (state ctx !! custodianName)).
  fold ctx0. rewrite DelState_answers by assumption.
  split; [reflexivity|]. split; [reflexivity|]. split.
  - intros key Hne. cbn [state answered]. now rewrite lookup_delete_ne.
  - rewrite ReadAsset_answers by assumption. cbn [state answered].
    now rewrite lookup_delete_eq.
Qed.

(** X3: [CreateAsset], [UpdateAsset], [DeleteAsset] and [TransferAsset] do
    their one write or none: when one of them returns an error, whichever it
    is and whatever the ledger did, the world state is the one before the
    call; when it returns none, the world state differs by exactly its put or
    its delete. *)
Theorem writers_all_or_nothing ctx :
  (forall custodianName custodianAgency caseNumber evidenceInfo,
     all_or_nothing (CreateAsset custodianName custodianAgency caseNumber evidenceInfo ctx)
       (state ctx)
       (<[custodianName :=
            encode {| CustodianName := custodianName; CustodianAgency := custodianAgency;
                      CaseNumber := caseNumber; EvidenceInfo := evidenceInfo |}]> (state ctx))
     /\ all_or_nothing (UpdateAsset custodianName custodianAgency caseNumber evidenceInfo ctx)
          (state ctx)
          (<[custodianName :=
               encode {| CustodianName := custodianName; CustodianAgency := custodianAgency;
                         CaseNumber := caseNumber; EvidenceInfo := evidenceInfo |}]>
             (state ctx)))
  /\ (forall custodianName,
        all_or_nothing (DeleteAsset custodianName ctx)
          (state ctx) (delete custodianName (state ctx)))
  /\ (forall caseNumber newcustodianName newcustodianAgency,
        exists value,
          all_or_nothing (TransferAsset caseNumber newcustodianName newcustodianAgency ctx)
            (state ctx) (<[caseNumber := value]> (state ctx))).
Proof.
  unfold all_or_nothing. split; [|split].
  - intros k ag cn ev. split.
    + destruct (CreateAsset_cases k ag cn ev ctx) as [[-> E]|[(-> & E & _)|[(-> & E & _)|(-> & _ & E)]]];
        exact E.
    + destruct (UpdateAsset_cases k ag cn ev ctx) as [[-> E]|[(-> & E & _)|[(-> & E & _)|(-> & _ & E)]]];
        exact E.
  - intros k.
    destruct (DeleteAsset_cases k ctx) as [[-> E]|[(-> & E & _)|[(-> & E & _)|(-> & _ & E)]]];
      exact E.
  - intros k n ag.
    destruct (TransferAsset_cases k n ag ctx)
      as [(err & -> & _ & E)|(data & asset & _ & _ & [[-> E]|[-> E]])].
    + exists []. exact E.
    + exists []. exact E.
    + eexists. exact E.
Qed.

(** X4: an operation touches no key but the one it is called with, whatever
    the ledger does; and [UpdateAsset] and [TransferAsset] neither add a key
    to the world state nor remove one, [CreateAsset] removes none and
    [DeleteAsset] adds none. *)
Theorem writers_footprint ctx key :
  (forall custodianName custodianAgency caseNumber evidenceInfo,
     let ctx' := (CreateAsset custodianName custodianAgency caseNumber evidenceInfo ctx).2 in
     (key <> custodianName -> state ctx' !! key = state ctx !! key)
     /\ dom (state ctx) ⊆ dom (state ctx'))
  /\ (forall custodianName custodianAgency caseNumber evidenceInfo,
        let ctx' := (UpdateAsset custodianName custodianAgency caseNumber evidenceInfo ctx).2 in
        (key <> custodianName -> state ctx' !! key = state ctx !! key)
        /\ dom (state ctx') = dom (state ctx))
  /\ (forall custodianName,
        let ctx' := (DeleteAsset custodianName ctx).2 in
        (key <> custodianName -> state ctx' !! key = state ctx !! key)
        /\ dom (state ctx') ⊆ dom (state ctx))
  /\ (forall caseNumber newcustodianName newcustodianAgency,
        let ctx' := (TransferAsset caseNumber newcustodianName newcustodianAgency ctx).2 in
        (key <> caseNumber -> state ctx' !! key = state ctx !! key)
        /\ dom (state ctx') = dom (state ctx)).
Proof.
  split; [|split; [|split]].
  - intros k ag cn ev ctx'. subst ctx'.
    destruct (CreateAsset_cases k ag cn ev ctx)
      as [[_ E]|[(_ & E & _)|[(_ & E & _)|(_ & _ & E)]]]; rewrite E; try (split; reflexivity).
    split; [intros Hne; now apply lookup_insert_ne|].
    rewrite dom_insert_L. apply union_subseteq_r.
  - intros k ag cn ev ctx'. subst ctx'.
    destruct (UpdateAsset_cases k ag cn ev ctx)
      as [[_ E]|[(_ & E & _)|[(_ & E & _)|(_ & Hk & E)]]]; rewrite E; try (split; reflexivity).
    split; [intros Hne; now apply lookup_insert_ne|].
    now apply dom_insert_lookup_L.
  - intros k ctx'. subst ctx'.
    destruct (DeleteAsset_cases k ctx)
      as [[_ E]|[(_ & E & _)|[(_ & E & _)|(_ & _ & E)]]]; rewrite E; try (split; reflexivity).
    split; [intros Hne; now apply lookup_delete_ne|].
    rewrite dom_delete_L. apply subseteq_difference_l. reflexivity.
  - intros k n ag ctx'. subst ctx'.
    destruct (TransferAsset_cases k n ag ctx)
      as [(err & _ & _ & E)|(data & asset & Hk & _ & [[_ E]|[_ E]])];
      rewrite E; try (split; reflexivity).
    split; [intros Hne; now apply lookup_insert_ne|].
    apply dom_insert_lookup_L. eauto.
Qed.

Section Results.

Lemma InitLedger_from_result l : forall ctx,
  (InitLedger_from l ctx).1 = inr tt
  \/ (InitLedger_from l ctx).1 =
       inl (Errorf_v "failed to put to world state. %v" StubError).
Proof.
  induction l as [|a l IH]; intros ctx; [now left|].
  cbn [InitLedger_from]. unfold bind, bind_wrap. rewrite Marshal_eq.
  destruct (PutState_cases (CustodianName a) (encode a) ctx) as [-> | ->];
    [apply IH|now right].
Qed.

(** The loop of [InitLedger] on a ledger that answers. *)
Lemma InitLedger_from_quiet l : forall ctx,
  quiet ctx ->
  exists ctx',
    InitLedger_from l ctx = (inr tt, ctx') /\ state ctx' = puts l (state ctx) /\ quiet ctx'.
Proof.
  induction l as [|a l IH]; intros ctx Hq.
  - exists ctx. auto.
  - cbn [InitLedger_from]. unfold bind, bind_wrap. rewrite Marshal_eq.
    rewrite PutState_answers by now apply quiet_answers.
    destruct (IH (answered ctx (<[CustodianName a := encode a]> (state ctx))))
      as (ctx' & E & Hs & Hq'); [now apply quiet_answered|].
    exists ctx'. auto.
Qed.

(** Putting the assets a second time changes nothing. *)
Lemma puts_puts l m : NoDup (CustodianName <$> l) -> puts l (puts l m) = puts l m.
Proof.
  intros Hnd. apply map_eq. intros key.
  destruct (decide (key ∈ CustodianName <$> l)) as [Hin|Hout].
  - apply list_elem_of_fmap in Hin as (a & -> & Ha). now rewrite !puts_lookup.
  - now rewrite puts_lookup_other.
Qed.

Lemma assets_Valid : Forall ValidAsset assets.
Proof. repeat constructor. Qed.

(** The loop of [GetAllAssets], whatever the ledger does: a list is returned
    only when every entry was delivered and read as an asset. *)
Lemma GetAllAssets_from_inr es : forall acc ctx found,
  (GetAllAssets_from es acc ctx).1 = inr found ->
  exists l, decode_all es = inr l /\ found = acc ++ l.
Proof.
  induction es as [|kv es IH]; intros acc ctx found.
  - cbn. intros [= <-]. exists []. now rewrite app_nil_r.
  - cbn [GetAllAssets_from decode_all]. unfold bind.
    destruct (answers_or_fails ctx) as [H|H].
    + rewrite Next_answers by assumption. rewrite Unmarshal_eq.
      destruct (decode (Value kv)) as [e|a]; [discriminate|].
      intros E. destruct (IH _ _ _ E) as (l & -> & ->).
      exists (a :: l). now rewrite <- app_assoc.
    + rewrite Next_fails by assumption. discriminate.
Qed.

Lemma GetAllAssets_inr ctx found :
  (GetAllAssets ctx).1 = inr found -> decode_all (entries "" "" (state ctx)) = inr found.
Proof.
  unfold GetAllAssets, bind. destruct (answers_or_fails ctx) as [H|H].
  - rewrite GetStateByRange_answers by assumption.
    intros E. now destruct (GetAllAssets_from_inr _ _ _ _ E) as (l & -> & ->).
  - rewrite GetStateByRange_fails by assumption. discriminate.
Qed.

Lemma entries_length m : length (entries "" "" m) = size m.
Proof.
  destruct (entries_all m) as [_ ->]. now rewrite length_fmap, length_map_to_list.
Qed.

Lemma entries_elem_of m kv : kv ∈ entries "" "" m -> m !! Key kv = Some (Value kv).
Proof. destruct kv as [k v]. apply entries_lookup. Qed.

(** Entries that hold encoded assets are all read, each as its asset
    coerced. *)
Lemma decode_all_encoded es :
  (forall kv, kv ∈ es -> exists asset, Value kv = encode asset /\ CustodianName asset = Key kv) ->
  exists l, decode_all es = inr l
            /\ CustodianName <$> l = (fun kv => json.toValidUTF8 (Key kv)) <$> es.
Proof.
  induction es as [|kv es IH]; intros H; [now exists []|].
  destruct (H kv ltac:(left)) as (asset & Hv & Hn).
  destruct IH as (l & El & Hl); [intros kv' Hin; apply H; now right|].
  exists (coerced asset :: l). cbn [decode_all]. rewrite Hv, decode_encode, El.
  split; [reflexivity|]. cbn. now rewrite Hl, Hn.
Qed.

End Results.

(** X5: the errors of the operations that write.  [CreateAsset],
    [UpdateAsset] and [DeleteAsset] return no error, or the wrapped error of
    the read, or their own message about the key, or the error of the put or
    delete as the ledger gave it; [InitLedger] returns no error or the
    wrapped error of a put.  None of them ever returns an error of
    [json.Marshal]. *)
Theorem writers_errors ctx :
  (forall custodianName custodianAgency caseNumber evidenceInfo,
     (CreateAsset custodianName custodianAgency caseNumber evidenceInfo ctx).1 ∈
       [inr tt;
        inl (Errorf_v "failed to read from world state: %v" StubError);
        inl (Errorf_s "the asset %s already exists" custodianName);
        inl StubError]
     /\ (UpdateAsset custodianName custodianAgency caseNumber evidenceInfo ctx).1 ∈
          [inr tt;
           inl (Errorf_v "failed to read from world state: %v" StubError);
           inl (Errorf_s "the asset %s does not exist" custodianName);
           inl StubError]
     /\ (DeleteAsset custodianName ctx).1 ∈
          [inr tt;
           inl (Errorf_v "failed to read from world state: %v" StubError);
           inl (Errorf_s "the asset %s does not exist" custodianName);
           inl StubError])
  /\ (InitLedger ctx).1 ∈
       [inr tt; inl (Errorf_v "failed to put to world state. %v" StubError)].
Proof.
  split.
  - intros k ag cn ev. split; [|split].
    + destruct (CreateAsset_cases k ag cn ev ctx) as [[-> _]|[(-> & _)|[(-> & _)|(-> & _)]]];
        repeat constructor.
    + destruct (UpdateAsset_cases k ag cn ev ctx) as [[-> _]|[(-> & _)|[(-> & _)|(-> & _)]]];
        repeat constructor.
    + destruct (DeleteAsset_cases k ctx) as [[-> _]|[(-> & _)|[(-> & _)|(-> & _)]]];
        repeat constructor.
  - destruct (InitLedger_from_result assets ctx) as [E|E]; unfold InitLedger; rewrite E;
      repeat constructor.
Qed.

(** X6: a key whose value is not read as an asset.  [AssetExists] answers
    true; [ReadAsset] and [TransferAsset] fail with the error of
    [json.Unmarshal], and write nothing; [UpdateAsset] and [DeleteAsset] do
    not read the value, and go through. *)
Theorem undecodable_value custodianName ctx data err :
  state ctx !! custodianName = Some data ->
  decode data = inl err ->
  answers 2 ctx ->
  (AssetExists custodianName ctx).1 = inr true
  /\ (ReadAsset custodianName ctx).1 = inl (JsonError err)
  /\ (forall newcustodianName newcustodianAgency,
        (TransferAsset custodianName newcustodianName newcustodianAgency ctx).1 =
          inl (JsonError err)
        /\ state (TransferAsset custodianName newcustodianName newcustodianAgency ctx).2 =
             state ctx)
  /\ (forall custodianAgency caseNumber evidenceInfo,
        (UpdateAsset custodianName custodianAgency caseNumber evidenceInfo ctx).1 = inr tt)
  /\ (DeleteAsset custodianName ctx).1 = inr tt.
Proof.
  intros Hk Hd H2. destruct (answers_S 1 ctx (state ctx) H2) as [H1 H1'].
  assert (Hne : state ctx !! custodianName <> None) by congruence.
  split; [|split; [|split; [|split]]].
  - rewrite AssetExists_answers by assumption. cbn. now rewrite bool_decide_eq_true_2.
  - rewrite ReadAsset_answers by assumption. now rewrite Hk, Hd.
  - intros n ag.
    erewrite TransferAsset_error; rewrite ReadAsset_answers, Hk, Hd by assumption; auto.
  - intros ag cn ev. rewrite UpdateAsset_present by assumption.
    now rewrite PutState_answers.
  - rewrite DeleteAsset_present by assumption. now rewrite DelState_answers.
Qed.

(** X7: [json.Unmarshal] of what [json.Marshal] wrote for an asset gives the
    asset with every string coerced to valid UTF-8.  It gives the asset
    itself exactly when the four strings are valid UTF-8, and two such assets
    with the same encoding are the same asset. *)
Theorem Marshal_Unmarshal_round_trip asset :
  decode (encode asset) = inr (coerced asset)
  /\ (decode (encode asset) = inr asset <-> ValidAsset asset)
  /\ (forall asset', ValidAsset asset -> ValidAsset asset' ->
        encode asset = encode asset' -> asset = asset').
Proof.
  split; [apply decode_encode|]. split; [split|].
  - apply decode_valid.
  - apply decode_encode_valid.
  - intros b Ha Hb E. apply encode_inj in E.
    now rewrite (coerced_valid _ Ha), (coerced_valid _ Hb) in E.
Qed.

(** X8: an asset that [ReadAsset] returns is what the value at the key is
    read as; its four strings are valid UTF-8, whatever bytes were stored,
    and marshalling it and unmarshalling the result gives it back. *)
Theorem ReadAsset_valid custodianName ctx asset :
  (ReadAsset custodianName ctx).1 = inr asset ->
  (exists data, state ctx !! custodianName = Some data /\ decode data = inr asset)
  /\ ValidAsset asset
  /\ decode (encode asset) = inr asset.
Proof.
  intros E.
  assert (H : exists data, state ctx !! custodianName = Some data /\ decode data = inr asset).
  { destruct (answers_or_fails ctx) as [H|H].
    - rewrite ReadAsset_answers in E by assumption. cbn in E.
      destruct (state ctx !! custodianName) as [data|]; [|discriminate].
      exists data. split; [reflexivity|]. destruct (decode data); congruence.
    - rewrite ReadAsset_fails in E by assumption. discriminate. }
  split; [exact H|]. destruct H as (data & _ & Hd).
  pose proof (decode_valid _ _ Hd) as Hv. split; [exact Hv|now apply decode_encode_valid].
Qed.

(** X9: when [GetAllAssets] returns a list, whatever the ledger did, the
    list is complete: it has one asset for every key of the world state, in
    the order of the keys, each the asset that [ReadAsset] returns for the
    key, and each of valid UTF-8 strings. *)
Theorem GetAllAssets_complete ctx found :
  (GetAllAssets ctx).1 = inr found ->
  length found = size (state ctx)
  /\ Forall2 (fun kv asset => (ReadAsset (Key kv) (settled ctx)).1 = inr asset)
       (entries "" "" (state ctx)) found
  /\ Forall ValidAsset found.
Proof.
  intros E. apply GetAllAssets_inr, decode_all_inr in E.
  split; [|split].
  - rewrite <- entries_length. symmetry. eapply Forall2_length, E.
  - apply Forall2_same_length_lookup. split; [eapply Forall2_length, E|].
    intros i kv a Hkv Ha.
    rewrite ReadAsset_answers by apply answers_nil. cbn [fst state settled].
    rewrite (entries_elem_of _ kv) by (eapply list_elem_of_lookup_2, Hkv).
    now rewrite (Forall2_lookup_lr _ _ _ _ _ _ E Hkv Ha).
  - apply Forall_forall. intros a Ha.
    apply list_elem_of_lookup in Ha as [i Hi].
    destruct (Forall2_lookup_r _ _ _ _ _ E Hi) as (kv & _ & Hd).
    now apply decode_valid in Hd.
Qed.

(** X10: on a world state where every key holds the encoding of an asset of
    that custodian name, as [InitLedger], [CreateAsset], [UpdateAsset] and
    [DeleteAsset] leave it, [GetAllAssets] on a ledger that answers does not
    fail, and the custodian names it returns are the keys, in their order,
    coerced to valid UTF-8. *)
Theorem GetAllAssets_keyed ctx :
  keyed (state ctx) ->
  quiet ctx ->
  exists found ctx',
    GetAllAssets ctx = (inr found, ctx')
    /\ CustodianName <$> found =
         (fun kv => json.toValidUTF8 (Key kv)) <$> entries "" "" (state ctx).
Proof.
  intros Hkeyed Hq.
  destruct (decode_all_encoded (entries "" "" (state ctx))) as (l & El & Hl).
  { intros kv Hin. apply Hkeyed. now apply entries_elem_of. }
  unfold GetAllAssets, bind. rewrite GetStateByRange_answers by now apply quiet_answers.
  destruct (GetAllAssets_from_quiet (entries "" "" (state ctx)) [] (answered ctx (state ctx)))
    as (ctx' & E & _); [now apply quiet_answered|].
  rewrite El in E. exists l, ctx'. auto.
Qed.

(** X11: after [InitLedger], on a ledger that answers and whatever the world
    state held, [ReadAsset] returns each of the six assets for its custodian
    name, and [InitLedger] once more changes nothing. *)
Theorem InitLedger_then_ReadAsset ctx :
  quiet ctx ->
  exists ctx1,
    InitLedger ctx = (inr tt, ctx1)
    /\ (forall asset, asset ∈ assets ->
          (ReadAsset (CustodianName asset) ctx1).1 = inr asset)
    /\ (InitLedger ctx1).1 = inr tt
    /\ state (InitLedger ctx1).2 = state ctx1.
Proof.
  intros Hq. destruct (InitLedger_from_quiet assets ctx Hq) as (ctx1 & E & Hs & Hq1).
  exists ctx1. split; [exact E|]. split.
  - intros a Ha. rewrite ReadAsset_answers by now apply quiet_answers.
    rewrite Hs, puts_lookup by (apply assets_NoDup || assumption). cbn [fst].
    rewrite decode_encode_valid; [reflexivity|].
    eapply Forall_forall; [apply assets_Valid|assumption].
  - destruct (InitLedger_from_quiet assets ctx1 Hq1) as (ctx2 & E2 & Hs2 & _).
    unfold InitLedger. rewrite E2. split; [reflexivity|]. cbn [snd].
    rewrite Hs2, Hs. apply puts_puts, assets_NoDup.
Qed.

(** X13: on a world state where every key holds the encoding of an asset of
    that custodian name, the name [TransferAsset] returns for a key that has
    a value is the key it was called with, coerced to valid UTF-8: the key
    itself when it is valid UTF-8. *)
Theorem TransferAsset_returns_key caseNumber newcustodianName newcustodianAgency ctx :
  keyed (state ctx) ->
  is_Some (state ctx !! caseNumber) ->
  answers 2 ctx ->
  (TransferAsset caseNumber newcustodianName newcustodianAgency ctx).1 =
    inr (json.toValidUTF8 caseNumber)
  /\ (utf8.ValidString caseNumber = true -> json.toValidUTF8 caseNumber = caseNumber).
Proof.
  intros Hkeyed [data Hk] H2. destruct (answers_S 1 ctx (state ctx) H2) as [H1 H1'].
  destruct (Hkeyed _ _ Hk) as (asset & -> & Hn).
  split; [|apply toValidUTF8_valid].
  rewrite (TransferAsset_read _ _ _ _ _ _ H1 Hk (decode_encode asset)).
  rewrite PutState_answers by assumption. cbn. now rewrite Hn.
Qed.

(** X14: [CreateAsset] and then [DeleteAsset] of the same name, on a ledger
    that answers, leave the world state as it was before the two. *)
Theorem CreateAsset_then_DeleteAsset custodianName custodianAgency caseNumber evidenceInfo ctx :
  state ctx !! custodianName = None ->
  answers 4 ctx ->
  exists ctx1 ctx2,
    CreateAsset custodianName custodianAgency caseNumber evidenceInfo ctx = (inr tt, ctx1)
    /\ DeleteAsset custodianName ctx1 = (inr tt, ctx2)
    /\ state ctx2 = state ctx.
Proof.
  intros Hk H4.
  destruct (answers_S 3 ctx (state ctx) H4) as [Ha Hb].
  set (ctx0 := answered ctx (state ctx)) in *.
  set (a := {| CustodianName := custodianName; CustodianAgency := custodianAgency;
               CaseNumber := caseNumber; EvidenceInfo := evidenceInfo |}).
  destruct (answers_S 2 ctx0 (<[custodianName := encode a]> (state ctx0)) Hb) as [Hc Hd].
  set (ctx1 := answered ctx0 (<[custodianName := encode a]> (state ctx0))) in *.
  destruct (answers_S 1 ctx1 (state ctx1) Hd) as [He Hf].
  exists ctx1. eexists.
  rewrite CreateAsset_absent by assumption. fold a ctx0.
  rewrite PutState_answers by assumption. fold ctx1. split; [reflexivity|].
  rewrite DeleteAsset_present
    by (try assumption; subst ctx1; cbn [state answered]; now rewrite lookup_insert_eq).
  rewrite DelState_answers by assumption. split; [reflexivity|].
  subst ctx1 ctx0. cbn [state answered]. now apply delete_insert_id.
Qed.

(** X15: [UpdateAsset] leaves the world state that [DeleteAsset] and then
    [CreateAsset] of the same asset leave, on a ledger that answers. *)
Theorem UpdateAsset_as_DeleteAsset_CreateAsset custodianName custodianAgency caseNumber
    evidenceInfo ctx :
  is_Some (state ctx !! custodianName) ->
  quiet ctx ->
  exists ctx1 ctx2 ctx',
    DeleteAsset custodianName ctx = (inr tt, ctx1)
    /\ CreateAsset custodianName custodianAgency caseNumber evidenceInfo ctx1 = (inr tt, ctx2)
    /\ UpdateAsset custodianName custodianAgency caseNumber evidenceInfo ctx = (inr tt, ctx')
    /\ state ctx' = state ctx2.
Proof.
  intros [data Hk] Hq.
  assert (Hne : state ctx !! custodianName <> None) by congruence.
  pose proof (quiet_answered ctx (state ctx) Hq) as Hq0.
  set (ctx0 := answered ctx (state ctx)) in *.
  pose proof (quiet_answered ctx0 (delete custodianName (state ctx0)) Hq0) as Hq1.
  set (ctx1 := answered ctx0 (delete custodianName (state ctx0))) in *.
  pose proof (quiet_answered ctx1 (state ctx1) Hq1) as Hq2.
  do 3 eexists.
  rewrite DeleteAsset_present by (try apply quiet_answers; assumption).
  rewrite DelState_answers by now apply quiet_answers. fold ctx0 ctx1.
  split; [reflexivity|].
  rewrite CreateAsset_absent
    by (try apply quiet_answers; try assumption; subst ctx1; cbn [state answered];
        apply lookup_delete_eq).
  rewrite PutState_answers by now apply quiet_answers. split; [reflexivity|].
  rewrite UpdateAsset_present by (try apply quiet_answers; assumption).
  rewrite PutState_answers by now apply quiet_answers. split; [reflexivity|].
  subst ctx1 ctx0. cbn [state answered]. symmetry. apply insert_delete_eq.
Qed.


(** * What [json.Marshal] writes *)

Section Written.

Lemma Valid_textual_ascii l t :
  forallb textual_ascii l = true -> utf8.Valid (l ++ t) = utf8.Valid t.
Proof.
  induction l as [|c l IH]; [reflexivity|]. cbn [forallb app].
  intros [Hc Hl]%andb_prop. rewrite Valid_ascii; [now apply IH|].
  unfold textual_ascii in Hc. apply andb_prop in Hc as [_ Hc]. now apply N.ltb_lt.
Qed.

Lemma textual_ascii_textual l : forallb textual_ascii l = true -> forallb textual l = true.
Proof.
  induction l as [|c l IH]; [reflexivity|]. cbn [forallb].
  intros [Hc Hl]%andb_prop. unfold textual_ascii in Hc. apply andb_prop in Hc as [-> _].
  now apply IH.
Qed.

Lemma escapeByte_textual b : forallb textual_ascii (json.escapeByte b) = true.
Proof. destruct b; reflexivity. Qed.

Lemma htmlSafeSet_textual b : json.htmlSafeSet b = true -> textual_ascii b = true.
Proof. destruct b; cbn; intros H; try reflexivity; discriminate. Qed.

(** The bytes of a well-formed sequence are a valid string of their own. *)
Lemma Valid_wellformed p r k t :
  utf8.DecodeRune p = (r, k) -> utf8.ill_formed (r, k) = false -> p <> [] ->
  utf8.Valid (firstn k p ++ t) = utf8.Valid t.
Proof.
  intros E Hw Hp. pose proof (DecodeRune_size p Hp) as Hs. rewrite E in Hs. cbn [snd] in Hs.
  rewrite Valid_step.
  - rewrite (DecodeRune_prefix _ _ _ t E Hw Hp), Hw. cbn [snd].
    rewrite drop_app_length'; [reflexivity|]. rewrite length_take. lia.
  - destruct p; [congruence|]. destruct k; [lia|]. discriminate.
Qed.

Lemma high_textual l : Forall (fun b => 0x80 <= #b) l -> forallb textual l = true.
Proof.
  induction 1 as [|c l Hc _ IH]; [reflexivity|]. cbn [forallb]. rewrite IH, andb_true_r.
  unfold textual.
  destruct (N.leb_spec 0x20 #c); [|lia].
  repeat match goal with |- context [?x =? ?y] => destruct (N.eqb_spec x y); [lia|] end.
  reflexivity.
Qed.

(** One iteration of the loop of [appendString]: it writes an escape or a
    safe byte, all ASCII, or the bytes of a well-formed sequence as they
    are. *)
Lemma appendString_from_S n b rest :
  exists piece k,
    json.appendString_from (S n) (b :: rest) =
      piece ++ json.appendString_from n (skipn k (b :: rest))
    /\ (1 <= k <= length (b :: rest))%nat
    /\ (forallb textual_ascii piece = true
        \/ (exists r, utf8.DecodeRune (b :: rest) = (r, k)
                      /\ utf8.ill_formed (r, k) = false
                      /\ 0x80 <= #b /\ piece = firstn k (b :: rest))).
Proof.
  cbn [json.appendString_from]. rewrite DecodeRune_firstn.
  pose proof (DecodeRune_size (b :: rest) ltac:(discriminate)) as Hs.
  destruct (N.ltb_spec #b utf8.RuneSelf) as [Hb|Hb].
  - eexists _, 1%nat. split; [reflexivity|]. split; [cbn [length]; lia|]. left.
    destruct (json.htmlSafeSet b) eqn:Hsafe.
    + cbn [forallb]. now rewrite htmlSafeSet_textual.
    + apply escapeByte_textual.
  - destruct (utf8.DecodeRune (b :: rest)) as [r k] eqn:E. cbn [fst snd] in *.
    exists (if utf8.ill_formed (r, k) then x5c :: bytes "ufffd"
            else if (r =? 0x2028) || (r =? 0x2029)
                 then (x5c :: bytes "u202") ++ [json.hex (N.land r 0xF)]
                 else firstn k (b :: rest)), k.
    split; [|split; [assumption|]].
    + destruct (utf8.ill_formed (r, k)); [reflexivity|].
      destruct ((r =? 0x2028) || (r =? 0x2029)); [|reflexivity].
      now rewrite <- app_assoc.
    + destruct (utf8.ill_formed (r, k)) eqn:Hw; [now left|].
      destruct (N.eqb_spec r 0x2028) as [->|_]; [now left|].
      destruct (N.eqb_spec r 0x2029) as [->|_]; [now left|].
      right. exists r. auto.
Qed.

Lemma appendString_from_Valid n : forall src t,
  utf8.Valid (json.appendString_from n src ++ t) = utf8.Valid t.
Proof.
  induction n as [|n IH]; intros [|b rest] t; try reflexivity.
  destruct (appendString_from_S n b rest) as (piece & k & -> & _ & [H|(r & E & Hw & _ & ->)]);
    rewrite <- app_assoc.
  - rewrite Valid_textual_ascii by assumption. apply IH.
  - rewrite (Valid_wellformed _ _ _ _ E Hw) by discriminate. apply IH.
Qed.

Lemma appendString_from_textual n : forall src,
  forallb textual (json.appendString_from n src) = true.
Proof.
  induction n as [|n IH]; intros [|b rest]; try reflexivity.
  destruct (appendString_from_S n b rest) as (piece & k & -> & _ & [H|(r & E & Hw & Hb & ->)]);
    rewrite forallb_app, IH, andb_true_r.
  - now apply textual_ascii_textual.
  - apply high_textual. apply (decoded_high _ r); try assumption; try discriminate.
    now apply decoded_inv.
Qed.

End Written.

(** X16: what [json.Marshal] writes for an asset, whatever bytes the four
    strings hold, is valid UTF-8, and has no byte below the space and none
    of [<], [>] and [&] in it. *)
Theorem Marshal_writes_text asset :
  utf8.Valid (encode asset) = true /\ forallb textual (encode asset) = true.
Proof.
  destruct asset as [v0 v1 v2 v3]. unfold encode.
  change (structFields _) with (record v0 v1 v2 v3). rewrite encodeStruct_record.
  unfold quoted. split.
  - repeat first
      [ rewrite appendString_from_Valid
      | rewrite Valid_textual_ascii by reflexivity
      | match goal with
        | |- utf8.Valid (?c :: ?l) = _ =>
          change (c :: l) with ([c] ++ l); rewrite Valid_textual_ascii by reflexivity
        end ].
    reflexivity.
  - repeat first
      [ rewrite forallb_app
      | rewrite appendString_from_textual
      | match goal with
        | |- context [forallb textual (?c :: ?l)] =>
          change (forallb textual (c :: l)) with (textual c && forallb textual l)
        end ].
    reflexivity.
Qed.


(** * What [json.Unmarshal] reads, and the errors of the reads *)

Section KeyOrder.

Lemma run_first j s0 s1 s2 s3 :
  (j < 4)%nat ->
  run (json.decodeInit (record s0 s1 s2 s3)) (opening "{" (fieldName j)) =
    inValue j (record s0 s1 s2 s3) [x22].
Proof.
  intros Hj. destruct j as [|[|[|[|j]]]]; try lia; vm_compute; reflexivity.
Qed.

Lemma run_next i j s0 s1 s2 s3 B s :
  (i < 4)%nat -> (j < 4)%nat ->
  json.unquote_from (length B) B = Some s ->
  run (inValue i (record s0 s1 s2 s3) (x22 :: B)) (x22 :: opening "," (fieldName j)) =
    inValue j (json.setField (record s0 s1 s2 s3) i (string_of_list_byte s)) [x22].
Proof.
  intros Hi Hj E. rewrite run_cons, (decode_step_close _ _ _ _ E).
  generalize (string_of_list_byte s). intros s'.
  destruct i as [|[|[|[|i]]]]; try lia; destruct j as [|[|[|[|j]]]]; try lia;
    vm_compute; reflexivity.
Qed.

Lemma run_last i s0 s1 s2 s3 B s :
  (i < 4)%nat ->
  json.unquote_from (length B) B = Some s ->
  run (inValue i (record s0 s1 s2 s3) (x22 :: B)) [x22; "}"%byte] =
    {| json.scan := closed; json.lit := ["}"%byte]; json.field := Some i;
       json.target := json.setField (record s0 s1 s2 s3) i (string_of_list_byte s);
       json.savedError := false |}.
Proof.
  intros Hi E. rewrite run_cons, (decode_step_close _ _ _ _ E).
  generalize (string_of_list_byte s). intros s'.
  destruct i as [|[|[|[|i]]]]; try lia; vm_compute; reflexivity.
Qed.

Lemma setField_record i s0 s1 s2 s3 v :
  exists s0' s1' s2' s3', json.setField (record s0 s1 s2 s3) i v = record s0' s1' s2' s3'.
Proof.
  destruct i as [|[|[|[|i]]]];
    [exists v, s1, s2, s3|exists s0, v, s2, s3|exists s0, s1, v, s3|exists s0, s1, s2, v
    |exists s0, s1, s2, s3]; reflexivity.
Qed.

Lemma regroup (c : byte) (l q k e : list byte) :
  ((c :: l ++ q) ++ k) ++ e = (c :: l) ++ q ++ k ++ e.
Proof. cbn [app]. now rewrite <- !app_assoc. Qed.

(** The decoder from inside the first value to the end of the document. *)
Lemma run_fields asset order : forall i s0 s1 s2 s3,
  (i < 4)%nat -> Forall (fun j => (j < 4)%nat) order ->
  exists l f,
    run (inValue i (record s0 s1 s2 s3) [x22])
        (quoted (fieldValue asset i) ++
         flat_map (fun j => x22 :: opening "," (fieldName j) ++ quoted (fieldValue asset j))
           order ++ [x22; "}"%byte]) =
      {| json.scan := closed; json.lit := l; json.field := f;
         json.target :=
           foldl (fun t j => json.setField t j (json.toValidUTF8 (fieldValue asset j)))
             (json.setField (record s0 s1 s2 s3) i (json.toValidUTF8 (fieldValue asset i)))
             order;
         json.savedError := false |}.
Proof.
  induction order as [|j order IH]; intros i s0 s1 s2 s3 Hi Ho.
  - cbn [flat_map app foldl]. rewrite run_app, run_quoted.
    rewrite (run_last _ _ _ _ _ _ _ Hi (unquote_quoted _)), toValidUTF8_eq. eauto.
  - apply Forall_cons in Ho as [Hj Ho]. cbn [flat_map foldl].
    rewrite run_app, run_quoted.
    rewrite regroup.
    rewrite run_app, (run_next _ _ _ _ _ _ _ _ Hi Hj (unquote_quoted _)), toValidUTF8_eq.
    destruct (setField_record i s0 s1 s2 s3 (json.toValidUTF8 (fieldValue asset i)))
      as (s0' & s1' & s2' & s3' & ->).
    apply IH; assumption.
Qed.

Lemma setField_length t i v : length (json.setField t i v) = length t.
Proof.
  unfold json.setField, json.fields in *.
  destruct (t !! i) as [[name w]|]; [apply length_insert|reflexivity].
Qed.

Lemma setField_lookup t i v k :
  (i < length t)%nat ->
  snd <$> json.setField t i v !! k = if decide (k = i) then Some v else snd <$> t !! k.
Proof.
  intros Hi. unfold json.setField, json.fields in *.
  destruct (t !! i) as [[name w]|] eqn:E.
  - destruct (decide (k = i)) as [->|Hne].
    + now rewrite list_lookup_insert_eq.
    + now rewrite list_lookup_insert_ne.
  - apply lookup_ge_None_1 in E. lia.
Qed.

(** What the fields hold after the values of the document are stored. *)
Lemma stored_lookup asset order : forall t k,
  Forall (fun j => (j < length t)%nat) order ->
  snd <$> foldl (fun t j => json.setField t j (json.toValidUTF8 (fieldValue asset j))) t order
            !! k =
    if bool_decide (k ∈ order) then Some (json.toValidUTF8 (fieldValue asset k))
    else snd <$> t !! k.
Proof.
  induction order as [|j order IH]; intros t k Ho; [reflexivity|].
  apply Forall_cons in Ho as [Hj Ho]. cbn [foldl].
  rewrite IH by (now setoid_rewrite setField_length).
  destruct (bool_decide (k ∈ order)) eqn:Hin.
  - apply bool_decide_eq_true_1 in Hin. rewrite bool_decide_eq_true_2; [reflexivity|now right].
  - apply bool_decide_eq_false_1 in Hin. rewrite setField_lookup by assumption.
    destruct (decide (k = j)) as [->|Hne].
    + rewrite bool_decide_eq_true_2; [reflexivity|left].
    + rewrite bool_decide_eq_false_2; [reflexivity|].
      intros [?|?]%elem_of_cons; congruence.
Qed.

Lemma document_declared asset : document asset [0; 1; 2; 3]%nat = encode asset.
Proof.
  destruct asset as [v0 v1 v2 v3]. unfold encode.
  change (structFields _) with (record v0 v1 v2 v3). rewrite encodeStruct_record.
  unfold document. cbn [flat_map].
  change (fieldName 0) with "custodianName"%string.
  change (fieldName 1) with "custodianAgency"%string.
  change (fieldName 2) with "caseNumber"%string.
  change (fieldName 3) with "evidenceInfo"%string.
  cbn [fieldValue structFields lookup list_lookup fmap option_fmap option_map default snd
       CustodianName CustodianAgency CaseNumber EvidenceInfo].
  repeat (rewrite <- ?app_assoc; cbn [app]). reflexivity.
Qed.

End KeyOrder.

(** X17: [json.Unmarshal] reads a document by the names of the keys, not by
    their order.  Of a JSON object that has some of the four fields of an
    asset, in any order and any number of times, each field it has is read
    coerced to valid UTF-8 and each field it lacks is read as the empty
    string.  So an object with all four keys is read as what [json.Marshal]
    wrote for the asset is, whatever the order of the keys. *)
Theorem decode_any_key_order asset order :
  Forall (fun i => (i < 4)%nat) order ->
  decode (document asset order) =
    inr {| CustodianName := readOf order 0 (CustodianName asset);
           CustodianAgency := readOf order 1 (CustodianAgency asset);
           CaseNumber := readOf order 2 (CaseNumber asset);
           EvidenceInfo := readOf order 3 (EvidenceInfo asset) |}
  /\ ((forall i, (i < 4)%nat -> i ∈ order) ->
      decode (document asset order) = decode (encode asset)).
Proof.
  intros Ho.
  assert (E : decode (document asset order) =
              inr {| CustodianName := readOf order 0 (CustodianName asset);
                     CustodianAgency := readOf order 1 (CustodianAgency asset);
                     CaseNumber := readOf order 2 (CaseNumber asset);
                     EvidenceInfo := readOf order 3 (EvidenceInfo asset) |}).
  { destruct order as [|i order]; [vm_compute; reflexivity|].
    apply Forall_cons in Ho as [Hi Ho].
    unfold decode, json.Unmarshal. rewrite (checkValid_run _ (structFields zero)).
    fold (run (json.decodeInit (structFields zero)) (document asset (i :: order))).
    unfold document. change (structFields zero) with (record "" "" "" "").
    rewrite run_app, (run_first _ _ _ _ _ Hi).
    destruct (run_fields asset order i "" "" "" "" Hi Ho) as (l & f & ->).
    cbn [json.scan json.savedError json.target]. change (json.eof closed) with json.scanEnd.
    cbn [negb json.err closed]. f_equal.
    pose proof (stored_lookup asset (i :: order) (record "" "" "" "")) as Hs.
    cbn [foldl] in Hs. unfold ofFields, readOf.
    rewrite !Hs by (constructor; assumption).
    destruct asset as [v0 v1 v2 v3].
    f_equal; match goal with |- context [bool_decide ?P] => destruct (bool_decide P) end;
      reflexivity. }
  split; [exact E|]. intros Hall. rewrite E, decode_encode. unfold readOf, coerced.
  rewrite !bool_decide_eq_true_2 by (apply Hall; lia). reflexivity.
Qed.

Section Failures.

(** The loop of [GetAllAssets], whatever the ledger does: an error is that
    of the ledger or that of an entry that is not read as an asset. *)
Lemma GetAllAssets_from_inl es : forall acc ctx err,
  (GetAllAssets_from es acc ctx).1 = inl err ->
  err = StubError
  \/ exists kv e, kv ∈ es /\ decode (Value kv) = inl e /\ err = JsonError e.
Proof.
  induction es as [|kv es IH]; intros acc ctx err; [discriminate|].
  cbn [GetAllAssets_from]. unfold bind.
  destruct (answers_or_fails ctx) as [H|H].
  - rewrite Next_answers by assumption. rewrite Unmarshal_eq.
    destruct (decode (Value kv)) as [e|a] eqn:Hd.
    + intros [= <-]. right. exists kv, e. split; [left|auto].
    + intros E. destruct (IH _ _ _ E) as [->|(kv' & e & Hin & Hd' & ->)]; [now left|].
      right. exists kv', e. split; [now right|auto].
  - rewrite Next_fails by assumption. intros [= <-]. now left.
Qed.

End Failures.

(** X18: the errors of the operations that read.  [ReadAsset] fails with the
    wrapped error of the read, or with "the asset ... does not exist" on a
    key that has no value, or with the error of [json.Unmarshal] on a value
    that is not read as an asset.  [TransferAsset] fails with the error of
    its [ReadAsset] or with the bare error of its put.  [GetAllAssets] fails
    with the bare error of the ledger or with the error of [json.Unmarshal]
    on one of the entries. *)
Theorem readers_errors ctx :
  (forall custodianName err,
     (ReadAsset custodianName ctx).1 = inl err ->
     err = Errorf_v "failed to read from world state: %v" StubError
     \/ (err = Errorf_s "the asset %s does not exist" custodianName
         /\ state ctx !! custodianName = None)
     \/ (exists data e,
           state ctx !! custodianName = Some data /\ decode data = inl e
           /\ err = JsonError e))
  /\ (forall caseNumber newcustodianName newcustodianAgency err,
        (TransferAsset caseNumber newcustodianName newcustodianAgency ctx).1 = inl err ->
        (ReadAsset caseNumber ctx).1 = inl err \/ err = StubError)
  /\ (forall err,
        (GetAllAssets ctx).1 = inl err ->
        err = StubError
        \/ (exists kv e,
              kv ∈ entries "" "" (state ctx) /\ decode (Value kv) = inl e
              /\ err = JsonError e)).
Proof.
  split; [|split].
  - intros k err. destruct (answers_or_fails ctx) as [H|H].
    + rewrite ReadAsset_answers by assumption. cbn [fst].
      destruct (state ctx !! k) as [data|] eqn:Hk.
      * destruct (decode data) as [e|a] eqn:Hd; [|discriminate].
        intros [= <-]. right; right. eauto.
      * intros [= <-]. right; left. auto.
    + rewrite ReadAsset_fails by assumption. intros [= <-]. now left.
  - intros k n ag err E.
    destruct (TransferAsset_cases k n ag ctx)
      as [(err' & E' & Hr & _)|(data & asset & _ & _ & [[E' _]|[E' _]])];
      rewrite E' in E; [left|right|discriminate]; congruence.
  - intros err. unfold GetAllAssets, bind. destruct (answers_or_fails ctx) as [H|H].
    + rewrite GetStateByRange_answers by assumption. apply GetAllAssets_from_inl.
    + rewrite GetStateByRange_fails by assumption. intros [= <-]. now left.
Qed.


(** * The further properties at work *)

Lemma keyed_puts l : forall m, keyed m -> keyed (puts l m).
Proof.
  induction l as [|a l IH]; intros m Hm; [exact Hm|].
  rewrite puts_cons. apply IH.
  eapply writes_own_keys_keyed; [apply writes_own_keys_insert|exact Hm].
Qed.

Lemma keyed_seeded : keyed (state seeded).
Proof. apply keyed_puts. intros key value Hk. rewrite lookup_empty in Hk. discriminate. Qed.

Lemma UpdateAsset_then_ReadAsset_seeded :
  exists ctx1 ctx2,
    UpdateAsset "Zaki" "RBPF" "7" "HP09" seeded = (inr tt, ctx1)
    /\ state ctx1 =
         <["Zaki"%string :=
             encode {| CustodianName := "Zaki"; CustodianAgency := "RBPF";
                       CaseNumber := "7"; EvidenceInfo := "HP09" |}]> (state seeded)
    /\ ReadAsset "Zaki" ctx1 =
         (inr (coerced {| CustodianName := "Zaki"; CustodianAgency := "RBPF";
                          CaseNumber := "7"; EvidenceInfo := "HP09" |}), ctx2)
    /\ (ValidAsset {| CustodianName := "Zaki"; CustodianAgency := "RBPF";
                      CaseNumber := "7"; EvidenceInfo := "HP09" |} ->
        coerced {| CustodianName := "Zaki"; CustodianAgency := "RBPF";
                   CaseNumber := "7"; EvidenceInfo := "HP09" |} =
          {| CustodianName := "Zaki"; CustodianAgency := "RBPF";
             CaseNumber := "7"; EvidenceInfo := "HP09" |}).
Proof.
  apply (UpdateAsset_then_ReadAsset "Zaki" "RBPF" "7" "HP09" seeded).
  - exists (encode Zaki). vm_compute. reflexivity.
  - vm_compute. constructor.
Defined.

Lemma DeleteAsset_then_ReadAsset_seeded :
  exists ctx1 ctx2,
    DeleteAsset "Zaki" seeded = (inr tt, ctx1)
    /\ state ctx1 = delete "Zaki"%string (state seeded)
    /\ (forall key, key <> "Zaki"%string -> state ctx1 !! key = state seeded !! key)
    /\ ReadAsset "Zaki" ctx1 =
         (inl (Errorf_s "the asset %s does not exist" "Zaki"), ctx2).
Proof.
  apply (DeleteAsset_then_ReadAsset "Zaki" seeded).
  - exists (encode Zaki). vm_compute. reflexivity.
  - vm_compute. constructor.
Defined.

Lemma undecodable_value_spoiled :
  (AssetExists "Nur" spoiled).1 = inr true
  /\ (ReadAsset "Nur" spoiled).1 = inl (JsonError json.UnmarshalTypeError)
  /\ (forall newcustodianName newcustodianAgency,
        (TransferAsset "Nur" newcustodianName newcustodianAgency spoiled).1 =
          inl (JsonError json.UnmarshalTypeError)
        /\ state (TransferAsset "Nur" newcustodianName newcustodianAgency spoiled).2 =
             state spoiled)
  /\ (forall custodianAgency caseNumber evidenceInfo,
        (UpdateAsset "Nur" custodianAgency caseNumber evidenceInfo spoiled).1 = inr tt)
  /\ (DeleteAsset "Nur" spoiled).1 = inr tt.
Proof.
  apply (undecodable_value "Nur" spoiled (bytes "[]") json.UnmarshalTypeError).
  - vm_compute. reflexivity.
  - vm_compute. reflexivity.
  - vm_compute. constructor.
Defined.

Lemma ReadAsset_valid_seeded :
  (exists data, state seeded !! "Zaki"%string = Some data /\ decode data = inr Zaki)
  /\ ValidAsset Zaki
  /\ decode (encode Zaki) = inr Zaki.
Proof.
  apply (ReadAsset_valid "Zaki" seeded Zaki). vm_compute. reflexivity.
Defined.

Lemma GetAllAssets_complete_seeded :
  let found := (fun i => nth i assets zero) <$> [2; 1; 4; 3; 5; 0]%nat in
  length found = size (state seeded)
  /\ Forall2 (fun kv asset => (ReadAsset (Key kv) (settled seeded)).1 = inr asset)
       (entries "" "" (state seeded)) found
  /\ Forall ValidAsset found.
Proof.
  apply (GetAllAssets_complete seeded). vm_compute. reflexivity.
Defined.

Lemma GetAllAssets_keyed_seeded :
  exists found ctx',
    GetAllAssets seeded = (inr found, ctx')
    /\ CustodianName <$> found =
         (fun kv => json.toValidUTF8 (Key kv)) <$> entries "" "" (state seeded).
Proof.
  apply (GetAllAssets_keyed seeded).
  - apply keyed_seeded.
  - constructor.
Defined.

Lemma InitLedger_then_ReadAsset_fresh :
  exists ctx1,
    InitLedger {| state := ∅; faults := [] |} = (inr tt, ctx1)
    /\ (forall asset, asset ∈ assets ->
          (ReadAsset (CustodianName asset) ctx1).1 = inr asset)
    /\ (InitLedger ctx1).1 = inr tt
    /\ state (InitLedger ctx1).2 = state ctx1.
Proof.
  apply (InitLedger_then_ReadAsset {| state := ∅; faults := [] |}). constructor.
Defined.

Lemma TransferAsset_then_ReadAsset_seeded :
  exists ctx' ctx'',
    TransferAsset "Zaki" "Bob" "RBPF" seeded = (inr (CustodianName Zaki), ctx')
    /\ ReadAsset "Zaki" ctx' =
         (inr {| CustodianName := json.toValidUTF8 "Bob";
                 CustodianAgency := json.toValidUTF8 "RBPF";
                 CaseNumber := CaseNumber Zaki;
                 EvidenceInfo := EvidenceInfo Zaki |}, ctx'').
Proof.
  apply (TransferAsset_then_ReadAsset "Zaki" "Bob" "RBPF" seeded (encode Zaki) Zaki).
  - vm_compute. reflexivity.
  - vm_compute. reflexivity.
  - vm_compute. constructor.
Defined.

Lemma TransferAsset_returns_key_seeded :
  (TransferAsset "Zaki" "Bob" "RBPF" seeded).1 = inr (json.toValidUTF8 "Zaki")
  /\ (utf8.ValidString "Zaki" = true -> json.toValidUTF8 "Zaki" = "Zaki"%string).
Proof.
  apply (TransferAsset_returns_key "Zaki" "Bob" "RBPF" seeded).
  - apply keyed_seeded.
  - exists (encode Zaki). vm_compute. reflexivity.
  - vm_compute. constructor.
Defined.

Lemma CreateAsset_then_DeleteAsset_seeded :
  exists ctx1 ctx2,
    CreateAsset "Nur" "RBPF" "7" "HP09/SIM04" seeded = (inr tt, ctx1)
    /\ DeleteAsset "Nur" ctx1 = (inr tt, ctx2)
    /\ state ctx2 = state seeded.
Proof.
  apply (CreateAsset_then_DeleteAsset "Nur" "RBPF" "7" "HP09/SIM04" seeded).
  - vm_compute. reflexivity.
  - vm_compute. constructor.
Defined.

Lemma UpdateAsset_as_DeleteAsset_CreateAsset_seeded :
  exists ctx1 ctx2 ctx',
    DeleteAsset "Zaki" seeded = (inr tt, ctx1)
    /\ CreateAsset "Zaki" "RBPF" "7" "HP09" ctx1 = (inr tt, ctx2)
    /\ UpdateAsset "Zaki" "RBPF" "7" "HP09" seeded = (inr tt, ctx')
    /\ state ctx' = state ctx2.
Proof.
  apply (UpdateAsset_as_DeleteAsset_CreateAsset "Zaki" "RBPF" "7" "HP09" seeded).
  - exists (encode Zaki). vm_compute. reflexivity.
  - constructor.
Defined.

(** A name with an angle bracket and a byte that is no UTF-8: what is
    written has neither. *)
Example quoted_escapes :
  quoted (string_of_list_byte [x3c; xff]) = x5c :: bytes "u003c" ++ x5c :: bytes "ufffd".
Proof. vm_compute. reflexivity. Qed.

(** The asset of Zaki with its keys in the alphabetical order. *)
Example document_alphabetical :
  string_of_list_byte (document Zaki [2; 1; 0; 3]%nat) =
    String.concat (String "034"%char "")
      ["{"; "caseNumber"; ":"; "1"; ","; "custodianAgency"; ":"; "RCED"; ",";
       "custodianName"; ":"; "Zaki"; ","; "evidenceInfo"; ":"; "HP01/HP02"; "}"]%string.
Proof. vm_compute. reflexivity. Qed.

Lemma decode_any_key_order_alphabetical :
  decode (document Zaki [2; 1; 0; 3]%nat) =
    inr {| CustodianName := readOf [2; 1; 0; 3]%nat 0 (CustodianName Zaki);
           CustodianAgency := readOf [2; 1; 0; 3]%nat 1 (CustodianAgency Zaki);
           CaseNumber := readOf [2; 1; 0; 3]%nat 2 (CaseNumber Zaki);
           EvidenceInfo := readOf [2; 1; 0; 3]%nat 3 (EvidenceInfo Zaki) |}
  /\ ((forall i, (i < 4)%nat -> i ∈ [2; 1; 0; 3]%nat) ->
      decode (document Zaki [2; 1; 0; 3]%nat) = decode (encode Zaki)).
Proof.
  apply (decode_any_key_order Zaki [2; 1; 0; 3]%nat). repeat constructor.
Defined.

